(** * bolt: node, page, cursor, bucket and database core

    A shallow embedding of the B+tree node algorithms (node.go), the page
    codec they write to, the cursor search, the bucket facade and the
    database sizing and meta selection, followed by the properties that
    the specification states about them.

    Conventions.  A Go [[]byte] is a [list ascii] (one [ascii] is one
    octet).  A Go [int] holding a length or a size of in-memory data is a
    [Z] (these stay far below 2^63); where an arbitrary [int] or a fixed
    width field can wrap, the wrap-around is written out.  A runtime panic
    or an access outside a buffer is [None], and [Panic] where the model
    also needs fuel. *)

From Stdlib Require Import ZArith Ascii String List Lia Bool.
From stdpp Require Import base option list sorting gmap.
Import ListNotations.

Local Open Scope Z_scope.

(** ** Bytes *)

Abbreviation byte := ascii.
Abbreviation bytes := (list ascii).

(** A byte-string literal: [bs "foo"] is [[]byte("foo")]. *)
Definition bs (s : string) : bytes := String.list_ascii_of_string s.
Arguments bs s%_string.

Definition byte_val (c : byte) : Z := Z.of_N (N_of_ascii c).
Definition byte_of_Z (z : Z) : byte := ascii_of_N (Z.to_N (z mod 256)).

Definition blen (s : bytes) : Z := Z.of_nat (length s).

(** [bytes.Compare] of Go's standard library: lexicographic order on
    unsigned octets, with result -1, 0 or +1. *)
Fixpoint Compare (x y : bytes) : Z :=
  match x, y with
  | [], [] => 0
  | [], _ :: _ => -1
  | _ :: _, [] => 1
  | c :: x', d :: y' =>
      if byte_val c <? byte_val d then -1
      else if byte_val d <? byte_val c then 1
      else Compare x' y'
  end.

(** [bytes.Equal]: same length and same octets (nil equals empty). *)
Fixpoint Equal (x y : bytes) : bool :=
  match x, y with
  | [], [] => true
  | c :: x', d :: y' => (byte_val c =? byte_val d) && Equal x' y'
  | _, _ => false
  end.

(** ** sort.Search

    Go's standard library:
<<
    i, j := 0, n
    for i < j {
        h := int(uint(i+j) >> 1)
        if !f(h) { i = h + 1 } else { j = h }
    }
    return i
>>
    The predicate is a closure: it may read a slice out of range (panic)
    and it may write captured variables, so it runs in a state [S] and may
    fail.  The loop is given [n] rounds of fuel, which always suffice
    (see [Search_loop_fuel]). *)
Fixpoint Search_loop {S : Type} (fuel : nat)
    (f : nat -> S -> option (bool * S)) (i j : nat) (s : S)
    : option (nat * S) :=
  if (i <? j)%nat then
    match fuel with
    | O => None
    | Datatypes.S fuel' =>
        let h := ((i + j) / 2)%nat in
        match f h s with
        | None => None
        | Some (true, s') => Search_loop fuel' f i h s'
        | Some (false, s') => Search_loop fuel' f (h + 1)%nat j s'
        end
    end
  else Some (i, s).

Definition Search {S : Type} (n : nat) (f : nat -> S -> option (bool * S))
    (s : S) : option (nat * S) :=
  Search_loop n f 0%nat n s.

(** Go's [copy(l[dst:], l[src:])] within one slice: [min] of the two
    lengths is moved, as if through a temporary. *)
Definition copy_within {A : Type} (l : list A) (dst src : nat) : list A :=
  let from := drop src l in
  let k := Nat.min (length l - dst) (length from) in
  take dst l ++ take k from ++ drop (dst + k) l.

(** ** Machine integers *)

(** Go's [int] on the 64-bit platforms: two's complement wrap-around. *)
Definition int_wrap (z : Z) : Z := (z + 2 ^ 63) mod 2 ^ 64 - 2 ^ 63.

(** Conversion to [uint64], [uint32] and [uint16]. *)
Definition uint64 (z : Z) : Z := z mod 2 ^ 64.
Definition uint32 (z : Z) : Z := z mod 2 ^ 32.
Definition uint16 (z : Z) : Z := z mod 2 ^ 16.

(** The largest [int] of a 64-bit platform. *)
Definition maxInt64 : Z := 2 ^ 63 - 1.

(** ** Memory

    The bytes of a buffer, addressed from its start.  A store or a load
    that leaves the buffer is undefined in Go (the code indexes a
    pointer cast to a huge array) and is [None] here. *)

Definition store (m : bytes) (off : nat) (data : bytes) : option bytes :=
  if (off + length data <=? length m)%nat
  then Some (take off m ++ data ++ drop (off + length data) m)
  else None.

Definition load (m : bytes) (off len : nat) : option bytes :=
  if (off + len <=? length m)%nat then Some (take len (drop off m)) else None.

(** Little-endian fields of [n] bytes. *)
Fixpoint le_bytes (n : nat) (z : Z) : bytes :=
  match n with
  | O => []
  | Datatypes.S n' => byte_of_Z z :: le_bytes n' (z / 256)
  end.

Fixpoint le_value (s : bytes) : Z :=
  match s with
  | [] => 0
  | c :: s' => byte_val c + 256 * le_value s'
  end.

(** ** Page constants *)

(** Modelled from the spec: page.go of this version (the declaration of
    the page header and of the element structs) is not among the sources.
    The header is [{id u64, flags u16, count u16, overflow u32}], so the
    element array starts 16 bytes into the page. *)
Definition pageHeaderSize : Z := 16.

(** Modelled from the spec: a leaf element is
    [{flags u32, pos u32, ksize u32, vsize u32}]. *)
Definition leafPageElementSize : Z := 16.

(** Modelled from the spec: a branch element is
    [{pos u32, ksize u32, pgid u64}]. *)
Definition branchPageElementSize : Z := 16.

(** Modelled from the spec: the declaration is not among the sources.
    The split scenario of the spec and [TestNodeSplit] (five elements at
    page size 100 give nodes of 2 and 3) hold for the value 2 only: with
    1 the first cut comes after one element, with 3 or more a node of
    five elements is not split at all. *)
Definition minKeysPerPage : Z := 2.

(** Modelled from the spec: the page type flags; the values are the ones
    the page constants of the sources carry for branch and leaf. *)
Definition branchPageFlag : Z := 1.
Definition leafPageFlag : Z := 2.

(** ** Inodes and nodes *)

Module inode.
(** [type inode struct { flags uint32; pgid pgid; key, value []byte }] *)
Record t := mk {
  flags : Z;
  pgid : Z;
  key : bytes;
  value : bytes
}.
(** The zero value [inode{}]. *)
Definition zero : t := mk 0 0 [] [].
End inode.

(** ** Pages *)

Module leafPageElement.
(** Modelled from the spec: [{flags u32, pos u32, ksize u32, vsize u32}],
    16 bytes, little-endian. *)
Record t := mk { flags : Z; pos : Z; ksize : Z; vsize : Z }.

Definition encode (e : t) : bytes :=
  le_bytes 4 (flags e) ++ le_bytes 4 (pos e) ++ le_bytes 4 (ksize e)
  ++ le_bytes 4 (vsize e).

Definition decode (s : bytes) : t :=
  mk (le_value (take 4 s)) (le_value (take 4 (drop 4 s)))
     (le_value (take 4 (drop 8 s))) (le_value (take 4 (drop 12 s))).
End leafPageElement.

Module branchPageElement.
(** Modelled from the spec: [{pos u32, ksize u32, pgid u64}], 16 bytes,
    little-endian. *)
Record t := mk { pos : Z; ksize : Z; pgid : Z }.

Definition encode (e : t) : bytes :=
  le_bytes 4 (pos e) ++ le_bytes 4 (ksize e) ++ le_bytes 8 (pgid e).

Definition decode (s : bytes) : t :=
  mk (le_value (take 4 s)) (le_value (take 4 (drop 4 s)))
     (le_value (take 8 (drop 8 s))).
End branchPageElement.

Module page.
(** Modelled from the spec: the header [{id, flags, count u16,
    overflow u32}] and, in [ptr], the bytes of the page that follow the
    header: the element array, then the keys and values. *)
Record t := mk {
  id : Z;
  flags : Z;
  count : Z;
  overflow : Z;
  ptr : bytes
}.

(** Where element [index] starts, counted from [ptr]; the index is a
    [uint16] in every call. *)
Definition elem_off (elemSize : Z) (index : Z) : nat :=
  Z.to_nat (elemSize * uint16 index).

(** Modelled from the spec: [p.leafPageElement(index)], the element of
    the array at [ptr]. *)
Definition leafPageElement (p : t) (index : Z) : option leafPageElement.t :=
  leafPageElement.decode <$>
    load (ptr p) (elem_off leafPageElementSize index) (Z.to_nat leafPageElementSize).

(** Modelled from the spec: [p.branchPageElement(index)]. *)
Definition branchPageElement (p : t) (index : Z) : option branchPageElement.t :=
  branchPageElement.decode <$>
    load (ptr p) (elem_off branchPageElementSize index) (Z.to_nat branchPageElementSize).

(** Modelled from the spec: [key()] of a leaf element is the [ksize]
    bytes at [pos] from the element, [value()] the [vsize] bytes after
    them. *)
Definition leaf_key (p : t) (index : Z) : option bytes :=
  e ← leafPageElement p index;
  load (ptr p)
    (elem_off leafPageElementSize index + Z.to_nat (leafPageElement.pos e))
    (Z.to_nat (leafPageElement.ksize e)).

Definition leaf_value (p : t) (index : Z) : option bytes :=
  e ← leafPageElement p index;
  load (ptr p)
    (elem_off leafPageElementSize index + Z.to_nat (leafPageElement.pos e)
     + Z.to_nat (leafPageElement.ksize e))
    (Z.to_nat (leafPageElement.vsize e)).

(** Modelled from the spec: [key()] of a branch element. *)
Definition branch_key (p : t) (index : Z) : option bytes :=
  e ← branchPageElement p index;
  load (ptr p)
    (elem_off branchPageElementSize index + Z.to_nat (branchPageElement.pos e))
    (Z.to_nat (branchPageElement.ksize e)).

(** The [pgid] field of a branch element. *)
Definition branch_pgid (p : t) (index : Z) : option Z :=
  branchPageElement.pgid <$> branchPageElement p index.

(** The keys of the [count] elements of a page, in order. *)
Definition leaf_keys (p : t) : option (list bytes) :=
  mapM (fun i => leaf_key p (Z.of_nat i)) (seq 0 (Z.to_nat (count p))).

Definition branch_keys (p : t) : option (list bytes) :=
  mapM (fun i => branch_key p (Z.of_nat i)) (seq 0 (Z.to_nat (count p))).

(** [(p.flags & leafPageFlag) != 0] *)
Definition is_leaf (p : t) : bool := negb (Z.land (flags p) leafPageFlag =? 0).
Definition is_branch (p : t) : bool := negb (Z.land (flags p) branchPageFlag =? 0).
End page.

(** Nodes live on a heap and are referred to by address, as the Go code
    refers to them by pointer ([parent], [children], the result of
    [split]). *)
Abbreviation addr := nat.

Module node.
Record t := mk {
  bucket : nat;            (* the owning *Bucket, a handle *)
  isLeaf : bool;
  unbalanced : bool;
  key : bytes;
  pgid : Z;
  parent : option addr;    (* nil is None *)
  children : list addr;
  inodes : list inode.t
}.

Definition with_inodes (l : list inode.t) (n : t) : t :=
  mk (bucket n) (isLeaf n) (unbalanced n) (key n) (pgid n) (parent n)
     (children n) l.
Definition with_parent (p : option addr) (n : t) : t :=
  mk (bucket n) (isLeaf n) (unbalanced n) (key n) (pgid n) p
     (children n) (inodes n).
Definition with_children (c : list addr) (n : t) : t :=
  mk (bucket n) (isLeaf n) (unbalanced n) (key n) (pgid n) (parent n)
     c (inodes n).

(** [minKeys] *)
Definition minKeys (n : t) : Z := if isLeaf n then 1 else 2.

(** [pageElementSize] *)
Definition pageElementSize (n : t) : Z :=
  if isLeaf n then leafPageElementSize else branchPageElementSize.

(** [size]: header plus, per inode, element, key and value. *)
Definition size (n : t) : Z :=
  let elementSize := pageElementSize n in
  fold_left
    (fun size item =>
       size + (elementSize + blen (inode.key item) + blen (inode.value item)))
    (inodes n) pageHeaderSize.

(** The closure that [put], [del] and [childIndex] hand to
    [sort.Search]: [bytes.Compare(n.inodes[i].key, k) != -1]. *)
Definition not_less (l : list inode.t) (k : bytes) (i : nat) (u : unit)
    : option (bool * unit) :=
  match l !! i with
  | Some item => Some (negb (Compare (inode.key item) k =? -1), u)
  | None => None
  end.

(** [put] *)
Definition put (oldKey newKey value : bytes) (pgid flags : Z) (n : t)
    : option t :=
  match Search (length (inodes n)) (not_less (inodes n) oldKey) tt with
  | None => None
  | Some (index, _) =>
      let len := length (inodes n) in
      let exact :=
        (0 <? len)%nat && (index <? len)%nat &&
        match inodes n !! index with
        | Some item => Equal (inode.key item) oldKey
        | None => false
        end in
      let l1 :=
        if exact then inodes n
        else copy_within (inodes n ++ [inode.zero]) (index + 1) index in
      match l1 !! index with
      | None => None
      | Some _ =>
          Some (with_inodes (<[index := inode.mk flags pgid newKey value]> l1) n)
      end
  end.

(** [del]: [append(n.inodes[:index], n.inodes[index+1:]...)] closes the
    gap, and the node is marked unbalanced. *)
Definition del (k : bytes) (n : t) : option t :=
  match Search (length (inodes n)) (not_less (inodes n) k) tt with
  | None => None
  | Some (index, _) =>
      if (length (inodes n) <=? index)%nat then Some n
      else
        match inodes n !! index with
        | None => None
        | Some item =>
            if negb (Equal (inode.key item) k) then Some n
            else
              Some (mk (bucket n) (isLeaf n) true (key n) (pgid n) (parent n)
                       (children n)
                       (take index (inodes n) ++ drop (index + 1) (inodes n)))
        end
  end.

(** [childIndex]: the index of the child [child] among the inodes of
    [n], found by the key the child was read or spilled with. *)
Definition childIndex (child : t) (n : t) : option nat :=
  fst <$> Search (length (inodes n)) (not_less (inodes n) (key child)) tt.

(** [numChildren] *)
Definition numChildren (n : t) : Z := Z.of_nat (length (inodes n)).

(** One round of the loop of [read]: the inode for element [i]. *)
Definition read_inode (leaf : bool) (p : page.t) (i : nat) : option inode.t :=
  if leaf then
    elem ← page.leafPageElement p (Z.of_nat i);
    k ← page.leaf_key p (Z.of_nat i);
    v ← page.leaf_value p (Z.of_nat i);
    Some (inode.mk (leafPageElement.flags elem) 0 k v)
  else
    elem ← page.branchPageElement p (Z.of_nat i);
    k ← page.branch_key p (Z.of_nat i);
    Some (inode.mk 0 (branchPageElement.pgid elem) k []).

(** [read]: the node [n] initialised from the page [p]. *)
Definition read (p : page.t) (n : t) : option t :=
  let leaf := page.is_leaf p in
  l ← mapM (read_inode leaf p) (seq 0 (Z.to_nat (page.count p)));
  Some (mk (bucket n) leaf (unbalanced n)
           (match l with item :: _ => inode.key item | [] => [] end)
           (page.id p) (parent n) (children n) l).

(** The loop of [write]: [i] is the index of the next item, [b] the
    offset (from [ptr]) at which its key goes. *)
Fixpoint write_items (leaf : bool) (i : nat) (b : nat)
    (items : list inode.t) (m : bytes) : option bytes :=
  match items with
  | [] => Some m
  | item :: rest =>
      let elemSize := if leaf then leafPageElementSize else branchPageElementSize in
      let off := page.elem_off elemSize (Z.of_nat i) in
      let pos := uint32 (Z.of_nat b - Z.of_nat off) in
      let elem :=
        if leaf then
          leafPageElement.encode
            (leafPageElement.mk (inode.flags item) pos
               (uint32 (blen (inode.key item))) (uint32 (blen (inode.value item))))
        else
          branchPageElement.encode
            (branchPageElement.mk pos (uint32 (blen (inode.key item)))
               (inode.pgid item)) in
      m1 ← store m off elem;
      m2 ← store m1 b (inode.key item);
      let b1 := (b + length (inode.key item))%nat in
      m3 ← store m2 b1 (inode.value item);
      let b2 := (b1 + length (inode.value item))%nat in
      write_items leaf (Datatypes.S i) b2 rest m3
  end.

(** [write]: the page [p] after the node has been written to it. *)
Definition write (n : t) (p : page.t) : option page.t :=
  let flags :=
    Z.lor (page.flags p) (if isLeaf n then leafPageFlag else branchPageFlag) in
  let count := uint16 (Z.of_nat (length (inodes n))) in
  m ← write_items (isLeaf n) 0
        (Z.to_nat (pageElementSize n) * length (inodes n)) (inodes n)
        (page.ptr p);
  Some (page.mk (page.id p) flags count (page.overflow p) m).
End node.

(** ** The transaction state that [split] works on

    The nodes of one write transaction and the split counter of its
    stats.  Every node carries its bucket (as the nodes that [Bucket.node]
    and [split] create do), so [n.bucket.tx.stats] is this counter. *)

Record state := mkState {
  heap : list node.t;   (* the nodes, by address *)
  stat_Split : Z        (* n.bucket.tx.stats.Split *)
}.

Definition set_node (a : addr) (n : node.t) (st : state) : state :=
  mkState (<[a := n]> (heap st)) (stat_Split st).

Definition alloc_node (n : node.t) (st : state) : addr * state :=
  (length (heap st), mkState (heap st ++ [n]) (stat_Split st)).

(** The local variables of the loop of [split]. *)
Record split_vars := mkVars {
  v_size : Z;
  v_current : addr;
  v_nodes : list addr
}.

(** [if n.parent == nil { n.parent = &node{bucket: n.bucket, children: []*node{n}} }] *)
Definition ensure_parent (n : addr) (st : state) : option state :=
  nn ← heap st !! n;
  match node.parent nn with
  | Some _ => Some st
  | None =>
      let '(p, st') :=
        alloc_node (node.mk (node.bucket nn) false false [] 0 None [n] []) st in
      Some (set_node n (node.with_parent (Some p) nn) st')
  end.

(** The body of the [if] inside the loop of [split]: make sure [n] has a
    parent, create the sibling, hang it under the parent, reset the
    running size and count the split. *)
Definition split_cut (n : addr) (st : state) (v : split_vars)
    : option (state * split_vars) :=
  st1 ← ensure_parent n st;
  nn ← heap st1 !! n;
  p ← node.parent nn;
  let '(c, st2) :=
    alloc_node
      (node.mk (node.bucket nn) (node.isLeaf nn) false [] 0 (Some p) [] []) st1 in
  pn ← heap st2 !! p;
  let st3 := set_node p (node.with_children (node.children pn ++ [c]) pn) st2 in
  Some (mkState (heap st3) (stat_Split st3 + 1),
        mkVars pageHeaderSize c (v_nodes v ++ [c])).

(** The loop of [split] over [internalNodes], from index [i] on. *)
Fixpoint split_loop (pageSize : Z) (n : addr) (total : Z) (i : Z)
    (rest : list inode.t) (st : state) (v : split_vars)
    : option (state * split_vars) :=
  match rest with
  | [] => Some (st, v)
  | item :: rest' =>
      nn ← heap st !! n;
      cur ← heap st !! v_current v;
      let threshold := Z.quot pageSize 2 in
      let elemSize :=
        node.pageElementSize nn + blen (inode.key item) + blen (inode.value item) in
      '(st1, v1) ←
        (if (minKeysPerPage <=? Z.of_nat (length (node.inodes cur)))
            && (i <? total - minKeysPerPage)
            && (threshold <? v_size v + elemSize)
         then split_cut n st v
         else Some (st, v));
      cur1 ← heap st1 !! v_current v1;
      let st2 :=
        set_node (v_current v1)
          (node.with_inodes (node.inodes cur1 ++ [item]) cur1) st1 in
      split_loop pageSize n total (i + 1) rest' st2
        (mkVars (v_size v1 + elemSize) (v_current v1) (v_nodes v1))
  end.

(** [split]: the addresses of the resulting nodes and the new state. *)
Definition split (pageSize : Z) (n : addr) (st : state)
    : option (list addr * state) :=
  nn ← heap st !! n;
  if (Z.of_nat (length (node.inodes nn)) <=? minKeysPerPage * 2)
     || (node.size nn <? pageSize)
  then Some ([n], st)
  else
    let internalNodes := node.inodes nn in
    let st0 := set_node n (node.with_inodes [] nn) st in
    '(st', v) ←
      split_loop pageSize n (Z.of_nat (length internalNodes)) 0 internalNodes
        st0 (mkVars pageHeaderSize n [n]);
    Some (v_nodes v, st').

(** ** The split rule in the words of the specification

    "Nodes with size < pageSize or with at most 2 x minKeysPerPage inodes
    are not split.  Otherwise walk inodes in order accumulating
    [running = headerSize + sum of elemBytes].  A cut occurs at position
    [i] when all three hold: the current node has at least minKeysPerPage
    inodes; [i] is within [totalInodes - minKeysPerPage]; and
    [running + nextElemBytes > threshold]", after which [running] is reset
    to [headerSize].  The comparison of [i] with the bound is the
    parameter [within]: the specification writes [<=]. *)
Fixpoint spec_walk (within : Z -> Z -> bool) (elementSize threshold total : Z)
    (i running : Z) (current rest : list inode.t) : list (list inode.t) :=
  match rest with
  | [] => [current]
  | item :: rest' =>
      let elemBytes :=
        elementSize + blen (inode.key item) + blen (inode.value item) in
      if (minKeysPerPage <=? Z.of_nat (length current))
         && within i (total - minKeysPerPage)
         && (threshold <? running + elemBytes)
      then current ::
           spec_walk within elementSize threshold total (i + 1)
             (pageHeaderSize + elemBytes) [item] rest'
      else spec_walk within elementSize threshold total (i + 1)
             (running + elemBytes) (current ++ [item]) rest'
  end.

Definition spec_not_split (pageSize : Z) (n : node.t) : bool :=
  (node.size n <? pageSize)
  || (Z.of_nat (length (node.inodes n)) <=? 2 * minKeysPerPage).

Definition spec_split (within : Z -> Z -> bool) (pageSize : Z) (n : node.t)
    : list (list inode.t) :=
  if spec_not_split pageSize n then [node.inodes n]
  else spec_walk within (node.pageElementSize n) (Z.quot pageSize 2)
         (Z.of_nat (length (node.inodes n))) 0 pageHeaderSize []
         (node.inodes n).

(** The inode sequence and the leaf flag held at an address. *)
Definition inodes_at (st : state) (a : addr) : list inode.t :=
  match heap st !! a with
  | Some n => node.inodes n
  | None => []
  end.

Definition isLeaf_at (st : state) (a : addr) : option bool :=
  node.isLeaf <$> heap st !! a.

(** A node of the heap whose parent pointer, if it has one, points into
    the heap (Go pointers do not dangle). *)
Definition node_in (st : state) (a : addr) (n : node.t) : Prop :=
  heap st !! a = Some n /\
  forall p, node.parent n = Some p -> is_Some (heap st !! p).

(** [st'] extends [st]: every address of [st] is still there and holds
    the same leaf flag and the same inodes. *)
Definition extends (st st' : state) : Prop :=
  forall a x, heap st !! a = Some x ->
    exists x', heap st' !! a = Some x' /\
               node.isLeaf x' = node.isLeaf x /\
               node.inodes x' = node.inodes x.

(** The nodes that the tests of node_test.go build with [put]. *)
Definition keyed (ks : list bytes) (vs : list bytes) : list inode.t :=
  zip_with (fun k v => inode.mk 0 0 k v) ks vs.

Definition keys5 : list bytes :=
  [bs "00000001"; bs "00000002"; bs "00000003"; bs "00000004"; bs "00000005"].

Definition keys6 : list bytes := keys5 ++ [bs "00000006"].

Definition v16 : bytes := bs "0123456701234567".

Definition six_node : node.t :=
  node.mk 0 true false [] 0 None [] (keyed keys6 (replicate 6 v16)).

Definition six_state : state := mkState [six_node] 0.

(** A node holding exactly the five inodes of the split scenario: the
    keys "00000001" to "00000005" in order, each with a 16-byte value. *)
Definition holds_five (n : node.t) : Prop :=
  map inode.key (node.inodes n) = keys5 /\
  Forall (fun item => length (inode.value item) = 16%nat) (node.inodes n).

Definition five_node : node.t :=
  node.mk 0 false false [] 0 None [] (keyed keys5 (replicate 5 v16)).

(** ** Order on keys *)

Definition bytes_lt (x y : bytes) : Prop := Compare x y = -1.
Definition bytes_le (x y : bytes) : Prop := Compare x y <> 1.

(** Keys ascending (equal neighbours allowed) and strictly ascending. *)
Definition sorted_keys (ks : list bytes) : Prop := StronglySorted bytes_le ks.
Definition strictly_sorted_keys (ks : list bytes) : Prop := StronglySorted bytes_lt ks.

Definition sorted_by_key (l : list inode.t) : Prop :=
  sorted_keys (map inode.key l).

Definition has_key (k : bytes) (l : list inode.t) : Prop :=
  exists item, item ∈ l /\ inode.key item = k.

(** The standard lower bound: the first index whose key is not below
    [k], the length when there is none. *)
Fixpoint lower_bound (ks : list bytes) (k : bytes) : nat :=
  match ks with
  | [] => 0%nat
  | x :: ks' => if Compare x k =? -1 then Datatypes.S (lower_bound ks' k) else 0%nat
  end.

(** The predicate of the closure of [put] as a total function: the key
    at [h] is not below [k]. *)
Definition ge_key (l : list inode.t) (k : bytes) (h : nat) : bool :=
  match l !! h with
  | Some item => negb (Compare (inode.key item) k =? -1)
  | None => false
  end.

(** The same on a list of keys, and whether the key at the lower bound
    is the target. *)
Definition ge_target (ks : list bytes) (target : bytes) (h : nat) : bool :=
  match ks !! h with
  | Some x => negb (Compare x target =? -1)
  | None => false
  end.

Definition exact_at (ks : list bytes) (target : bytes) : bool :=
  match ks !! lower_bound ks target with
  | Some k => Equal k target
  | None => false
  end.

(** [TestNodePut]: four puts into an empty node. *)
Definition empty_node : node.t := node.mk 0 false false [] 0 None [] [].

Definition TestNodePut : option node.t :=
  n1 ← node.put (bs "baz") (bs "baz") (bs "2") 0 0 empty_node;
  n2 ← node.put (bs "foo") (bs "foo") (bs "0") 0 0 n1;
  n3 ← node.put (bs "bar") (bs "bar") (bs "1") 0 0 n2;
  node.put (bs "foo") (bs "foo") (bs "3") 0 0 n3.

Definition bar_baz_node : node.t :=
  node.with_inodes
    [inode.mk 0 0 (bs "bar") (bs "1"); inode.mk 0 0 (bs "baz") (bs "2")] empty_node.

(** ** Errors *)

Inductive error :=
  | ErrTxClosed
  | ErrBucketNotWritable
  | ErrKeyRequired
  | ErrKeyTooLarge
  | ErrValueTooLarge
  | ErrSequenceOverflow.

(** ** Meta pages and the database *)

Module meta.
(** Modelled from the spec: the declaration of the meta struct is not
    among the sources; [DB.init] writes magic, version, pageSize,
    freelist, buckets, pgid and txid, the specification adds flags and
    checksum. *)
Record t := mk {
  magic : Z;
  version : Z;
  pageSize : Z;
  flags : Z;
  buckets : Z;
  freelist : Z;
  pgid : Z;
  txid : Z;
  checksum : Z
}.

Definition with_checksum (c : Z) (m : t) : t :=
  mk (magic m) (version m) (pageSize m) (flags m) (buckets m) (freelist m)
     (pgid m) (txid m) c.
End meta.

Module DB.
(** The fields of [DB] that [mmapSize] and [meta] read. *)
Record t := mk {
  pageSize : Z;
  meta0 : meta.t;
  meta1 : meta.t
}.

(** [const minMmapSize = 1 << 22], [const maxMmapStep = 1 << 30] *)
Definition minMmapSize : Z := Z.shiftl 1 22.
Definition maxMmapStep : Z := Z.shiftl 1 30.

(** [mmapSize].  [%] and [/] truncate towards zero; a zero divisor
    panics. *)
Definition mmapSize (db : t) (size : Z) : option Z :=
  if size <? minMmapSize then Some minMmapSize
  else
    let size :=
      if size <? maxMmapStep then int_wrap (size * 2)
      else int_wrap (size + maxMmapStep) in
    if pageSize db =? 0 then None
    else if negb (Z.rem size (pageSize db) =? 0)
    then Some (int_wrap (int_wrap (int_wrap (Z.quot size (pageSize db)) + 1)
                         * pageSize db))
    else Some size.

(** [meta]: the current meta page. *)
Definition meta (db : t) : meta.t :=
  if meta.txid (meta0 db) >? meta.txid (meta1 db) then meta0 db else meta1 db.
End DB.

(** The current meta in the words of the specification: "the one with
    the higher txid that also checksums correctly", for a given checksum
    test. *)
Definition spec_current_meta (sum_ok : meta.t -> bool) (m0 m1 : meta.t)
    : option meta.t :=
  match sum_ok m0, sum_ok m1 with
  | true, true => Some (if meta.txid m0 >? meta.txid m1 then m0 else m1)
  | true, false => Some m0
  | false, true => Some m1
  | false, false => None
  end.

(** ** Buckets *)

Module Bucket.
Section with_tree.
(** What the transaction sees of the B+tree (pages and materialised
    nodes), and the write path of [Put]:
<<
    c := b.Cursor(); c.Seek(key); c.node(b.tx).put(key, key, value, 0)
>>
    The node cache behind [c.node] ([Tx.node]) is not among the
    sources, so the write path is a parameter; it may panic. *)
Variable tree : Type.
Variable write_path : bytes -> bytes -> tree -> option tree.

(** [MaxKeySize], [MaxValueSize] and [maxInt] are declared outside the
    sources. *)
Variables MaxKeySize MaxValueSize maxInt : Z.

(** [Tx]: [db] (nil once the transaction is closed), [writable] and
    the cursor counter of its stats, with the tree it works on. *)
Record Tx := mkTx {
  db_open : bool;
  writable : bool;
  stat_CursorCount : Z;
  data : tree
}.

(** [Bucket]: the embedded [bucket] ([root], [sequence]), the name and
    the transaction. *)
Record t := mk {
  root : Z;
  sequence : Z;
  name : string;
  tx : Tx
}.

Definition with_tx (x : Tx) (b : t) : t := mk (root b) (sequence b) (name b) x.
Definition with_sequence (s : Z) (b : t) : t := mk (root b) s (name b) (tx b).

(** [Writable] *)
Definition Writable (b : t) : bool := writable (tx b).

(** [Put]: the returned error ([None] is nil) and the bucket after
    the call; the outer [None] is a panic on the write path. *)
Definition Put (key value : bytes) (b : t) : option (option error * t) :=
  if negb (db_open (tx b)) then Some (Some ErrTxClosed, b)
  else if negb (Writable b) then Some (Some ErrBucketNotWritable, b)
  else if blen key =? 0 then Some (Some ErrKeyRequired, b)
  else if blen key >? MaxKeySize then Some (Some ErrKeyTooLarge, b)
  else if blen value >? MaxValueSize then Some (Some ErrValueTooLarge, b)
  else
    (* b.Cursor() counts the cursor *)
    let x := tx b in
    match write_path key value (data x) with
    | None => None
    | Some d =>
        Some (None,
              with_tx (mkTx (db_open x) (writable x) (stat_CursorCount x + 1) d) b)
    end.

(** [NextSequence]: the returned [int], the error and the bucket
    after the call. *)
Definition NextSequence (b : t) : Z * option error * t :=
  if negb (db_open (tx b)) then (0, Some ErrTxClosed, b)
  else if negb (Writable b) then (0, Some ErrBucketNotWritable, b)
  else if sequence b =? uint64 maxInt then (0, Some ErrSequenceOverflow, b)
  else
    let s := uint64 (sequence b + 1) in
    (int_wrap s, None, with_sequence s b).
End with_tree.
End Bucket.

(** A bucket of a writable transaction over a trivial tree, with the given
    sequence. *)
Definition writable_bucket (s : Z) : Bucket.t unit :=
  Bucket.mk unit 3 s "widgets" (Bucket.mkTx unit true true 0 tt).

Definition readonly_bucket : Bucket.t unit :=
  Bucket.mk unit 3 0 "widgets" (Bucket.mkTx unit true false 0 tt).

Definition meta_of (txid checksum : Z) : meta.t :=
  meta.mk 3977042669 1 4096 0 3 2 4 txid checksum.

(** ** Nodes that a page can hold *)

(** What a page element keeps of an inode: a leaf element has no page id
    field, a branch element neither flags nor value.  [flags] is a
    [uint32], [pgid] a [uint64]. *)
Definition storable (leaf : bool) (item : inode.t) : Prop :=
  if leaf then 0 <= inode.flags item < 2 ^ 32 /\ inode.pgid item = 0
  else inode.flags item = 0 /\ 0 <= inode.pgid item < 2 ^ 64
       /\ inode.value item = [].

(** A freshly allocated page buffer of [cap] bytes after the header, as
    [DB.allocate] makes it. *)
Definition fresh_page (id : Z) (cap : nat) : page.t :=
  page.mk id 0 0 0 (replicate cap zero).

Definition pgid_leaf : node.t :=
  node.with_inodes [inode.mk 0 7 (bs "a") (bs "b")]
    (node.mk 0 true false [] 0 None [] []).

(** [TestNodeWriteLeafPage] *)
Definition susy_leaf : node.t :=
  node.with_inodes
    [ inode.mk 0 0 (bs "john") (bs "johnson");
      inode.mk 0 0 (bs "ricki") (bs "lake");
      inode.mk 0 0 (bs "susy") (bs "que") ]
    (node.mk 0 true false [] 0 None [] []).

(** The key and value bytes that a sequence of inodes puts on a page. *)
Fixpoint data_len (items : list inode.t) : nat :=
  match items with
  | [] => 0%nat
  | item :: rest =>
      (length (inode.key item) + length (inode.value item) + data_len rest)%nat
  end.

(** The element that [write] stores for an inode whose key goes [d]
    bytes after the element. *)
Definition elem_bytes (leaf : bool) (item : inode.t) (d : Z) : bytes :=
  if leaf then
    leafPageElement.encode
      (leafPageElement.mk (inode.flags item) (uint32 d)
         (uint32 (blen (inode.key item))) (uint32 (blen (inode.value item))))
  else
    branchPageElement.encode
      (branchPageElement.mk (uint32 d) (uint32 (blen (inode.key item)))
         (inode.pgid item)).

(** The page of [TestNodeReadLeafPage]: two leaf elements, then "barfooz"
    and "helloworldbye". *)
Definition test_leaf_page : page.t :=
  page.mk 0 leafPageFlag 2 0
    (leafPageElement.encode (leafPageElement.mk 0 32 3 4)
     ++ leafPageElement.encode (leafPageElement.mk 0 23 10 3)
     ++ bs "barfooz" ++ bs "helloworldbye" ++ replicate 28 zero).

(** ** Cursor *)

(** A computation that may panic and, in the model, may run out of the
    fuel that bounds its recursion. *)
Inductive outcome (A : Type) :=
  | Done (a : A)
  | Panic
  | OutOfFuel.
Arguments Done {A} a.
Arguments Panic {A}.
Arguments OutOfFuel {A}.

Module Cursor.
(** [pageElementRef{page, index}] *)
Record elemRef := mkRef { ref_page : page.t; ref_index : Z }.

(** [Cursor]: the pages its transaction sees, the root and the stack
    (the top is the last element).

    Modelled from the spec: [Transaction.page] is not among the
    sources; a page id names a page of the store, and an id outside
    the store is a panic. *)
Record t := mk {
  pages : gmap Z page.t;
  root : Z;
  stack : list elemRef
}.

Definition with_stack (s : list elemRef) (c : t) : t := mk (pages c) (root c) s.

(** [c.stack[len(c.stack)-1].index = index] *)
Definition set_top_index (index : Z) (s : list elemRef) : option (list elemRef) :=
  match s !! (length s - 1)%nat with
  | Some e => Some (<[(length s - 1)%nat := mkRef (ref_page e) index]> s)
  | None => None
  end.

(** The closure of [nsearch]:
    [bytes.Compare(inodes[i].key(), key) != -1]. *)
Definition leaf_probe (p : page.t) (key : bytes) (i : nat) (u : unit)
    : option (bool * unit) :=
  k ← page.leaf_key p (Z.of_nat i);
  Some (negb (Compare k key =? -1), u).

(** The closure of [search]; it sets the captured [exact] when the
    comparison gives 0. *)
Definition branch_probe (p : page.t) (key : bytes) (i : nat) (exact : bool)
    : option (bool * bool) :=
  k ← page.branch_key p (Z.of_nat i);
  let ret := Compare k key in
  Some (negb (ret =? -1), if ret =? 0 then true else exact).

(** [nsearch] *)
Definition nsearch (key : bytes) (p : page.t) (c : t) : option t :=
  '(index, _) ← Search (Z.to_nat (page.count p)) (leaf_probe p key) tt;
  s ← set_top_index (uint16 (Z.of_nat index)) (stack c);
  Some (with_stack s c).

(** [search]; the recursion follows page ids, so it is bounded by
    fuel. *)
Fixpoint search (fuel : nat) (key : bytes) (p : page.t) (c : t) : outcome t :=
  match fuel with
  | O => OutOfFuel
  | Datatypes.S fuel' =>
      if Z.land (page.flags p) (Z.lor branchPageFlag leafPageFlag) =? 0
      then Panic
      else
        let c1 := with_stack (stack c ++ [mkRef p 0]) c in
        if page.is_leaf p then
          match nsearch key p c1 with
          | Some c2 => Done c2
          | None => Panic
          end
        else
          match Search (Z.to_nat (page.count p)) (branch_probe p key) false with
          | None => Panic
          | Some (index, exact) =>
              let index :=
                if negb exact && (0 <? index)%nat then (index - 1)%nat else index in
              match set_top_index (uint16 (Z.of_nat index)) (stack c1) with
              | None => Panic
              | Some s =>
                  match page.branch_pgid p (Z.of_nat index)
                          ≫= fun pg => pages c !! pg with
                  | None => Panic
                  | Some child => search fuel' key child (with_stack s c1)
                  end
              end
          end
  end.

(** [Seek]: the key and value found ([None] is [nil, nil]) and the
    cursor after the call. *)
Definition Seek (fuel : nat) (seek : bytes) (c : t)
    : outcome (option (bytes * bytes) * t) :=
  match pages c !! root c with
  | None => Panic
  | Some p =>
      match search fuel seek p (with_stack [] c) with
      | OutOfFuel => OutOfFuel
      | Panic => Panic
      | Done c1 =>
          match stack c1 !! (length (stack c1) - 1)%nat with
          | None => Panic
          | Some top =>
              if ref_index top =? page.count (ref_page top) then Done (None, c1)
              else
                match page.leaf_key (ref_page top) (ref_index top),
                      page.leaf_value (ref_page top) (ref_index top) with
                | Some k, Some v => Done (Some (k, v), c1)
                | _, _ => Panic
                end
          end
      end
  end.
(** [keyValue]: the key and value under the top of the stack;
    [Some None] is [nil, nil], [None] a panic (an empty stack, or an
    element that lies outside the buffer). *)
Definition keyValue (c : t) : option (option (bytes * bytes)) :=
  ref ← stack c !! (length (stack c) - 1)%nat;
  if page.count (ref_page ref) <=? ref_index ref then Some None
  else
    match page.leaf_key (ref_page ref) (ref_index ref),
          page.leaf_value (ref_page ref) (ref_index ref) with
    | Some k, Some v => Some (Some (k, v))
    | _, _ => None
    end.

(** The loop of [first]; [p] is the page of the top of the stack.  It
    follows page ids, so it is bounded by fuel. *)
Fixpoint first_loop (fuel : nat) (p : page.t) (c : t) : outcome t :=
  match fuel with
  | O => OutOfFuel
  | Datatypes.S fuel' =>
      if page.is_leaf p then Done c
      else
        match stack c !! (length (stack c) - 1)%nat with
        | None => Panic
        | Some top =>
            match page.branch_pgid p (ref_index top)
                    ≫= fun pg => pages c !! pg with
            | None => Panic
            | Some child =>
                first_loop fuel' child
                  (with_stack (stack c ++ [mkRef child 0]) c)
            end
        end
  end.

(** [first] *)
Definition first (fuel : nat) (c : t) : outcome t :=
  match stack c !! (length (stack c) - 1)%nat with
  | None => Panic
  | Some top => first_loop fuel (ref_page top) c
  end.

(** [First] *)
Definition First (fuel : nat) (c : t) : outcome (option (bytes * bytes) * t) :=
  match pages c !! root c with
  | None => Panic
  | Some p =>
      match first fuel (with_stack [mkRef p 0] c) with
      | OutOfFuel => OutOfFuel
      | Panic => Panic
      | Done c1 =>
          match keyValue c1 with
          | None => Panic
          | Some kv => Done (kv, c1)
          end
      end
  end.

(** The loop of [Next], with [i] frames left to look at: the frame
    [i - 1] is moved on by one element if it is not on the last element
    of its page, else it is popped.  [index] and [count] are [uint16],
    and so is [count - 1]. *)
Fixpoint next_loop (i : nat) (s : list elemRef) : option (list elemRef) :=
  match i with
  | O => Some s
  | Datatypes.S i' =>
      elem ← s !! i';
      if ref_index elem <? uint16 (page.count (ref_page elem) - 1)
      then Some (<[i' := mkRef (ref_page elem) (uint16 (ref_index elem + 1))]> s)
      else next_loop i' (take i' s)
  end.

(** [Next] *)
Definition Next (fuel : nat) (c : t) : outcome (option (bytes * bytes) * t) :=
  match next_loop (length (stack c)) (stack c) with
  | None => Panic
  | Some s =>
      let c1 := with_stack s c in
      if (length s =? 0)%nat then Done (None, c1)
      else
        match first fuel c1 with
        | OutOfFuel => OutOfFuel
        | Panic => Panic
        | Done c2 =>
            match keyValue c2 with
            | None => Panic
            | Some kv => Done (kv, c2)
            end
        end
  end.
End Cursor.

(** ** B+trees of pages *)

(** A well-formed tree of height [h] below the page [p]: leaves hold
    their [count] elements with strictly ascending keys; branches hold at
    least one element, strictly ascending keys, and children of the
    height below.  [count] is a [uint16]. *)
Fixpoint btree (pages : gmap Z page.t) (h : nat) (p : page.t) : Prop :=
  match h with
  | O =>
      page.is_leaf p = true /\
      0 <= page.count p < 65536 /\
      exists ks,
        page.leaf_keys p = Some ks /\
        strictly_sorted_keys ks /\
        forall i, (i < length ks)%nat -> is_Some (page.leaf_value p (Z.of_nat i))
  | Datatypes.S h' =>
      page.is_leaf p = false /\
      page.is_branch p = true /\
      0 < page.count p < 65536 /\
      exists ks,
        page.branch_keys p = Some ks /\
        strictly_sorted_keys ks /\
        forall i, (i < length ks)%nat ->
          exists pg child,
            page.branch_pgid p (Z.of_nat i) = Some pg /\
            pages !! pg = Some child /\ btree pages h' child
  end.

(** The index that the specification gives for a branch page: "the
    standard lower_bound index, then decrementing by one if the exact key
    was NOT found and index > 0". *)
Definition spec_branch_index (ks : list bytes) (target : bytes) : nat :=
  let i := lower_bound ks target in
  let exact :=
    match ks !! i with
    | Some k => Equal k target
    | None => false
    end in
  if negb exact && (0 <? i)%nat then (i - 1)%nat else i.

(** [i] is the rightmost index of [ks] whose key is [<= target]. *)
Definition rightmost_le (ks : list bytes) (target : bytes) (i : nat) : Prop :=
  (exists k, ks !! i = Some k /\ bytes_le k target) /\
  (forall j k, (i < j)%nat -> ks !! j = Some k -> bytes_lt target k).

(** The stack that the specification describes for a target: at a branch
    page the frame of [spec_branch_index] and below it the stack for the
    chosen child, at a leaf the frame of the lower bound. *)
Inductive descent (pages : gmap Z page.t) (target : bytes)
    : page.t -> list Cursor.elemRef -> Prop :=
  | descent_leaf p ks :
      page.is_leaf p = true ->
      page.leaf_keys p = Some ks ->
      descent pages target p [Cursor.mkRef p (Z.of_nat (lower_bound ks target))]
  | descent_branch p ks pg child rest :
      page.is_leaf p = false ->
      page.branch_keys p = Some ks ->
      page.branch_pgid p (Z.of_nat (spec_branch_index ks target)) = Some pg ->
      pages !! pg = Some child ->
      descent pages target child rest ->
      descent pages target p
        (Cursor.mkRef p (Z.of_nat (spec_branch_index ks target)) :: rest).

(** Every branch frame of a stack sits on the rightmost key that is
    [<= target], whenever its page has such a key. *)
Definition on_rightmost_le (target : bytes) (ref : Cursor.elemRef) : Prop :=
  page.is_leaf (Cursor.ref_page ref) = false ->
  forall ks,
    page.branch_keys (Cursor.ref_page ref) = Some ks ->
    (exists j k, ks !! j = Some k /\ bytes_le k target) ->
    rightmost_le ks target (Z.to_nat (Cursor.ref_index ref)).

(** A small tree for the examples: a branch page 3 over the leaves 4
    ("a", "b") and 5 ("c", "d"), each page as [write] lays it out. *)
Definition written (id : Z) (leaf : bool) (items : list inode.t) : page.t :=
  default (fresh_page id 0)
    (node.write (node.mk 0 leaf false [] 0 None [] items) (fresh_page id 112)).

Definition tree_leaf4 : page.t :=
  Eval vm_compute in
    written 4 true [inode.mk 0 0 (bs "a") (bs "1"); inode.mk 0 0 (bs "b") (bs "2")].

Definition tree_leaf5 : page.t :=
  Eval vm_compute in
    written 5 true [inode.mk 0 0 (bs "c") (bs "3"); inode.mk 0 0 (bs "d") (bs "4")].

Definition tree_root : page.t :=
  Eval vm_compute in
    written 3 false [inode.mk 0 4 (bs "a") []; inode.mk 0 5 (bs "c") []].

Definition tree_cursor : Cursor.t :=
  Cursor.mk (<[3 := tree_root]> (<[4 := tree_leaf4]> (<[5 := tree_leaf5]> ∅))) 3 [].

(** ** Further node operations on the heap *)

(** The loop of [removeChild]: the first occurrence of [target] is cut
    out, later ones stay. *)
Fixpoint remove_first (target : addr) (l : list addr) : list addr :=
  match l with
  | [] => []
  | child :: l' =>
      if decide (child = target) then l' else child :: remove_first target l'
  end.

(** [removeChild]: the in-memory children of [n] without [target]; the
    inodes are not touched. *)
Definition removeChild (n target : addr) (st : state) : option state :=
  nn ← heap st !! n;
  Some (set_node n
          (node.with_children (remove_first target (node.children nn)) nn) st).

(** [root]: the recursion follows parent pointers, so it is bounded by
    fuel. *)
Fixpoint root (fuel : nat) (n : addr) (st : state) : outcome addr :=
  match fuel with
  | O => OutOfFuel
  | Datatypes.S fuel' =>
      match heap st !! n with
      | None => Panic
      | Some nn =>
          match node.parent nn with
          | None => Done n
          | Some p => root fuel' p st
          end
      end
  end.

(** The node with its [unbalanced] mark set. *)
Definition marked_unbalanced (n : node.t) : node.t :=
  node.mk (node.bucket n) (node.isLeaf n) true (node.key n) (node.pgid n)
    (node.parent n) (node.children n) (node.inodes n).

Definition strictly_sorted_by_key (l : list inode.t) : Prop :=
  strictly_sorted_keys (map inode.key l).

(** The parent and the children held at an address. *)
Definition parent_at (st : state) (a : addr) : option addr :=
  heap st !! a ≫= node.parent.

Definition children_at (st : state) (a : addr) : list addr :=
  match heap st !! a with
  | Some n => node.children n
  | None => []
  end.

(** The links that [split] builds: [n] and the nodes [added] hang under
    [p], whose children are [base] followed by [added]. *)
Definition linked (n p : addr) (base added : list addr) (st : state) : Prop :=
  parent_at st n = Some p /\
  children_at st p = base ++ added /\
  (forall c, c ∈ added -> parent_at st c = Some p) /\
  is_Some (heap st !! p).

(** ** Reading a bucket through a cursor *)

(** [Bucket.Cursor]: a cursor on the root of the bucket, over the pages
    of its transaction; the cursor is counted in the stats. *)
Definition Bucket_Cursor (b : Bucket.t (gmap Z page.t))
    : Cursor.t * Bucket.t (gmap Z page.t) :=
  let x := Bucket.tx _ b in
  (Cursor.mk (Bucket.data _ x) (Bucket.root _ b) [],
   Bucket.with_tx _
     (Bucket.mkTx _ (Bucket.db_open _ x) (Bucket.writable _ x)
        (Bucket.stat_CursorCount _ x + 1) (Bucket.data _ x)) b).

(** [Bucket.Get]: the value ([None] is nil) and the bucket after the
    call.  [bytes.Equal] takes a nil key for an empty one.  The pages are
    reached through [tx.db], which is nil once the transaction is closed:
    the call then panics. *)
Definition Bucket_Get (fuel : nat) (key : bytes) (b : Bucket.t (gmap Z page.t))
    : outcome (option bytes * Bucket.t (gmap Z page.t)) :=
  if negb (Bucket.db_open _ (Bucket.tx _ b)) then Panic
  else
    let '(c, b1) := Bucket_Cursor b in
    match Cursor.Seek fuel key c with
    | OutOfFuel => OutOfFuel
    | Panic => Panic
    | Done (kv, _) =>
        let k := from_option fst [] kv in
        let v := snd <$> kv in
        if negb (Equal key k) then Done (None, b1) else Done (v, b1)
    end.

Section for_each.
(** The function handed to [ForEach] may keep state of its own. *)
Context {X : Type} (fn : bytes -> bytes -> X -> option error * X).

(** The loop of [ForEach], entered with the pair that [First] or [Next]
    gave; [n] bounds the number of rounds. *)
Fixpoint ForEach_loop (n fuel : nat) (kv : option (bytes * bytes))
    (c : Cursor.t) (s : X) : outcome (option error * X) :=
  match kv with
  | None => Done (None, s)
  | Some (k, v) =>
      match fn k v s with
      | (Some err, s') => Done (Some err, s')
      | (None, s') =>
          match n with
          | O => OutOfFuel
          | Datatypes.S n' =>
              match Cursor.Next fuel c with
              | OutOfFuel => OutOfFuel
              | Panic => Panic
              | Done (kv', c') => ForEach_loop n' fuel kv' c' s'
              end
          end
      end
  end.

(** [Bucket.ForEach] *)
Definition Bucket_ForEach (n fuel : nat) (b : Bucket.t (gmap Z page.t)) (s : X)
    : outcome (option error * X * Bucket.t (gmap Z page.t)) :=
  if negb (Bucket.db_open _ (Bucket.tx _ b)) then Done (Some ErrTxClosed, s, b)
  else
    let '(c, b1) := Bucket_Cursor b in
    match Cursor.First fuel c with
    | OutOfFuel => OutOfFuel
    | Panic => Panic
    | Done (kv, c1) =>
        match ForEach_loop n fuel kv c1 s with
        | OutOfFuel => OutOfFuel
        | Panic => Panic
        | Done (err, s') => Done (err, s', b1)
        end
    end.

(** What [ForEach] is to do with a list of pairs: call [fn] on each in
    turn and stop at the first error. *)
Fixpoint visit (items : list (bytes * bytes)) (s : X) : option error * X :=
  match items with
  | [] => (None, s)
  | (k, v) :: rest =>
      match fn k v s with
      | (Some err, s') => (Some err, s')
      | (None, s') => visit rest s'
      end
  end.
End for_each.

(** ** The pairs of a tree of pages *)

(** The pairs of a leaf page and the child pages of a branch page, in
    the order of the elements. *)
Definition leaf_items (p : page.t) : option (list (bytes * bytes)) :=
  mapM (fun i =>
          k ← page.leaf_key p (Z.of_nat i);
          v ← page.leaf_value p (Z.of_nat i);
          Some (k, v))
       (seq 0 (Z.to_nat (page.count p))).

Definition branch_children (pages : gmap Z page.t) (p : page.t)
    : option (list page.t) :=
  mapM (fun i => pg ← page.branch_pgid p (Z.of_nat i); pages !! pg)
       (seq 0 (Z.to_nat (page.count p))).

(** The pairs of the tree of height [h] below [p], from left to right. *)
Fixpoint tree_items (pages : gmap Z page.t) (h : nat) (p : page.t)
    : option (list (bytes * bytes)) :=
  match h with
  | O => if page.is_leaf p then leaf_items p else None
  | Datatypes.S h' =>
      if page.is_leaf p then None
      else
        cs ← branch_children pages p;
        (fun l => concat l) <$> mapM (tree_items pages h') cs
  end.

(** A tree that a cursor can walk: all leaves at depth [h], and no page
    without elements.  [count] is a [uint16]. *)
Fixpoint walkable (pages : gmap Z page.t) (h : nat) (p : page.t) : Prop :=
  0 < page.count p < 65536 /\
  match h with
  | O => page.is_leaf p = true /\ is_Some (leaf_items p)
  | Datatypes.S h' =>
      page.is_leaf p = false /\
      exists cs, branch_children pages p = Some cs /\ Forall (walkable pages h') cs
  end.

(** The stack [s] of a cursor that stands on an element of the tree
    below [p]; [rest] are the pairs from that element on. *)
Fixpoint at_stack (pages : gmap Z page.t) (h : nat) (p : page.t)
    (s : list Cursor.elemRef) (rest : list (bytes * bytes)) : Prop :=
  page.count p < 65536 /\
  match h with
  | O =>
      exists i kvs,
        s = [Cursor.mkRef p (Z.of_nat i)] /\
        page.is_leaf p = true /\
        leaf_items p = Some kvs /\
        (i < length kvs)%nat /\
        rest = drop i kvs
  | Datatypes.S h' =>
      exists i s' cs child rest' later,
        s = Cursor.mkRef p (Z.of_nat i) :: s' /\
        page.is_leaf p = false /\
        branch_children pages p = Some cs /\
        Forall (walkable pages h') cs /\
        cs !! i = Some child /\
        at_stack pages h' child s' rest' /\
        mapM (tree_items pages h') (drop (Datatypes.S i) cs) = Some later /\
        rest = rest' ++ concat later
  end.

(** Bounds on the keys of a subtree: [lo] inclusive, [hi] exclusive,
    [None] for no bound. *)
Definition above (lo : option bytes) (k : bytes) : Prop :=
  match lo with Some l => bytes_le l k | None => True end.

Definition below (hi : option bytes) (k : bytes) : Prop :=
  match hi with Some u => bytes_lt k u | None => True end.

(** A search tree of height [h] below [p] with keys between [lo] and
    [hi]: the keys of every page ascend strictly, the subtree of element
    [i] of a branch holds keys from key [i] (for the first element: from
    [lo]) up to, but not including, key [i + 1] (for the last element:
    [hi]), and the keys of a branch after the first lie between [lo] and
    [hi] themselves. *)
Fixpoint ordered (pages : gmap Z page.t) (h : nat) (lo hi : option bytes)
    (p : page.t) : Prop :=
  match h with
  | O =>
      page.is_leaf p = true /\
      0 <= page.count p < 65536 /\
      exists kvs,
        leaf_items p = Some kvs /\
        strictly_sorted_keys (map fst kvs) /\
        Forall (fun kv => above lo (fst kv) /\ below hi (fst kv)) kvs
  | Datatypes.S h' =>
      page.is_leaf p = false /\
      page.is_branch p = true /\
      0 < page.count p < 65536 /\
      exists ks cs,
        page.branch_keys p = Some ks /\
        strictly_sorted_keys ks /\
        branch_children pages p = Some cs /\
        (forall i k, (0 < i)%nat -> ks !! i = Some k -> above lo k /\ below hi k) /\
        forall i child,
          cs !! i = Some child ->
          ordered pages h'
            (match i with O => lo | _ => ks !! i end)
            (match ks !! Datatypes.S i with Some k => Some k | None => hi end)
            child
  end.

(** The bucket of an open read-only transaction over the example tree. *)
Definition tree_bucket : Bucket.t (gmap Z page.t) :=
  Bucket.mk _ 3 0 "widgets" (Bucket.mkTx _ true false 0 (Cursor.pages tree_cursor)).

(** A function for [ForEach] that collects the keys and fails on a given
    key. *)
Definition collect_until (stop : bytes) (k v : bytes) (seen : list bytes)
    : option error * list bytes :=
  if Equal k stop then (Some ErrKeyRequired, seen) else (None, seen ++ [k]).

(** The pairs of the example tree, and its cursor after [First]. *)
Definition tree_pairs : list (bytes * bytes) :=
  [(bs "a", bs "1"); (bs "b", bs "2"); (bs "c", bs "3"); (bs "d", bs "4")].

Definition tree_cursor_first : Cursor.t :=
  Cursor.with_stack [Cursor.mkRef tree_root 0; Cursor.mkRef tree_leaf4 0] tree_cursor.

(** ** More of the bucket *)

Section bucket_delete.
(** The write path of [Delete],
<<
      c := b.Cursor(); c.Seek(key); c.node(b.tx).del(key)
>>
    goes through the node cache ([Tx.node]), which is not among the
    sources: it is a parameter and may panic. *)
Variable tree : Type.
Variable delete_path : bytes -> tree -> option tree.

End bucket_delete.

(** [k] calls of [NextSequence] in a row: what each returned, and the
    bucket after the last. *)
Fixpoint NextSequence_times (tree : Type) (maxInt : Z) (k : nat) (b : Bucket.t tree)
    : list (Z * option error) * Bucket.t tree :=
  match k with
  | O => ([], b)
  | Datatypes.S k' =>
      let '(r, e, b1) := Bucket.NextSequence tree maxInt b in
      let '(l, b2) := NextSequence_times tree maxInt k' b1 in
      ((r, e) :: l, b2)
  end.

(** * Properties *)

(** ** The heap under [split] *)

Section heap_facts.
Implicit Types (st : state) (v : split_vars) (n a c p : addr) (x y : node.t).

Lemma extends_refl st : extends st st.
Proof. intros a x Hx. eauto. Qed.

Lemma extends_trans st1 st2 st3 :
  extends st1 st2 -> extends st2 st3 -> extends st1 st3.
Proof.
  intros H12 H23 a x Hx.
  destruct (H12 _ _ Hx) as (x2 & Hx2 & Hl2 & Hi2).
  destruct (H23 _ _ Hx2) as (x3 & Hx3 & Hl3 & Hi3).
  exists x3. repeat split; congruence.
Qed.

Lemma extends_is_Some st st' a :
  extends st st' -> is_Some (heap st !! a) -> is_Some (heap st' !! a).
Proof. intros He [x Hx]. destruct (He _ _ Hx) as (x' & Hx' & _). eauto. Qed.

Lemma extends_length st st' :
  extends st st' -> (length (heap st) <= length (heap st'))%nat.
Proof.
  intros He. destruct (le_lt_dec (length (heap st)) (length (heap st'))) as [|Hlt]; [trivial|].
  destruct (lookup_lt_is_Some_2 (heap st) (length (heap st')) Hlt) as [x Hx].
  destruct (He _ _ Hx) as (x' & Hx' & _).
  apply lookup_lt_Some in Hx'. lia.
Qed.

Lemma extends_alloc st x : extends st (snd (alloc_node x st)).
Proof.
  intros a y Hy. exists y. simpl. split; [|auto].
  now apply lookup_app_l_Some.
Qed.

Lemma extends_set st a x y :
  heap st !! a = Some x ->
  node.isLeaf y = node.isLeaf x -> node.inodes y = node.inodes x ->
  extends st (set_node a y st).
Proof.
  intros Hx Hl Hi a' z Hz. unfold set_node; simpl.
  destruct (decide (a = a')) as [<-|Hne].
  - exists y. rewrite list_lookup_insert_eq by (eapply lookup_lt_Some; eauto).
    assert (z = x) by congruence. subst z. auto.
  - exists z. rewrite list_lookup_insert_ne by trivial. auto.
Qed.

Lemma alloc_lookup st x :
  heap (snd (alloc_node x st)) !! fst (alloc_node x st) = Some x.
Proof.
  simpl. rewrite lookup_app_r by lia.
  now replace (length (heap st) - length (heap st))%nat with 0%nat by lia.
Qed.

Lemma set_lookup_same st a x y :
  heap st !! a = Some x -> heap (set_node a y st) !! a = Some y.
Proof.
  intros Hx. unfold set_node; simpl.
  apply list_lookup_insert_eq. eapply lookup_lt_Some; eauto.
Qed.

Lemma set_lookup_other st a a' y :
  a <> a' -> heap (set_node a y st) !! a' = heap st !! a'.
Proof. intros Hne. unfold set_node; simpl. now apply list_lookup_insert_ne. Qed.

Lemma set_is_Some st a y a' :
  is_Some (heap st !! a') -> is_Some (heap (set_node a y st) !! a').
Proof. intros H. unfold set_node; simpl. now apply list_lookup_insert_is_Some. Qed.

(** [ensure_parent] leaves [n] with a parent that is on the heap. *)
Lemma ensure_parent_spec n st nn :
  node_in st n nn ->
  exists st' nn' p,
    ensure_parent n st = Some st' /\ extends st st' /\
    heap st' !! n = Some nn' /\ node.isLeaf nn' = node.isLeaf nn /\
    node.parent nn' = Some p /\ is_Some (heap st' !! p) /\
    stat_Split st' = stat_Split st.
Proof.
  intros [Hn Hp]. unfold ensure_parent. rewrite Hn. cbn [mbind option_bind].
  destruct (node.parent nn) as [p|] eqn:Epar.
  - exists st, nn, p. repeat split; auto using extends_refl.
  - set (par := node.mk _ _ _ _ _ _ _ _).
    pose proof (extends_alloc st par) as Hext.
    pose proof (alloc_lookup st par) as Hpar.
    destruct (alloc_node par st) as [p st1] eqn:Ealloc. simpl in Hext, Hpar.
    destruct (Hext _ _ Hn) as (nn1 & Hn1 & Hl1 & Hi1).
    exists (set_node n (node.with_parent (Some p) nn) st1),
           (node.with_parent (Some p) nn), p.
    split; [reflexivity|]. split.
    { eapply extends_trans; [exact Hext|].
      eapply extends_set; [exact Hn1|simpl; congruence..]. }
    split; [eapply set_lookup_same; eauto|].
    split; [reflexivity|]. split; [reflexivity|].
    split; [apply set_is_Some; eauto|].
    inversion Ealloc; reflexivity.
Qed.

(** The cut: a fresh sibling [c] with the flag of [n] and no inodes yet;
    every older address keeps its data, and [n] keeps a valid parent. *)
Lemma split_cut_spec n st v nn :
  node_in st n nn ->
  exists st' c nn',
    split_cut n st v = Some (st', mkVars pageHeaderSize c (v_nodes v ++ [c])) /\
    extends st st' /\
    heap st !! c = None /\
    (exists x, heap st' !! c = Some x /\ node.isLeaf x = node.isLeaf nn /\ node.inodes x = []) /\
    node_in st' n nn' /\ node.isLeaf nn' = node.isLeaf nn /\
    stat_Split st' = stat_Split st + 1.
Proof.
  intros Hin.
  destruct (ensure_parent_spec n st nn Hin)
    as (st1 & nn1 & p & Hens & Hext1 & Hn1 & Hl1 & Hp1 & Hsp1 & Hstat1).
  unfold split_cut. rewrite Hens. cbn [mbind option_bind].
  rewrite Hn1. cbn [mbind option_bind]. rewrite Hp1. cbn [mbind option_bind].
  set (new := node.mk _ _ _ _ _ _ _ _).
  pose proof (extends_alloc st1 new) as Hext2.
  pose proof (alloc_lookup st1 new) as Hnew.
  assert (Hc : fst (alloc_node new st1) = length (heap st1)) by reflexivity.
  destruct (alloc_node new st1) as [c st2] eqn:Ealloc. simpl in Hext2, Hnew, Hc.
  destruct (extends_is_Some _ _ p Hext2 Hsp1) as [pn Hpn].
  rewrite Hpn. cbn [mbind option_bind].
  set (pn' := node.with_children _ pn).
  assert (Hext3 : extends st2 (set_node p pn' st2)).
  { eapply extends_set; [exact Hpn|reflexivity..]. }
  assert (Hcfresh : heap st !! c = None).
  { apply lookup_ge_None. rewrite Hc. now apply extends_length. }
  assert (Hcfresh1 : heap st1 !! c = None).
  { apply lookup_ge_None. rewrite Hc. lia. }
  destruct (Hext2 _ _ Hn1) as (nn2 & Hn2 & Hl2 & Hi2).
  destruct (Hext3 _ _ Hn2) as (nn3 & Hn3 & Hl3 & Hi3).
  destruct (Hext3 _ _ Hnew) as (new3 & Hnew3 & Hln3 & Hin3).
  exists (mkState (heap (set_node p pn' st2)) (stat_Split (set_node p pn' st2) + 1)), c, nn3.
  split; [reflexivity|]. split.
  { intros a x Hx.
    destruct (Hext1 _ _ Hx) as (x1 & Hx1 & Hxl1 & Hxi1).
    destruct (Hext2 _ _ Hx1) as (x2 & Hx2 & Hxl2 & Hxi2).
    destruct (Hext3 _ _ Hx2) as (x3 & Hx3 & Hxl3 & Hxi3).
    exists x3. split; [exact Hx3|]. split; congruence. }
  split; [exact Hcfresh|]. split.
  { exists new3. simpl. split; [exact Hnew3|]. split; [|exact Hin3].
    rewrite Hln3. simpl. exact Hl1. }
  split; [|split].
  - split; [exact Hn3|]. simpl. intros q Hq.
    assert (Hpar3 : node.parent nn3 = Some p).
    { (* the only write to [n] after the allocation is to its children *)
      assert (Hn2' : nn2 = nn1).
      { inversion Ealloc; subst st2. simpl in Hn2.
        rewrite lookup_app_l in Hn2 by (eapply lookup_lt_Some; eauto). congruence. }
      subst nn2.
      destruct (decide (p = n)) as [->|Hne].
      - rewrite (set_lookup_same _ _ _ pn' Hpn) in Hn3. inversion Hn3; subst nn3.
        unfold pn'. simpl. rewrite Hpn in Hn2. inversion Hn2; subst pn. exact Hp1.
      - rewrite set_lookup_other in Hn3 by trivial. congruence. }
    rewrite Hpar3 in Hq. inversion Hq; subst q.
    apply set_is_Some. eauto.
  - congruence.
  - simpl. inversion Ealloc; subst st2. simpl. lia.
Qed.
End heap_facts.

(** ** The loop of [split] *)

Section split_loop_facts.
Implicit Types (st : state) (v : split_vars) (n a c p : addr) (x y : node.t).

Lemma split_loop_nil pageSize n total i st v :
  split_loop pageSize n total i [] st v = Some (st, v).
Proof. reflexivity. Qed.

Lemma split_loop_cons pageSize n total i item rest st v :
  split_loop pageSize n total i (item :: rest) st v =
  (nn ← heap st !! n;
   cur ← heap st !! v_current v;
   let threshold := Z.quot pageSize 2 in
   let elemSize :=
     node.pageElementSize nn + blen (inode.key item) + blen (inode.value item) in
   '(st1, v1) ←
     (if (minKeysPerPage <=? Z.of_nat (length (node.inodes cur)))
         && (i <? total - minKeysPerPage)
         && (threshold <? v_size v + elemSize)
      then split_cut n st v
      else Some (st, v));
   cur1 ← heap st1 !! v_current v1;
   let st2 :=
     set_node (v_current v1)
       (node.with_inodes (node.inodes cur1 ++ [item]) cur1) st1 in
   split_loop pageSize n total (i + 1) rest st2
     (mkVars (v_size v1 + elemSize) (v_current v1) (v_nodes v1))).
Proof. reflexivity. Qed.

Lemma inodes_at_lookup st a x : heap st !! a = Some x -> inodes_at st a = node.inodes x.
Proof. unfold inodes_at. now intros ->. Qed.

Lemma isLeaf_at_lookup st a x : heap st !! a = Some x -> isLeaf_at st a = Some (node.isLeaf x).
Proof. unfold isLeaf_at. now intros ->. Qed.

Lemma pageElementSize_isLeaf x y :
  node.isLeaf x = node.isLeaf y -> node.pageElementSize x = node.pageElementSize y.
Proof. unfold node.pageElementSize. now intros ->. Qed.

(** Appending an inode to the node at [a]. *)
Lemma append_inode_in st n nn a x item :
  node_in st n nn -> heap st !! a = Some x ->
  exists nn',
    node_in (set_node a (node.with_inodes (node.inodes x ++ [item]) x) st) n nn' /\
    node.isLeaf nn' = node.isLeaf nn.
Proof.
  intros [Hn Hp] Hx. destruct (decide (a = n)) as [->|Hne].
  - assert (x = nn) by congruence. subst x.
    exists (node.with_inodes (node.inodes nn ++ [item]) nn). split; [split|reflexivity].
    + eapply set_lookup_same; eauto.
    + simpl. intros p Hpar. apply set_is_Some. auto.
  - exists nn. split; [split|reflexivity].
    + rewrite set_lookup_other by trivial. exact Hn.
    + intros p Hpar. apply set_is_Some. auto.
Qed.

Lemma split_loop_spec pageSize n total E lf rest :
  forall i st v done nn,
    node_in st n nn -> node.isLeaf nn = lf -> E = node.pageElementSize nn ->
    v_nodes v = done ++ [v_current v] -> NoDup (v_nodes v) ->
    (forall a, a ∈ v_nodes v -> exists x, heap st !! a = Some x /\ node.isLeaf x = lf) ->
    exists st' v' more nn',
      split_loop pageSize n total i rest st v = Some (st', v') /\
      v_nodes v' = v_nodes v ++ more /\
      map (inodes_at st') (v_nodes v') =
        map (inodes_at st) done ++
        spec_walk Z.ltb E (Z.quot pageSize 2) total i (v_size v)
          (inodes_at st (v_current v)) rest /\
      (forall a, a ∈ v_nodes v' -> isLeaf_at st' a = Some lf) /\
      node_in st' n nn' /\ node.isLeaf nn' = lf /\
      stat_Split st' = stat_Split st + Z.of_nat (length more).
Proof.
  induction rest as [|item rest IH]; intros i st v done nn Hin Hlf HE Hnodes Hnd Hall.
  - exists st, v, [], nn. rewrite split_loop_nil. simpl.
    rewrite app_nil_r, Hnodes, map_app. simpl.
    repeat split; try tauto; try lia.
    + intros a Ha. rewrite <- Hnodes in Ha.
      destruct (Hall a Ha) as (x & Hx & Hxl). rewrite (isLeaf_at_lookup _ _ _ Hx). congruence.
    + apply Hin.
    + apply Hin.
  - rewrite split_loop_cons.
    destruct Hin as [Hn Hp]. rewrite Hn. cbn [mbind option_bind].
    assert (Hcur_in : v_current v ∈ v_nodes v).
    { rewrite Hnodes. apply elem_of_app. right. now apply list_elem_of_singleton. }
    destruct (Hall _ Hcur_in) as (cur & Hcur & Hcurl).
    rewrite Hcur. cbn [mbind option_bind]. cbv zeta.
    rewrite <- HE.
    simpl spec_walk. rewrite (inodes_at_lookup _ _ _ Hcur).
    set (elemSize := E + blen (inode.key item) + blen (inode.value item)).
    destruct ((minKeysPerPage <=? Z.of_nat (length (node.inodes cur)))
              && (i <? total - minKeysPerPage)
              && (Z.quot pageSize 2 <? v_size v + elemSize)) eqn:Hcond.
    + (* a cut before this inode *)
      destruct (split_cut_spec n st v nn (conj Hn Hp))
        as (st1 & c & nn1 & Hcut & Hext & Hfresh & (xc & Hxc & Hxcl & Hxci) & Hin1 & Hl1 & Hstat).
      rewrite Hcut. cbn [mbind option_bind]. simpl v_current. simpl v_size. simpl v_nodes.
      rewrite Hxc. cbn [mbind option_bind]. rewrite Hxci. simpl app at 1.
      set (st2 := set_node c _ st1).
      destruct (append_inode_in st1 n nn1 c xc item Hin1 Hxc) as (nn2 & Hin2 & Hl2).
      rewrite Hxci in Hin2. simpl app in Hin2. fold st2 in Hin2.
      assert (Hold : forall a y, heap st !! a = Some y ->
                exists y', heap st2 !! a = Some y' /\ node.isLeaf y' = node.isLeaf y
                           /\ node.inodes y' = node.inodes y).
      { intros a y Hy. destruct (Hext _ _ Hy) as (y' & Hy' & Hyl & Hyi).
        exists y'. split; [|auto]. unfold st2. rewrite set_lookup_other; [exact Hy'|].
        intros ->. congruence. }
      assert (Hc2 : heap st2 !! c = Some (node.with_inodes [item] xc)).
      { unfold st2. eapply set_lookup_same; eauto. }
      destruct (IH (i + 1) st2 (mkVars (pageHeaderSize + elemSize) c (v_nodes v ++ [c]))
                  (v_nodes v) nn2) as (st' & v' & more & nn' & Hloop & Hv' & Hmap & Hleaf & Hin' & Hl' & Hstat').
      * exact Hin2.
      * congruence.
      * rewrite HE. apply pageElementSize_isLeaf. congruence.
      * reflexivity.
      * simpl. apply NoDup_app. split; [exact Hnd|]. split; [|apply NoDup_singleton].
        intros a Ha Hac. apply list_elem_of_singleton in Hac. subst a.
        destruct (Hall _ Ha) as (y & Hy & _). congruence.
      * intros a Ha. simpl in Ha. apply elem_of_app in Ha. destruct Ha as [Ha|Ha].
        -- destruct (Hall _ Ha) as (y & Hy & Hyl).
           destruct (Hold _ _ Hy) as (y' & Hy' & Hyl' & _). exists y'. split; [exact Hy'|congruence].
        -- apply list_elem_of_singleton in Ha. subst a.
           eexists. split; [exact Hc2|]. simpl. congruence.
      * simpl in Hloop, Hv', Hmap.
        exists st', v', (c :: more), nn'.
        split; [exact Hloop|].
        split; [rewrite Hv', <- app_assoc; reflexivity|].
        split.
        { rewrite Hmap. rewrite (inodes_at_lookup _ _ _ Hc2). simpl node.inodes.
          rewrite Hnodes at 1. rewrite map_app. simpl map. rewrite <- app_assoc. simpl app.
          f_equal.
          - apply map_ext_in. intros a Ha.
            assert (Ha' : a ∈ v_nodes v).
            { rewrite Hnodes. apply elem_of_app. left. now apply list_elem_of_In. }
            destruct (Hall _ Ha') as (y & Hy & _).
            destruct (Hold _ _ Hy) as (y' & Hy' & _ & Hyi).
            rewrite (inodes_at_lookup _ _ _ Hy), (inodes_at_lookup _ _ _ Hy'). exact Hyi.
          - f_equal.
            destruct (Hold _ _ Hcur) as (y' & Hy' & _ & Hyi).
            rewrite (inodes_at_lookup _ _ _ Hy'). exact Hyi. }
        split; [exact Hleaf|]. split; [exact Hin'|]. split; [exact Hl'|].
        rewrite Hstat'. unfold st2. simpl stat_Split. rewrite Hstat.
        simpl length. lia.
    + (* the inode joins the current node *)
      cbn [mbind option_bind]. rewrite Hcur. cbn [mbind option_bind].
      set (st2 := set_node (v_current v) _ st).
      destruct (append_inode_in st n nn (v_current v) cur item (conj Hn Hp) Hcur)
        as (nn2 & Hin2 & Hl2).
      fold st2 in Hin2.
      assert (Hc2 : heap st2 !! v_current v
                    = Some (node.with_inodes (node.inodes cur ++ [item]) cur)).
      { unfold st2. eapply set_lookup_same; eauto. }
      assert (Hnotin : v_current v ∉ done).
      { rewrite Hnodes in Hnd. apply NoDup_app in Hnd. destruct Hnd as (_ & Hd & _).
        intros Hc. apply (Hd _ Hc). now apply list_elem_of_singleton. }
      destruct (IH (i + 1) st2 (mkVars (v_size v + elemSize) (v_current v) (v_nodes v))
                  done nn2) as (st' & v' & more & nn' & Hloop & Hv' & Hmap & Hleaf & Hin' & Hl' & Hstat').
      * exact Hin2.
      * congruence.
      * rewrite HE. apply pageElementSize_isLeaf. congruence.
      * exact Hnodes.
      * exact Hnd.
      * intros a Ha. simpl in Ha. destruct (decide (a = v_current v)) as [->|Hne].
        -- eexists. split; [exact Hc2|]. simpl. exact Hcurl.
        -- destruct (Hall _ Ha) as (y & Hy & Hyl). exists y. split; [|exact Hyl].
           unfold st2. rewrite set_lookup_other by congruence. exact Hy.
      * simpl in Hloop, Hv', Hmap.
        exists st', v', more, nn'.
        split; [exact Hloop|]. split; [exact Hv'|]. split.
        { rewrite Hmap. rewrite (inodes_at_lookup _ _ _ Hc2). simpl node.inodes.
          f_equal. apply map_ext_in. intros a Ha.
          apply list_elem_of_In in Ha.
          unfold inodes_at, st2. rewrite set_lookup_other; [reflexivity|].
          intros <-. contradiction. }
        split; [exact Hleaf|]. split; [exact Hin'|]. split; [exact Hl'|].
        rewrite Hstat'. reflexivity.
Qed.
End split_loop_facts.

(** ** [split] as a whole *)

Section split_facts.
Implicit Types (st : state) (n a : addr) (nn : node.t).

Lemma spec_not_split_code pageSize nn :
  (Z.of_nat (length (node.inodes nn)) <=? minKeysPerPage * 2)
  || (node.size nn <? pageSize) = spec_not_split pageSize nn.
Proof.
  unfold spec_not_split. rewrite orb_comm. now rewrite (Z.mul_comm minKeysPerPage 2).
Qed.

(** [split] returns; its groups are those of the walk with the strict
    bound, every group keeps the leaf flag, the first address is [n],
    and the split counter grows by the number of new nodes. *)
Lemma split_spec pageSize n st nn :
  node_in st n nn ->
  exists nodes st' more,
    split pageSize n st = Some (nodes, st') /\
    nodes = n :: more /\
    (spec_not_split pageSize nn = true -> more = [] /\ st' = st) /\
    map (inodes_at st') nodes = spec_split Z.ltb pageSize nn /\
    (forall a, a ∈ nodes -> isLeaf_at st' a = Some (node.isLeaf nn)) /\
    stat_Split st' = stat_Split st + Z.of_nat (length more).
Proof.
  intros [Hn Hp]. unfold split, spec_split. rewrite Hn. cbn [mbind option_bind].
  rewrite spec_not_split_code.
  destruct (spec_not_split pageSize nn) eqn:Hns.
  - exists [n], st, []. repeat split; simpl; try lia.
    + now rewrite (inodes_at_lookup _ _ _ Hn).
    + intros a Ha. apply list_elem_of_singleton in Ha. subst a.
      now rewrite (isLeaf_at_lookup _ _ _ Hn).
  - cbv zeta.
    set (st0 := set_node n (node.with_inodes [] nn) st).
    assert (Hn0 : heap st0 !! n = Some (node.with_inodes [] nn)).
    { unfold st0. eapply set_lookup_same; eauto. }
    assert (Hin0 : node_in st0 n (node.with_inodes [] nn)).
    { split; [exact Hn0|]. simpl. intros p Hpar. apply set_is_Some. auto. }
    destruct (split_loop_spec pageSize n (Z.of_nat (length (node.inodes nn)))
                (node.pageElementSize nn) (node.isLeaf nn) (node.inodes nn)
                0 st0 (mkVars pageHeaderSize n [n]) [] _ Hin0)
      as (st' & v' & more & nn' & Hloop & Hv' & Hmap & Hleaf & _ & _ & Hstat).
    + reflexivity.
    + reflexivity.
    + reflexivity.
    + apply NoDup_singleton.
    + intros a Ha. simpl in Ha. apply list_elem_of_singleton in Ha. subst a.
      eexists. split; [exact Hn0|reflexivity].
    + rewrite Hloop. cbn [mbind option_bind].
      exists (v_nodes v'), st', more. simpl in Hv', Hmap.
      rewrite (inodes_at_lookup _ _ _ Hn0) in Hmap. simpl in Hmap.
      repeat split; try assumption; try discriminate.
Qed.

Lemma concat_spec_walk within E threshold total rest :
  forall i running current,
    concat (spec_walk within E threshold total i running current rest)
    = current ++ rest.
Proof.
  induction rest as [|item rest IH]; intros i running current; simpl.
  - reflexivity.
  - destruct (_ && _ && _); simpl.
    + now rewrite IH.
    + rewrite IH. now rewrite <- app_assoc.
Qed.

Lemma concat_spec_split within pageSize nn :
  concat (spec_split within pageSize nn) = node.inodes nn.
Proof.
  unfold spec_split. destruct (spec_not_split pageSize nn); simpl.
  - apply app_nil_r.
  - apply concat_spec_walk.
Qed.
End split_facts.

(** C10.  [split] conserves the data: the inode sequences of the returned
    nodes, concatenated in list order, are the inode sequence that [n]
    had, and every returned node has the leaf flag of [n]. *)
Theorem split_conserves (pageSize : Z) (n : addr) (st : state) (nn : node.t) :
  node_in st n nn ->
  exists nodes st',
    split pageSize n st = Some (nodes, st') /\
    concat (map (inodes_at st') nodes) = node.inodes nn /\
    forall a, a ∈ nodes -> isLeaf_at st' a = Some (node.isLeaf nn).
Proof.
  intros Hin.
  destruct (split_spec pageSize n st nn Hin)
    as (nodes & st' & more & Hs & _ & _ & Hmap & Hleaf & _).
  exists nodes, st'. split; [exact Hs|]. split; [|exact Hleaf].
  rewrite Hmap. apply concat_spec_split.
Qed.

Lemma split_conserves_witness :
  exists nodes st',
    split 100 0%nat six_state = Some (nodes, st') /\
    concat (map (inodes_at st') nodes) = node.inodes six_node /\
    forall a, a ∈ nodes -> isLeaf_at st' a = Some (node.isLeaf six_node).
Proof.
  apply (split_conserves 100 0%nat six_state six_node).
  split; [reflexivity|]. intros p Hp. discriminate Hp.
Defined.

(** C1.  A node that holds exactly the five inodes "00000001" to
    "00000005" with 16-byte values is split by [split(100)] into exactly
    two nodes: the node itself with the first two inodes and one new node
    with the last three, in the original order. *)
Theorem split_five (n : addr) (st : state) (nn : node.t) :
  node_in st n nn -> holds_five nn ->
  exists n2 st',
    split 100 n st = Some ([n; n2], st') /\
    inodes_at st' n = take 2 (node.inodes nn) /\
    inodes_at st' n2 = drop 2 (node.inodes nn) /\
    length (inodes_at st' n) = 2%nat /\ length (inodes_at st' n2) = 3%nat /\
    map inode.key (inodes_at st' n) = [bs "00000001"; bs "00000002"] /\
    map inode.key (inodes_at st' n2) = [bs "00000003"; bs "00000004"; bs "00000005"].
Proof.
  intros Hin [Hkeys Hvals].
  destruct (split_spec 100 n st nn Hin)
    as (nodes & st' & more & Hs & Hnodes & _ & Hmap & _).
  assert (Hgroups : spec_split Z.ltb 100 nn
                    = [take 2 (node.inodes nn); drop 2 (node.inodes nn)]).
  { unfold spec_split, spec_not_split, node.size, node.pageElementSize.
    destruct (node.inodes nn) as [|[f1 p1 k1 w1] [|[f2 p2 k2 w2] [|[f3 p3 k3 w3]
      [|[f4 p4 k4 w4] [|[f5 p5 k5 w5] [|]]]]]]; try discriminate Hkeys.
    simpl in Hkeys. inversion Hkeys; subst. clear Hkeys.
    repeat match goal with
           | H : Forall _ (_ :: _) |- _ => inversion H; clear H; subst
           end.
    simpl in *. unfold blen.
    repeat match goal with
           | H : length _ = 16%nat |- _ => rewrite H; clear H
           end.
    destruct (node.isLeaf nn); reflexivity. }
  rewrite Hgroups in Hmap. subst nodes.
  destruct more as [|n2 [|]]; try discriminate Hmap.
  simpl in Hmap. inversion Hmap as [[H1 H2]].
  exists n2, st'. split; [exact Hs|]. rewrite H1, H2.
  split; [reflexivity|]. split; [reflexivity|].
  destruct (node.inodes nn) as [|i1 [|i2 [|i3 [|i4 [|i5 [|]]]]]]; try discriminate Hkeys.
  simpl in Hkeys. injection Hkeys as K1 K2 K3 K4 K5. simpl.
  rewrite K1, K2, K3, K4, K5. repeat split; reflexivity.
Qed.

Lemma split_five_witness :
  exists n2 st',
    split 100 0%nat (mkState [five_node] 7) = Some ([0%nat; n2], st') /\
    inodes_at st' 0%nat = take 2 (node.inodes five_node) /\
    inodes_at st' n2 = drop 2 (node.inodes five_node) /\
    length (inodes_at st' 0%nat) = 2%nat /\ length (inodes_at st' n2) = 3%nat /\
    map inode.key (inodes_at st' 0%nat) = [bs "00000001"; bs "00000002"] /\
    map inode.key (inodes_at st' n2) = [bs "00000003"; bs "00000004"; bs "00000005"].
Proof.
  apply (split_five 0%nat (mkState [five_node] 7) five_node).
  - split; [reflexivity|]. intros p Hp. discriminate Hp.
  - split; [reflexivity|]. vm_compute. repeat constructor.
Defined.

(** C2, as stated, fails: with the bound on the position read as
    [i <= totalInodes - minKeysPerPage], a leaf of six 40-byte elements
    and [pageSize = 100] would be cut before positions 2 and 4, into
    groups of 2, 2 and 2; [split] cuts only before position 2 and returns
    groups of 2 and 4. *)
Lemma split_follows_stated_counterexample :
  ~ (forall pageSize n st nn,
       node_in st n nn ->
       exists nodes st',
         split pageSize n st = Some (nodes, st') /\
         (spec_not_split pageSize nn = true -> nodes = [n] /\ st' = st) /\
         map (inodes_at st') nodes = spec_split Z.leb pageSize nn).
Proof.
  intros H.
  destruct (H 100 0%nat six_state six_node) as (nodes & st' & Hs & _ & Hmap).
  - split; [reflexivity|]. intros p Hp. discriminate Hp.
  - vm_compute in Hs. inversion Hs; subst. vm_compute in Hmap. discriminate Hmap.
Qed.

(** C2, amended.  [split] follows the stated algorithm with the strict
    bound: a node with [size < pageSize] or with at most
    [2 * minKeysPerPage] inodes is returned alone and nothing changes;
    otherwise the inodes are walked in order with a running total that
    starts at [pageHeaderSize], and a cut is made before the inode at
    index [i] (from 0) exactly when the current node has at least
    [minKeysPerPage] inodes, [i < totalInodes - minKeysPerPage], and
    running total plus the size of that element exceeds [pageSize / 2];
    the running total then restarts at [pageHeaderSize]. *)
Theorem split_follows_amended (pageSize : Z) (n : addr) (st : state) (nn : node.t) :
  node_in st n nn ->
  exists nodes st',
    split pageSize n st = Some (nodes, st') /\
    (spec_not_split pageSize nn = true -> nodes = [n] /\ st' = st) /\
    map (inodes_at st') nodes = spec_split Z.ltb pageSize nn.
Proof.
  intros Hin.
  destruct (split_spec pageSize n st nn Hin)
    as (nodes & st' & more & Hs & Hnodes & Hnot & Hmap & _).
  exists nodes, st'. split; [exact Hs|]. split; [|exact Hmap].
  intros Hns. destruct (Hnot Hns) as [-> ->]. now subst nodes.
Qed.

Lemma split_follows_amended_witness :
  exists nodes st',
    split 100 0%nat six_state = Some (nodes, st') /\
    (spec_not_split 100 six_node = true -> nodes = [0%nat] /\ st' = six_state) /\
    map (inodes_at st') nodes = spec_split Z.ltb 100 six_node.
Proof.
  apply (split_follows_amended 100 0%nat six_state six_node).
  split; [reflexivity|]. intros p Hp. discriminate Hp.
Defined.

(** [TestNodeSplitWithMinKeys] and [TestNodeSplitFitsInPage] of
    node_test.go: two inodes at page size 20, and five at page size 4096,
    stay one node. *)
Example split_with_min_keys :
  split 20 0%nat (mkState [node.with_inodes (take 2 (node.inodes five_node)) five_node] 0)
  = Some ([0%nat],
          mkState [node.with_inodes (take 2 (node.inodes five_node)) five_node] 0).
Proof. vm_compute. reflexivity. Qed.

Example split_fits_in_page :
  split 4096 0%nat (mkState [five_node] 0) = Some ([0%nat], mkState [five_node] 0).
Proof. vm_compute. reflexivity. Qed.

(** ** [bytes.Compare] and [bytes.Equal] *)

Section compare_facts.
Implicit Types (x y z : bytes) (c d : ascii).

Lemma byte_val_inj c d : byte_val c = byte_val d -> c = d.
Proof.
  unfold byte_val. intros H. apply N2Z.inj in H.
  rewrite <- (ascii_N_embedding c), <- (ascii_N_embedding d). now rewrite H.
Qed.

Lemma Compare_range x y : Compare x y = -1 \/ Compare x y = 0 \/ Compare x y = 1.
Proof.
  revert y. induction x as [|c x IH]; intros [|d y]; simpl; auto.
  destruct (byte_val c <? byte_val d); auto.
  destruct (byte_val d <? byte_val c); auto.
Qed.

Lemma Compare_eq x y : Compare x y = 0 <-> x = y.
Proof.
  revert y. induction x as [|c x IH]; intros [|d y]; simpl; try (split; [discriminate|discriminate]).
  - tauto.
  - destruct (byte_val c <? byte_val d) eqn:E1.
    { split; [discriminate|]. intros [= -> _]. apply Z.ltb_lt in E1. lia. }
    destruct (byte_val d <? byte_val c) eqn:E2.
    { split; [discriminate|]. intros [= -> _]. apply Z.ltb_lt in E2. lia. }
    apply Z.ltb_ge in E1, E2. rewrite IH.
    assert (c = d) by (apply byte_val_inj; lia). subst d.
    split; [now intros ->|now intros [= ->]].
Qed.

Lemma Compare_refl x : Compare x x = 0.
Proof. now apply Compare_eq. Qed.

Lemma Compare_antisym x y : Compare y x = - Compare x y.
Proof.
  revert y. induction x as [|c x IH]; intros [|d y]; simpl; try reflexivity.
  destruct (byte_val c <? byte_val d) eqn:E1, (byte_val d <? byte_val c) eqn:E2;
    try reflexivity; [|apply IH].
  apply Z.ltb_lt in E1, E2. lia.
Qed.

Lemma Compare_lt_trans x y z : bytes_lt x y -> bytes_lt y z -> bytes_lt x z.
Proof.
  unfold bytes_lt. revert y z.
  induction x as [|c x IH]; intros [|d y] [|e z]; simpl; try discriminate; auto.
  destruct (byte_val c <? byte_val d) eqn:E1.
  - intros _. destruct (byte_val d <? byte_val e) eqn:E2.
    + intros _. apply Z.ltb_lt in E1, E2.
      assert (H : (byte_val c <? byte_val e) = true) by (apply Z.ltb_lt; lia).
      now rewrite H.
    + destruct (byte_val e <? byte_val d) eqn:E3; [discriminate|].
      apply Z.ltb_lt in E1. apply Z.ltb_ge in E2, E3. intros _.
      assert (H : (byte_val c <? byte_val e) = true) by (apply Z.ltb_lt; lia).
      now rewrite H.
  - destruct (byte_val d <? byte_val c) eqn:E1'; [discriminate|].
    apply Z.ltb_ge in E1, E1'. intros Hxy.
    destruct (byte_val d <? byte_val e) eqn:E2.
    + intros _. apply Z.ltb_lt in E2.
      assert (H : (byte_val c <? byte_val e) = true) by (apply Z.ltb_lt; lia).
      now rewrite H.
    + destruct (byte_val e <? byte_val d) eqn:E3; [discriminate|].
      apply Z.ltb_ge in E2, E3. intros Hyz.
      assert (H1 : (byte_val c <? byte_val e) = false) by (apply Z.ltb_ge; lia).
      assert (H2 : (byte_val e <? byte_val c) = false) by (apply Z.ltb_ge; lia).
      rewrite H1, H2. eauto.
Qed.

Lemma bytes_le_lt_or_eq x y : bytes_le x y <-> bytes_lt x y \/ x = y.
Proof.
  unfold bytes_le, bytes_lt. rewrite <- Compare_eq.
  destruct (Compare_range x y) as [H|[H|H]]; rewrite H; lia.
Qed.

Lemma bytes_le_refl x : bytes_le x x.
Proof. apply bytes_le_lt_or_eq. now right. Qed.

Lemma bytes_le_trans x y z : bytes_le x y -> bytes_le y z -> bytes_le x z.
Proof.
  rewrite !bytes_le_lt_or_eq. intros [Hxy| ->] [Hyz| ->]; auto.
  left. eapply Compare_lt_trans; eauto.
Qed.

Lemma bytes_lt_le_trans x y z : bytes_lt x y -> bytes_le y z -> bytes_lt x z.
Proof.
  rewrite bytes_le_lt_or_eq. intros Hxy [Hyz| ->]; auto.
  eapply Compare_lt_trans; eauto.
Qed.

Lemma bytes_le_lt_trans x y z : bytes_le x y -> bytes_lt y z -> bytes_lt x z.
Proof.
  rewrite bytes_le_lt_or_eq. intros [Hxy| ->] Hyz; auto.
  eapply Compare_lt_trans; eauto.
Qed.

Lemma bytes_le_antisym x y : bytes_le x y -> bytes_le y x -> x = y.
Proof.
  unfold bytes_le. rewrite (Compare_antisym x y). intros H1 H2.
  apply Compare_eq. destruct (Compare_range x y) as [H|[H|H]]; lia.
Qed.

Lemma bytes_lt_irrefl x : ~ bytes_lt x x.
Proof. unfold bytes_lt. rewrite Compare_refl. discriminate. Qed.

Lemma not_bytes_lt_le x y : Compare x y <> -1 <-> bytes_le y x.
Proof. unfold bytes_le. rewrite (Compare_antisym x y). lia. Qed.

Lemma bytes_lt_le x y : bytes_lt x y -> bytes_le x y.
Proof. unfold bytes_lt, bytes_le. lia. Qed.

Lemma Equal_eq x y : Equal x y = true <-> x = y.
Proof.
  revert y. induction x as [|c x IH]; intros [|d y]; simpl;
    try (split; [discriminate|discriminate]).
  - tauto.
  - rewrite andb_true_iff, Z.eqb_eq, IH. split.
    + intros [Hc ->]. now rewrite (byte_val_inj _ _ Hc).
    + now intros [= -> ->].
Qed.

Lemma Equal_false x y : Equal x y = false <-> x <> y.
Proof.
  rewrite <- Equal_eq. destruct (Equal x y); split; congruence.
Qed.
End compare_facts.

(** ** [sort.Search] *)

Section search_facts.
Context {S : Type} (n : nat) (f : nat -> S -> option (bool * S)).
Context (pred : nat -> bool) (upd : nat -> S -> S).
Hypothesis f_ok : forall h s, (h < n)%nat -> f h s = Some (pred h, upd h s).
Hypothesis pred_mono :
  forall a c, (a <= c)%nat -> (c < n)%nat -> pred a = true -> pred c = true.

Lemma Search_loop_step fuel i j s :
  (i < j)%nat ->
  Search_loop (Datatypes.S fuel) f i j s =
  match f ((i + j) / 2)%nat s with
  | None => None
  | Some (true, s') => Search_loop fuel f i ((i + j) / 2)%nat s'
  | Some (false, s') => Search_loop fuel f ((i + j) / 2 + 1)%nat j s'
  end.
Proof.
  intros Hlt. apply Nat.ltb_lt in Hlt.
  change (Search_loop (Datatypes.S fuel) f i j s) with
    (if (i <? j)%nat then
       match f ((i + j) / 2)%nat s with
       | None => None
       | Some (true, s') => Search_loop fuel f i ((i + j) / 2)%nat s'
       | Some (false, s') => Search_loop fuel f ((i + j) / 2 + 1)%nat j s'
       end
     else Some (i, s)).
  now rewrite Hlt.
Qed.

Lemma Search_loop_done fuel i j s :
  (j <= i)%nat -> Search_loop fuel f i j s = Some (i, s).
Proof.
  intros Hle. apply Nat.ltb_ge in Hle.
  destruct fuel; simpl; now rewrite Hle.
Qed.

(** With [j - i] rounds of fuel the loop returns, and it returns the
    least index at which the predicate holds. *)
Lemma Search_loop_fuel fuel :
  forall i j s,
    (i <= j)%nat -> (j <= n)%nat -> (j - i <= fuel)%nat ->
    (forall a, (a < i)%nat -> pred a = false) ->
    ((j < n)%nat -> pred j = true) ->
    exists r s',
      Search_loop fuel f i j s = Some (r, s') /\
      (i <= r <= j)%nat /\
      (forall a, (a < r)%nat -> pred a = false) /\
      ((r < n)%nat -> pred r = true).
Proof.
  induction fuel as [|fuel IH]; intros i j s Hij Hjn Hfuel Hlo Hhi.
  - assert (i = j) by lia. subst j. exists i, s.
    rewrite Search_loop_done by lia. repeat split; auto.
  - destruct (i <? j)%nat eqn:Elt.
    + apply Nat.ltb_lt in Elt. rewrite Search_loop_step by trivial.
      assert (Hh : (i <= (i + j) / 2 < j)%nat).
      { pose proof (Nat.div_mod_eq (i + j) 2) as Hd.
        pose proof (Nat.mod_upper_bound (i + j) 2). lia. }
      set (h := ((i + j) / 2)%nat) in *. clearbody h.
      rewrite f_ok by lia.
      destruct (pred h) eqn:Eh.
      * destruct (IH i h (upd h s)) as (r & s' & Hr & Hb & Hl & Hu); try lia; auto.
        exists r, s'. repeat split; auto; lia.
      * destruct (IH (h + 1)%nat j (upd h s)) as (r & s' & Hr & Hb & Hl & Hu); try lia; auto.
        { intros a Ha. destruct (pred a) eqn:Ea; [|reflexivity].
          rewrite (pred_mono a h) in Eh; [discriminate|lia|lia|exact Ea]. }
        exists r, s'. repeat split; auto; lia.
    + apply Nat.ltb_ge in Elt. assert (i = j) by lia. subst j.
      exists i, s. rewrite Search_loop_done by lia. repeat split; auto.
Qed.

Lemma Search_least s :
  exists r s',
    Search n f s = Some (r, s') /\ (r <= n)%nat /\
    (forall a, (a < r)%nat -> pred a = false) /\
    ((r < n)%nat -> pred r = true).
Proof.
  destruct (Search_loop_fuel n 0%nat n s) as (r & s' & Hr & Hb & Hl & Hu); try lia.
  exists r, s'. unfold Search. repeat split; auto; lia.
Qed.
End search_facts.

(** ** Sorted keys and the lower bound *)

Section sorted_facts.
Implicit Types (ks : list bytes) (k x y : bytes).

Lemma StronglySorted_lookup {A} (R : relation A) (l : list A) i j a c :
  StronglySorted R l -> (i < j)%nat ->
  l !! i = Some a -> l !! j = Some c -> R a c.
Proof.
  intros Hs. revert i j. induction Hs as [|z l Hs IH Hall]; intros i j Hij Hi Hj.
  - discriminate Hi.
  - destruct j as [|j]; [lia|]. simpl in Hj. destruct i as [|i].
    + simpl in Hi. inversion Hi; subst z.
      rewrite Forall_forall in Hall. apply Hall.
      eapply list_elem_of_lookup_2; eauto.
    + simpl in Hi. apply (IH i j); auto. lia.
Qed.

Lemma sorted_keys_lookup ks i j x y :
  sorted_keys ks -> (i <= j)%nat -> ks !! i = Some x -> ks !! j = Some y ->
  bytes_le x y.
Proof.
  intros Hs Hij Hi Hj. destruct (decide (i = j)) as [->|Hne].
  - assert (x = y) by congruence. subst y. apply bytes_le_refl.
  - apply (StronglySorted_lookup bytes_le ks i j x y Hs); [lia|exact Hi|exact Hj].
Qed.

Lemma strictly_sorted_sorted ks : strictly_sorted_keys ks -> sorted_keys ks.
Proof.
  unfold strictly_sorted_keys, sorted_keys. induction 1 as [|z l Hs IH Hall]; constructor; auto.
  eapply Forall_impl; [exact Hall|]. intros y. apply bytes_lt_le.
Qed.

Lemma lower_bound_le ks k : (lower_bound ks k <= length ks)%nat.
Proof.
  induction ks as [|x ks IH]; simpl; [lia|].
  destruct (Compare x k =? -1); simpl; lia.
Qed.

(** The lower bound is the one index with only smaller keys before it
    and no smaller key at it. *)
Lemma lower_bound_unique ks k :
  forall r,
    (r <= length ks)%nat ->
    (forall a x, (a < r)%nat -> ks !! a = Some x -> bytes_lt x k) ->
    (forall x, ks !! r = Some x -> ~ bytes_lt x k) ->
    lower_bound ks k = r.
Proof.
  induction ks as [|z ks IH]; intros r Hr Hlo Hhi; simpl in *.
  - lia.
  - destruct (Compare z k =? -1) eqn:E.
    + apply Z.eqb_eq in E. destruct r as [|r].
      * exfalso. apply (Hhi z); auto.
      * f_equal. apply IH; [lia| |].
        -- intros a x Ha Hx. apply (Hlo (Datatypes.S a) x); [lia|exact Hx].
        -- intros x Hx. apply Hhi. exact Hx.
    + apply Z.eqb_neq in E. destruct r as [|r]; [reflexivity|].
      exfalso. apply E. apply (Hlo 0%nat z); [lia|reflexivity].
Qed.

Lemma lower_bound_before ks k a x :
  (a < lower_bound ks k)%nat -> ks !! a = Some x -> bytes_lt x k.
Proof.
  revert a. induction ks as [|z ks IH]; intros a Ha Hx; simpl in *; [lia|].
  destruct (Compare z k =? -1) eqn:E; [|lia].
  destruct a as [|a]; simpl in Hx.
  - inversion Hx; subst z. now apply Z.eqb_eq in E.
  - apply (IH a); [lia|exact Hx].
Qed.

Lemma lower_bound_at ks k x :
  ks !! lower_bound ks k = Some x -> ~ bytes_lt x k.
Proof.
  induction ks as [|z ks IH]; simpl; [discriminate|].
  destruct (Compare z k =? -1) eqn:E; simpl.
  - exact IH.
  - intros [= ->]. now apply Z.eqb_neq in E.
Qed.

(** In a sorted list, everything from the lower bound on is [>= k]. *)
Lemma lower_bound_after ks k a x :
  sorted_keys ks -> (lower_bound ks k <= a)%nat -> ks !! a = Some x ->
  bytes_le k x.
Proof.
  intros Hs Ha Hx.
  destruct (lookup_lt_is_Some_2 ks (lower_bound ks k)) as [y Hy].
  { apply lookup_lt_Some in Hx. lia. }
  pose proof (lower_bound_at ks k y Hy) as Hyk.
  apply not_bytes_lt_le in Hyk.
  eapply bytes_le_trans; [exact Hyk|].
  eapply sorted_keys_lookup; eauto.
Qed.

(** A key of a sorted list sits at its lower bound. *)
Lemma lower_bound_present ks k :
  sorted_keys ks -> k ∈ ks -> ks !! lower_bound ks k = Some k.
Proof.
  intros Hs Hin. apply list_elem_of_lookup_1 in Hin. destruct Hin as [j Hj].
  assert (Hle : (lower_bound ks k <= j)%nat).
  { destruct (le_lt_dec (lower_bound ks k) j) as [|Hlt]; [trivial|].
    exfalso. apply (bytes_lt_irrefl k). eapply lower_bound_before; eauto. }
  destruct (lookup_lt_is_Some_2 ks (lower_bound ks k)) as [y Hy].
  { apply lookup_lt_Some in Hj. lia. }
  rewrite Hy. f_equal. apply bytes_le_antisym.
  - eapply sorted_keys_lookup; eauto.
  - apply not_bytes_lt_le. eapply lower_bound_at; eauto.
Qed.
End sorted_facts.

(** ** [put] *)

Section put_facts.
Implicit Types (l : list inode.t) (k : bytes) (n : node.t).

Lemma not_less_ok l k h u :
  (h < length l)%nat -> node.not_less l k h u = Some (ge_key l k h, u).
Proof.
  intros Hh. unfold node.not_less, ge_key.
  destruct (lookup_lt_is_Some_2 l h Hh) as [item ->]. reflexivity.
Qed.

Lemma ge_key_true l k h :
  ge_key l k h = true <->
  exists item, l !! h = Some item /\ ~ bytes_lt (inode.key item) k.
Proof.
  unfold ge_key, bytes_lt. destruct (l !! h) as [item|].
  - rewrite negb_true_iff, Z.eqb_neq. split; [eauto|]. now intros (? & [= <-] & ?).
  - split; [discriminate|]. now intros (? & ? & _).
Qed.

Lemma ge_key_mono l k a c :
  sorted_by_key l -> (a <= c)%nat -> (c < length l)%nat ->
  ge_key l k a = true -> ge_key l k c = true.
Proof.
  intros Hs Hac Hc Ha. apply ge_key_true in Ha. destruct Ha as (ia & Hia & Hge).
  destruct (lookup_lt_is_Some_2 l c Hc) as [ic Hic].
  apply ge_key_true. exists ic. split; [exact Hic|]. intros Hlt. apply Hge.
  eapply bytes_le_lt_trans; [|exact Hlt].
  eapply (sorted_keys_lookup (map inode.key l) a c); eauto.
  - rewrite list_lookup_fmap, Hia. reflexivity.
  - rewrite list_lookup_fmap, Hic. reflexivity.
Qed.

(** The search of [put] finds the lower bound of the key. *)
Lemma put_search l k :
  sorted_by_key l ->
  Search (length l) (node.not_less l k) tt
  = Some (lower_bound (map inode.key l) k, tt).
Proof.
  intros Hs.
  destruct (Search_least (length l) (node.not_less l k) (ge_key l k) (fun _ u => u))
    with (s := tt) as (r & [] & Hr & Hrn & Hlo & Hhi).
  - intros h s Hh. now apply not_less_ok.
  - intros a c Hac Hc. now apply ge_key_mono.
  - rewrite Hr. f_equal. f_equal. symmetry. apply lower_bound_unique.
    + now rewrite length_map.
    + intros a x Ha Hx. rewrite list_lookup_fmap in Hx.
      destruct (l !! a) as [item|] eqn:Ea; [|discriminate]. simpl in Hx.
      inversion Hx; subst x. specialize (Hlo a Ha). unfold ge_key in Hlo.
      rewrite Ea in Hlo. apply negb_false_iff in Hlo. now apply Z.eqb_eq in Hlo.
    + intros x Hx. rewrite list_lookup_fmap in Hx.
      destruct (l !! r) as [item|] eqn:Er; [|discriminate]. simpl in Hx.
      inversion Hx; subst x.
      assert (Hrl : (r < length l)%nat) by (eapply lookup_lt_Some; eauto).
      specialize (Hhi Hrl). apply ge_key_true in Hhi.
      destruct Hhi as (item' & Hitem' & Hge). congruence.
Qed.

(** [append] then [copy] then the store at [index]: an insertion. *)
Lemma copy_within_shift {A} (l : list A) (z : A) idx :
  (idx <= length l)%nat ->
  copy_within (l ++ [z]) (idx + 1) idx = take (idx + 1) (l ++ [z]) ++ drop idx l.
Proof.
  intros Hidx. unfold copy_within.
  rewrite length_drop, length_app. simpl length.
  replace (Nat.min (length l + 1 - (idx + 1)) (length l + 1 - idx)) with (length l - idx)%nat by lia.
  f_equal.
  rewrite drop_app_le by lia.
  rewrite take_app_le by (rewrite length_drop; lia).
  rewrite take_ge by (rewrite length_drop; lia).
  rewrite (drop_ge (l ++ [z])) by (rewrite length_app; simpl; lia).
  now rewrite app_nil_r.
Qed.

Lemma insert_copy_within {A} (l : list A) (z x : A) idx :
  (idx <= length l)%nat ->
    <[idx := x]> (copy_within (l ++ [z]) (idx + 1) idx)
    = take idx l ++ x :: drop idx l.
Proof.
  intros Hidx. rewrite copy_within_shift by trivial.
  replace (idx + 1)%nat with (Datatypes.S idx) by lia.
  assert (Hlt : (idx < length (l ++ [z]))%nat) by (rewrite length_app; simpl; lia).
  destruct (lookup_lt_is_Some_2 _ _ Hlt) as [y Hy].
  rewrite (take_S_r _ _ _ Hy). rewrite take_app_le by lia.
  rewrite <- app_assoc. simpl.
  rewrite insert_app_r_alt by (rewrite length_take; lia).
  rewrite length_take. replace (idx - idx `min` length l)%nat with 0%nat by lia.
  reflexivity.
Qed.

Lemma has_key_elem k l : has_key k l <-> k ∈ map inode.key l.
Proof.
  unfold has_key. split.
  - intros (item & Hin & <-). now apply (list_elem_of_fmap_2 inode.key).
  - intros Hin. apply (list_elem_of_fmap_1 inode.key) in Hin.
    destruct Hin as (item & -> & Hin). eauto.
Qed.

Lemma has_key_dec k l : has_key k l \/ ~ has_key k l.
Proof.
  induction l as [|item l IH].
  - right. intros (x & Hx & _). inversion Hx.
  - destruct (Equal (inode.key item) k) eqn:E.
    + left. exists item. split; [left|now apply Equal_eq].
    + apply Equal_false in E. destruct IH as [(x & Hx & Hk)|Hno].
      * left. exists x. split; [now right|exact Hk].
      * right. intros (x & Hx & Hk). apply elem_of_cons in Hx.
        destruct Hx as [->|Hx]; [contradiction|]. apply Hno. exists x. auto.
Qed.

Lemma put_spec n k newKey v pg fl :
  sorted_by_key (node.inodes n) ->
  let l := node.inodes n in
  let idx := lower_bound (map inode.key l) k in
  let new := inode.mk fl pg newKey v in
  (has_key k l ->
     (exists old, l !! idx = Some old /\ inode.key old = k) /\
     node.put k newKey v pg fl n = Some (node.with_inodes (<[idx := new]> l) n)) /\
  (~ has_key k l ->
     node.put k newKey v pg fl n
     = Some (node.with_inodes (take idx l ++ new :: drop idx l) n)).
Proof.
  intros Hs l idx new. subst new.
  unfold node.put. fold l. rewrite (put_search l k Hs). fold idx.
  assert (Hidx : (idx <= length l)%nat).
  { unfold idx. rewrite <- (length_map inode.key l). apply lower_bound_le. }
  split.
  - intros Hk.
    assert (Hat : map inode.key l !! idx = Some k).
    { apply lower_bound_present; [exact Hs|]. now apply has_key_elem. }
    rewrite list_lookup_fmap in Hat.
    destruct (l !! idx) as [old|] eqn:Eold; [|discriminate].
    simpl in Hat. inversion Hat as [Hold].
    split; [eauto|].
    assert (Hlt : (idx < length l)%nat) by (eapply lookup_lt_Some; eauto).
    assert (H0 : (0 <? length l)%nat = true) by (apply Nat.ltb_lt; lia).
    assert (H1 : (idx <? length l)%nat = true) by (apply Nat.ltb_lt; lia).
    rewrite H0, H1. simpl andb.
    assert (He : Equal (inode.key old) k = true) by (now apply Equal_eq).
    rewrite Hold in He |- *. rewrite He. rewrite Eold. reflexivity.
  - intros Hk.
    assert (Hex : (0 <? length l)%nat && (idx <? length l)%nat &&
                  match l !! idx with
                  | Some item => Equal (inode.key item) k
                  | None => false
                  end = false).
    { destruct (l !! idx) as [item|] eqn:Eitem.
      - assert (He : Equal (inode.key item) k = false).
        { apply Equal_false. intros Heq. apply Hk. exists item.
          split; [eapply list_elem_of_lookup_2; eauto|exact Heq]. }
        rewrite He. now rewrite andb_false_r.
      - now rewrite andb_false_r. }
    rewrite Hex.
    pose proof (insert_copy_within l inode.zero (inode.mk fl pg newKey v) idx Hidx) as Hcw.
    destruct (copy_within (l ++ [inode.zero]) (idx + 1) idx !! idx) as [item|] eqn:Ecw.
    + now rewrite Hcw.
    + exfalso. apply lookup_ge_None in Ecw.
      apply (f_equal length) in Hcw.
      rewrite length_insert, length_app in Hcw. simpl in Hcw.
      rewrite length_take, length_drop in Hcw. lia.
Qed.

Lemma sorted_overwrite l k idx old new :
  sorted_by_key l -> l !! idx = Some old -> inode.key old = k -> inode.key new = k ->
  sorted_by_key (<[idx := new]> l).
Proof.
  unfold sorted_by_key. intros Hs Hold Hk Hnew.
  replace (map inode.key (<[idx := new]> l)) with (map inode.key l); [exact Hs|].
  change (inode.key <$> l = inode.key <$> <[idx := new]> l).
  rewrite list_fmap_insert. symmetry. apply list_insert_id.
  rewrite list_lookup_fmap, Hold. simpl. congruence.
Qed.

Lemma sorted_insert l k new :
  sorted_by_key l -> inode.key new = k ->
  sorted_by_key (take (lower_bound (map inode.key l) k) l
                 ++ new :: drop (lower_bound (map inode.key l) k) l).
Proof.
  unfold sorted_by_key, sorted_keys. intros Hs Hnew.
  set (idx := lower_bound (map inode.key l) k).
  rewrite map_app. simpl. rewrite Hnew.
  change (map inode.key (take idx l)) with (inode.key <$> take idx l).
  change (map inode.key (drop idx l)) with (inode.key <$> drop idx l).
  rewrite fmap_take, fmap_drop.
  change (inode.key <$> l) with (map inode.key l).
  set (ks := map inode.key l) in *.
  assert (Hks : StronglySorted bytes_le (take idx ks ++ drop idx ks))
    by (now rewrite take_drop).
  apply StronglySorted_app in Hks. destruct Hks as (Hcross & Htake & Hdrop).
  assert (Hafter : forall y, y ∈ drop idx ks -> bytes_le k y).
  { intros y Hy. apply list_elem_of_lookup_1 in Hy. destruct Hy as [a Ha].
    rewrite lookup_drop in Ha.
    eapply (lower_bound_after ks k); [exact Hs| |exact Ha]. fold idx. lia. }
  assert (Hbefore : forall x, x ∈ take idx ks -> bytes_lt x k).
  { intros x Hx. apply elem_of_take in Hx. destruct Hx as (a & Ha & Hlt).
    eapply lower_bound_before; eauto. }
  apply StronglySorted_app. split; [|split; [exact Htake|]].
  - intros x y Hx Hy. apply elem_of_cons in Hy. destruct Hy as [->|Hy].
    + apply bytes_lt_le. auto.
    + auto.
  - apply StronglySorted_cons. split; [|exact Hdrop].
    apply Forall_forall. exact Hafter.
Qed.
End put_facts.

(** C4.  On a node sorted by key, [put(k, k, v, pgid, flags)] returns;
    when [k] is present its slot (at the sorted position of [k]) is
    overwritten in place and the count is unchanged; when it is absent
    the new inode is inserted at the sorted position of [k] and the count
    grows by one; the node stays sorted and nothing else in it changes.
    Further, the four puts of [TestNodePut] (baz, foo->0, bar, foo->3)
    leave exactly bar, baz, foo with foo->3, and so do foo->0 then foo->3
    put into any node that holds bar and baz. *)
Theorem put_sorted :
  (forall (n : node.t) (k v : bytes) (pgid flags : Z),
     sorted_by_key (node.inodes n) ->
     let l := node.inodes n in
     let idx := lower_bound (map inode.key l) k in
     let new := inode.mk flags pgid k v in
     exists l',
       node.put k k v pgid flags n = Some (node.with_inodes l' n) /\
       sorted_by_key l' /\
       (has_key k l ->
          (exists old, l !! idx = Some old /\ inode.key old = k) /\
          l' = <[idx := new]> l /\ length l' = length l) /\
       (~ has_key k l ->
          l' = take idx l ++ new :: drop idx l /\
          length l' = Datatypes.S (length l))) /\
  TestNodePut
  = Some (node.with_inodes
            [ inode.mk 0 0 (bs "bar") (bs "1"); inode.mk 0 0 (bs "baz") (bs "2");
              inode.mk 0 0 (bs "foo") (bs "3") ] empty_node) /\
  (forall (n : node.t) (v1 v2 : bytes) (f1 f2 p1 p2 : Z),
     node.inodes n = [inode.mk f1 p1 (bs "bar") v1; inode.mk f2 p2 (bs "baz") v2] ->
     (node.put (bs "foo") (bs "foo") (bs "0") 0 0 n
        ≫= node.put (bs "foo") (bs "foo") (bs "3") 0 0)
     = Some (node.with_inodes
               [ inode.mk f1 p1 (bs "bar") v1; inode.mk f2 p2 (bs "baz") v2;
                 inode.mk 0 0 (bs "foo") (bs "3") ] n)).
Proof.
  split; [|split].
  - intros n k v pgid flags Hs l idx new.
    destruct (put_spec n k k v pgid flags Hs) as [Hpresent Habsent].
    fold l idx new in Hpresent, Habsent.
    destruct (has_key_dec k l) as [Hk|Hk].
    + destruct (Hpresent Hk) as [(old & Hold & Hkey) Hput].
      exists (<[idx := new]> l). split; [exact Hput|]. split.
      { eapply sorted_overwrite; eauto. }
      split.
      * intros _. split; [eauto|]. split; [reflexivity|apply length_insert].
      * intros Hno. contradiction.
    + exists (take idx l ++ new :: drop idx l). split; [exact (Habsent Hk)|]. split.
      { now apply sorted_insert. }
      split.
      * intros Hyes. contradiction.
      * intros _. split; [reflexivity|].
        rewrite length_app. simpl. rewrite length_take, length_drop.
        assert ((idx <= length l)%nat).
        { unfold idx. rewrite <- (length_map inode.key l). apply lower_bound_le. }
        lia.
  - vm_compute. reflexivity.
  - intros n v1 v2 f1 f2 p1 p2 Hn. destruct n as [bk lf ub ky pg par ch ino].
    simpl in Hn. subst ino. vm_compute. reflexivity.
Qed.

Lemma put_sorted_witness :
  sorted_by_key (node.inodes bar_baz_node) /\
  exists l',
    node.put (bs "foo") (bs "foo") (bs "3") 0 0 bar_baz_node
      = Some (node.with_inodes l' bar_baz_node) /\
    sorted_by_key l'.
Proof.
  assert (Hs : sorted_by_key (node.inodes bar_baz_node)).
  { unfold sorted_by_key, sorted_keys. simpl. repeat constructor; discriminate. }
  split; [exact Hs|].
  destruct (proj1 put_sorted bar_baz_node (bs "foo") (bs "3") 0 0 Hs)
    as (l' & Hput & Hsorted & _).
  exists l'. split; [exact Hput|exact Hsorted].
Defined.

(** ** Machine integers *)

Lemma int_wrap_small z : - 2 ^ 63 <= z < 2 ^ 63 -> int_wrap z = z.
Proof. intros Hz. unfold int_wrap. rewrite Z.mod_small by lia. lia. Qed.

Lemma uint64_small z : 0 <= z < 2 ^ 64 -> uint64 z = z.
Proof. intros Hz. unfold uint64. now apply Z.mod_small. Qed.

(** ** [DB.mmapSize] *)

(** C5, as stated, fails: a size below [minMmapSize] is answered with
    [minMmapSize] itself, before the rounding, so with a page size of 3
    the result 4194304 is not a multiple of the page size. *)
Lemma mmapSize_stated_counterexample :
  ~ (forall (db : DB.t) (size : Z),
       0 < DB.pageSize db ->
       exists r, DB.mmapSize db size = Some r /\
                 DB.minMmapSize <= r /\ Z.rem r (DB.pageSize db) = 0).
Proof.
  intros H.
  destruct (H (DB.mk 3 (meta_of 0 0) (meta_of 1 0)) 0) as (r & Hr & _ & Hrem).
  - simpl. lia.
  - vm_compute in Hr. inversion Hr; subst r. vm_compute in Hrem. discriminate Hrem.
Qed.

(** C5, amended.  For a positive page size and a size for which
    [size + maxMmapStep + pageSize] stays below 2^63: the result is at
    least [minMmapSize]; a size below [minMmapSize] gives exactly
    [minMmapSize], not rounded; any other size is doubled when it is
    below [maxMmapStep] and grown by [maxMmapStep] otherwise, and then
    rounded up to the next multiple of the page size; so the result is a
    multiple of the page size whenever the page size divides
    [minMmapSize]. *)
Theorem mmapSize_amended (db : DB.t) (size : Z) :
  0 < DB.pageSize db ->
  size + DB.maxMmapStep + DB.pageSize db < 2 ^ 63 ->
  exists r,
    DB.mmapSize db size = Some r /\
    DB.minMmapSize <= r /\
    (size < DB.minMmapSize -> r = DB.minMmapSize) /\
    (DB.minMmapSize <= size ->
       let grown := if size <? DB.maxMmapStep then size * 2 else size + DB.maxMmapStep in
       grown <= r < grown + DB.pageSize db /\ r mod DB.pageSize db = 0) /\
    ((DB.pageSize db | DB.minMmapSize) -> (DB.pageSize db | r)).
Proof.
  intros Hp Hrange. unfold DB.mmapSize.
  assert (Hmin : DB.minMmapSize = 4194304) by reflexivity.
  assert (Hmax : DB.maxMmapStep = 1073741824) by reflexivity.
  destruct (size <? DB.minMmapSize) eqn:E1.
  - apply Z.ltb_lt in E1. exists DB.minMmapSize.
    split; [reflexivity|]. split; [lia|]. split; [reflexivity|].
    split; [intros; lia|]. intros Hd; exact Hd.
  - apply Z.ltb_ge in E1.
    set (grown := if size <? DB.maxMmapStep then size * 2 else size + DB.maxMmapStep).
    assert (Hg : DB.minMmapSize <= grown /\ grown + DB.pageSize db <= 2 ^ 63).
    { unfold grown. destruct (size <? DB.maxMmapStep) eqn:E2.
      - apply Z.ltb_lt in E2. lia.
      - apply Z.ltb_ge in E2. lia. }
    assert (Hw : (if size <? DB.maxMmapStep then int_wrap (size * 2)
                  else int_wrap (size + DB.maxMmapStep)) = grown).
    { unfold grown. destruct (size <? DB.maxMmapStep); apply int_wrap_small; lia. }
    rewrite Hw. clearbody grown.
    assert (Hp0 : (DB.pageSize db =? 0) = false) by (apply Z.eqb_neq; lia).
    rewrite Hp0.
    rewrite Z.rem_mod_nonneg by lia. rewrite Z.quot_div_nonneg by lia.
    pose proof (Z.div_mod grown (DB.pageSize db) ltac:(lia)) as Hdm.
    pose proof (Z.mod_pos_bound grown (DB.pageSize db) Hp) as Hmb.
    assert (Hq : 0 <= grown / DB.pageSize db) by (apply Z.div_pos; lia).
    destruct (grown mod DB.pageSize db =? 0) eqn:E3; simpl negb; cbv iota.
    + apply Z.eqb_eq in E3. exists grown.
      split; [reflexivity|]. split; [lia|]. split; [lia|]. split.
      * intros _. split; [lia|exact E3].
      * intros _. apply Z.mod_divide; [lia|exact E3].
    + apply Z.eqb_neq in E3.
      set (q := grown / DB.pageSize db) in *.
      assert (Hr : q * DB.pageSize db < grown) by lia.
      assert (Hr2 : (q + 1) * DB.pageSize db < grown + DB.pageSize db) by lia.
      assert (Hr3 : grown < (q + 1) * DB.pageSize db) by lia.
      assert (Hq2 : q <= grown) by nia.
      rewrite (int_wrap_small q) by lia.
      rewrite (int_wrap_small (q + 1)) by lia.
      rewrite (int_wrap_small ((q + 1) * DB.pageSize db)) by lia.
      exists ((q + 1) * DB.pageSize db).
      split; [reflexivity|]. split; [lia|]. split; [lia|]. split.
      * intros _. split; [lia|]. apply Z.mod_mul. lia.
      * intros _. apply Z.divide_factor_r.
Qed.

Lemma mmapSize_amended_witness :
  exists r,
    DB.mmapSize (DB.mk 4096 (meta_of 0 0) (meta_of 1 0)) 5000000 = Some r /\
    DB.minMmapSize <= r /\
    (5000000 < DB.minMmapSize -> r = DB.minMmapSize) /\
    (DB.minMmapSize <= 5000000 ->
       let grown := if 5000000 <? DB.maxMmapStep then 5000000 * 2
                    else 5000000 + DB.maxMmapStep in
       grown <= r < grown + 4096 /\ r mod 4096 = 0) /\
    ((4096 | DB.minMmapSize) -> (4096 | r)).
Proof.
  apply (mmapSize_amended (DB.mk 4096 (meta_of 0 0) (meta_of 1 0)) 5000000).
  - simpl. lia.
  - vm_compute. reflexivity.
Defined.

Example mmapSize_values :
  let db := DB.mk 4096 (meta_of 0 0) (meta_of 1 0) in
  DB.mmapSize db 0 = Some 4194304 /\
  DB.mmapSize db 5000001 = Some 10002432 /\
  DB.mmapSize db 1073741824 = Some 2147483648.
Proof. vm_compute. repeat split; reflexivity. Qed.

(** ** [Bucket.Put] *)

(** C6.  In an open transaction [Put] returns an error exactly when the
    transaction is read-only, the key is empty, the key is longer than
    [MaxKeySize] or the value is longer than [MaxValueSize]; the error is
    the one of the first of these that applies, and the bucket, with its
    transaction and tree, is then unchanged. *)
Theorem Put_errors (tree : Type) (write_path : bytes -> bytes -> tree -> option tree)
    (MaxKeySize MaxValueSize : Z) (key value : bytes) (b : Bucket.t tree) :
  Bucket.db_open tree (Bucket.tx tree b) = true ->
  let r := Bucket.Put tree write_path MaxKeySize MaxValueSize key value b in
  ((exists e b', r = Some (Some e, b')) <->
   (Bucket.Writable tree b = false \/ blen key = 0 \/ blen key > MaxKeySize
    \/ blen value > MaxValueSize)) /\
  (forall e b', r = Some (Some e, b') ->
     b' = b /\
     match e with
     | ErrBucketNotWritable => Bucket.Writable tree b = false
     | ErrKeyRequired => Bucket.Writable tree b = true /\ blen key = 0
     | ErrKeyTooLarge =>
         Bucket.Writable tree b = true /\ blen key <> 0 /\ blen key > MaxKeySize
     | ErrValueTooLarge =>
         Bucket.Writable tree b = true /\ blen key <> 0 /\ blen key <= MaxKeySize
         /\ blen value > MaxValueSize
     | _ => False
     end).
Proof.
  intros Hopen r. subst r. unfold Bucket.Put. rewrite Hopen. simpl negb. cbv iota.
  destruct (Bucket.Writable tree b) eqn:Ew; simpl negb; cbv iota.
  2:{ split.
      - split; [auto|]. intros _. eauto.
      - intros e b' [= <- <-]. auto. }
  destruct (blen key =? 0) eqn:E0.
  { apply Z.eqb_eq in E0. split.
    - split; [auto|]. intros _. eauto.
    - intros e b' [= <- <-]. auto. }
  apply Z.eqb_neq in E0.
  destruct (blen key >? MaxKeySize) eqn:E1.
  { apply Z.gtb_lt in E1. split.
    - split; [intros _; right; right; left; lia|]. intros _. eauto.
    - intros e b' [= <- <-]. repeat split; auto; lia. }
  assert (Hk : blen key <= MaxKeySize).
  { destruct (Z.gtb_spec (blen key) MaxKeySize); [discriminate|lia]. }
  destruct (blen value >? MaxValueSize) eqn:E2.
  { apply Z.gtb_lt in E2. split.
    - split; [intros _; right; right; right; lia|]. intros _. eauto.
    - intros e b' [= <- <-]. repeat split; auto; lia. }
  assert (Hv : blen value <= MaxValueSize).
  { destruct (Z.gtb_spec (blen value) MaxValueSize); [discriminate|lia]. }
  destruct (write_path key value _) as [d|]; split.
  - split.
    + intros (e & b' & [=]).
    + intros [H|[H|[H|H]]]; try discriminate H; lia.
  - intros e b' [=].
  - split.
    + intros (e & b' & [=]).
    + intros [H|[H|[H|H]]]; try discriminate H; lia.
  - intros e b' [=].
Qed.

Lemma Put_errors_witness :
  let r := Bucket.Put unit (fun _ _ t => Some t) 32768 2147483647 [] (bs "1")
             (writable_bucket 0) in
  ((exists e b', r = Some (Some e, b')) <->
   (Bucket.Writable unit (writable_bucket 0) = false \/ blen [] = 0 \/ blen [] > 32768
    \/ blen (bs "1") > 2147483647)) /\
  (forall e b', r = Some (Some e, b') ->
     b' = writable_bucket 0 /\
     match e with
     | ErrBucketNotWritable => Bucket.Writable unit (writable_bucket 0) = false
     | ErrKeyRequired => Bucket.Writable unit (writable_bucket 0) = true /\ blen [] = 0
     | ErrKeyTooLarge =>
         Bucket.Writable unit (writable_bucket 0) = true /\ blen [] <> 0 /\ blen [] > 32768
     | ErrValueTooLarge =>
         Bucket.Writable unit (writable_bucket 0) = true /\ blen [] <> 0 /\ blen [] <= 32768
         /\ blen (bs "1") > 2147483647
     | _ => False
     end).
Proof.
  apply (Put_errors unit (fun _ _ t => Some t) 32768 2147483647 [] (bs "1")
           (writable_bucket 0)).
  reflexivity.
Defined.

Example Put_read_only :
  Bucket.Put unit (fun _ _ t => Some t) 32768 2147483647 (bs "a") (bs "1") readonly_bucket
  = Some (Some ErrBucketNotWritable, readonly_bucket).
Proof. reflexivity. Qed.

Example Put_writable :
  Bucket.Put unit (fun _ _ t => Some t) 32768 2147483647 (bs "a") (bs "1")
    (writable_bucket 0)
  = Some (None, Bucket.mk unit 3 0 "widgets" (Bucket.mkTx unit true true 1 tt)).
Proof. reflexivity. Qed.

(** ** [Bucket.NextSequence] *)

(** C7, as stated, fails: with [maxInt] the largest [int] of a 64-bit
    platform, a stored sequence of 2^63 - 1 is answered with
    [ErrSequenceOverflow] although it is not 2^64 - 1. *)
Lemma NextSequence_stated_counterexample :
  ~ (forall b : Bucket.t unit,
       Bucket.db_open unit (Bucket.tx unit b) = true ->
       Bucket.Writable unit b = true ->
       0 <= Bucket.sequence unit b < 2 ^ 64 ->
       let '(r, e, b') := Bucket.NextSequence unit maxInt64 b in
       (e = Some ErrSequenceOverflow <-> Bucket.sequence unit b = 2 ^ 64 - 1)).
Proof.
  intros H. specialize (H (writable_bucket (2 ^ 63 - 1)) eq_refl eq_refl).
  assert (Hr : 0 <= Bucket.sequence unit (writable_bucket (2 ^ 63 - 1)) < 2 ^ 64)
    by (simpl; lia).
  specialize (H Hr). vm_compute in H. destruct H as [H _].
  specialize (H eq_refl). discriminate H.
Qed.

(** C7, amended.  In an open writable transaction [NextSequence] returns
    [ErrSequenceOverflow] exactly when the stored sequence equals
    [uint64(maxInt)] (2^63 - 1 where [int] has 64 bits), and then leaves
    the bucket unchanged; otherwise it stores the sequence plus one
    (modulo 2^64) and returns that value converted to [int], which is the
    sequence plus one as long as the sequence is below 2^63 - 1. *)
Theorem NextSequence_amended (tree : Type) (maxInt : Z) (b : Bucket.t tree) :
  Bucket.db_open tree (Bucket.tx tree b) = true ->
  Bucket.Writable tree b = true ->
  0 <= Bucket.sequence tree b < 2 ^ 64 ->
  let '(r, e, b') := Bucket.NextSequence tree maxInt b in
  (e = Some ErrSequenceOverflow <-> Bucket.sequence tree b = uint64 maxInt) /\
  (e = Some ErrSequenceOverflow -> r = 0 /\ b' = b) /\
  (e <> Some ErrSequenceOverflow ->
     e = None /\
     b' = Bucket.with_sequence tree (uint64 (Bucket.sequence tree b + 1)) b /\
     r = int_wrap (uint64 (Bucket.sequence tree b + 1)) /\
     (Bucket.sequence tree b < 2 ^ 63 - 1 ->
        Bucket.sequence tree b' = Bucket.sequence tree b + 1 /\
        r = Bucket.sequence tree b + 1)).
Proof.
  intros Hopen Hw Hs. unfold Bucket.NextSequence. rewrite Hopen, Hw. simpl negb. cbv iota.
  destruct (Bucket.sequence tree b =? uint64 maxInt) eqn:E.
  - apply Z.eqb_eq in E. repeat split; auto; congruence.
  - apply Z.eqb_neq in E. split; [|split].
    + split; [discriminate|contradiction].
    + discriminate.
    + intros _. repeat split.
      * simpl. apply uint64_small. lia.
      * rewrite uint64_small by lia. apply int_wrap_small. lia.
Qed.

Lemma NextSequence_amended_witness :
  let '(r, e, b') := Bucket.NextSequence unit maxInt64 (writable_bucket 41) in
  (e = Some ErrSequenceOverflow <-> Bucket.sequence unit (writable_bucket 41) = uint64 maxInt64) /\
  (e = Some ErrSequenceOverflow -> r = 0 /\ b' = writable_bucket 41) /\
  (e <> Some ErrSequenceOverflow ->
     e = None /\
     b' = Bucket.with_sequence unit (uint64 (Bucket.sequence unit (writable_bucket 41) + 1))
            (writable_bucket 41) /\
     r = int_wrap (uint64 (Bucket.sequence unit (writable_bucket 41) + 1)) /\
     (Bucket.sequence unit (writable_bucket 41) < 2 ^ 63 - 1 ->
        Bucket.sequence unit b' = Bucket.sequence unit (writable_bucket 41) + 1 /\
        r = Bucket.sequence unit (writable_bucket 41) + 1)).
Proof.
  apply (NextSequence_amended unit maxInt64 (writable_bucket 41)).
  - reflexivity.
  - reflexivity.
  - simpl. lia.
Defined.

(** ** [DB.meta] *)

(** C8, as stated, fails: whatever the checksum test, [DB.meta] looks at
    the two txids only.  With a test that accepts checksum 0 only, a
    meta0 of txid 5 and checksum 1 and a meta1 of txid 3 and checksum 0,
    the meta that checksums correctly is meta1 and [DB.meta] returns
    meta0. *)
Lemma meta_stated_counterexample :
  ~ (forall (sum_ok : meta.t -> bool) (db : DB.t),
       spec_current_meta sum_ok (DB.meta0 db) (DB.meta1 db) = Some (DB.meta db)).
Proof.
  intros H.
  specialize (H (fun m => meta.checksum m =? 0)
                (DB.mk 4096 (meta_of 5 1) (meta_of 3 0))).
  vm_compute in H. discriminate H.
Qed.

(** C8, amended.  [DB.meta] returns meta0 when its txid is the greater
    one and meta1 otherwise, also on a tie; so it returns one of the two
    metas, one of greatest txid, and the choice does not depend on the
    checksums (nor on any field but txid): no checksum is validated. *)
Theorem meta_amended (db : DB.t) :
  (meta.txid (DB.meta1 db) < meta.txid (DB.meta0 db) -> DB.meta db = DB.meta0 db) /\
  (meta.txid (DB.meta0 db) <= meta.txid (DB.meta1 db) -> DB.meta db = DB.meta1 db) /\
  meta.txid (DB.meta db) = Z.max (meta.txid (DB.meta0 db)) (meta.txid (DB.meta1 db)) /\
  (forall c0 c1,
     DB.meta (DB.mk (DB.pageSize db) (meta.with_checksum c0 (DB.meta0 db))
                (meta.with_checksum c1 (DB.meta1 db)))
     = meta.with_checksum
         (if meta.txid (DB.meta0 db) >? meta.txid (DB.meta1 db) then c0 else c1)
         (DB.meta db)).
Proof.
  unfold DB.meta.
  destruct (Z.gtb_spec (meta.txid (DB.meta0 db)) (meta.txid (DB.meta1 db))) as [Hgt|Hle].
  - repeat split; try lia.
    intros c0 c1. simpl.
    destruct (Z.gtb_spec (meta.txid (DB.meta0 db)) (meta.txid (DB.meta1 db))); [reflexivity|lia].
  - repeat split; try lia.
    intros c0 c1. simpl.
    destruct (Z.gtb_spec (meta.txid (DB.meta0 db)) (meta.txid (DB.meta1 db))); [lia|reflexivity].
Qed.

(** ** Memory *)

Section memory_facts.
Implicit Types (m d s : bytes) (off len a : nat).

Lemma store_Some m off d :
  (off + length d <= length m)%nat ->
  store m off d = Some (take off m ++ d ++ drop (off + length d) m).
Proof. intros H. unfold store. apply Nat.leb_le in H. now rewrite H. Qed.

Lemma store_inv m off d m' :
  store m off d = Some m' ->
  (off + length d <= length m)%nat /\
  m' = take off m ++ d ++ drop (off + length d) m.
Proof.
  unfold store. destruct (off + length d <=? length m)%nat eqn:E; [|discriminate].
  apply Nat.leb_le in E. now intros [= <-].
Qed.

Lemma store_length m off d m' : store m off d = Some m' -> length m' = length m.
Proof.
  intros H. apply store_inv in H. destruct H as [Hle ->].
  rewrite !length_app, length_take, length_drop. lia.
Qed.

Lemma lookup_store m off d m' a :
  store m off d = Some m' ->
  m' !! a = if decide (off <= a < off + length d)%nat then d !! (a - off)%nat else m !! a.
Proof.
  intros H. apply store_inv in H. destruct H as [Hle ->].
  assert (Ht : length (take off m) = off) by (rewrite length_take; lia).
  case_decide as Hin.
  - rewrite lookup_app_r by lia. rewrite Ht. rewrite lookup_app_l by lia. reflexivity.
  - destruct (decide (a < off)%nat) as [Hlt|Hge].
    + rewrite lookup_app_l by lia. now apply lookup_take_lt.
    + rewrite lookup_app_r by lia. rewrite Ht. rewrite lookup_app_r by lia.
      rewrite lookup_drop. f_equal. lia.
Qed.

Lemma load_Some m off len :
  (off + len <= length m)%nat -> load m off len = Some (take len (drop off m)).
Proof. intros H. unfold load. apply Nat.leb_le in H. now rewrite H. Qed.

(** A load sees only the bytes of its range. *)
Lemma load_ext m m' off len :
  length m' = length m ->
  (forall a, (off <= a < off + len)%nat -> m' !! a = m !! a) ->
  load m' off len = load m off len.
Proof.
  intros Hlen Hsame. unfold load. rewrite Hlen.
  destruct (off + len <=? length m)%nat; [|reflexivity].
  f_equal. apply list_eq. intros i.
  rewrite !lookup_take, !lookup_drop.
  case_decide; [apply Hsame; lia|reflexivity].
Qed.

Lemma load_store_same m off d m' :
  store m off d = Some m' -> load m' off (length d) = Some d.
Proof.
  intros H. pose proof (store_length _ _ _ _ H) as Hlen.
  pose proof (store_inv _ _ _ _ H) as [Hle _].
  rewrite load_Some by lia. f_equal. apply list_eq. intros i.
  rewrite lookup_take, lookup_drop. case_decide as Hi.
  - rewrite (lookup_store _ _ _ _ _ H). case_decide; [f_equal; lia|lia].
  - symmetry. apply lookup_ge_None. lia.
Qed.

Lemma load_store_other m off d m' off' len :
  store m off d = Some m' ->
  (off' + len <= off \/ off + length d <= off')%nat ->
  load m' off' len = load m off' len.
Proof.
  intros H Hdis. apply load_ext; [eapply store_length; eauto|].
  intros a Ha. rewrite (lookup_store _ _ _ _ _ H). case_decide; [lia|reflexivity].
Qed.
End memory_facts.

(** ** Little-endian fields *)

Section le_facts.
Lemma byte_val_of_Z z : byte_val (byte_of_Z z) = z mod 256.
Proof.
  unfold byte_val, byte_of_Z.
  pose proof (Z.mod_pos_bound z 256 ltac:(lia)) as Hb.
  rewrite N_ascii_embedding.
  - rewrite Z2N.id; lia.
  - change 256%N with (Z.to_N 256). apply Z2N.inj_lt; lia.
Qed.

Lemma length_le_bytes n z : length (le_bytes n z) = n.
Proof. revert z. induction n as [|n IH]; intros z; simpl; [reflexivity|]. now rewrite IH. Qed.

Lemma le_value_bytes n z : le_value (le_bytes n z) = z mod 256 ^ Z.of_nat n.
Proof.
  revert z. induction n as [|n IH]; intros z.
  - simpl. now rewrite Z.mod_1_r.
  - cbn [le_bytes le_value]. rewrite byte_val_of_Z, IH.
    rewrite Nat2Z.inj_succ, Z.pow_succ_r by lia.
    rewrite Z.rem_mul_r by lia. reflexivity.
Qed.

Lemma le_value_bytes_4 z : 0 <= z < 2 ^ 32 -> le_value (le_bytes 4 z) = z.
Proof. intros Hz. rewrite le_value_bytes. apply Z.mod_small. simpl. lia. Qed.

Lemma le_value_bytes_8 z : 0 <= z < 2 ^ 64 -> le_value (le_bytes 8 z) = z.
Proof. intros Hz. rewrite le_value_bytes. apply Z.mod_small. simpl. lia. Qed.

Lemma leaf_decode_encode f p k v :
  0 <= f < 2 ^ 32 -> 0 <= p < 2 ^ 32 -> 0 <= k < 2 ^ 32 -> 0 <= v < 2 ^ 32 ->
  leafPageElement.decode (leafPageElement.encode (leafPageElement.mk f p k v))
  = leafPageElement.mk f p k v.
Proof.
  intros Hf Hp Hk Hv.
  change (leafPageElement.mk (le_value (le_bytes 4 f)) (le_value (le_bytes 4 p))
            (le_value (le_bytes 4 k)) (le_value (le_bytes 4 v))
          = leafPageElement.mk f p k v).
  now rewrite !le_value_bytes_4.
Qed.

Lemma branch_decode_encode p k g :
  0 <= p < 2 ^ 32 -> 0 <= k < 2 ^ 32 -> 0 <= g < 2 ^ 64 ->
  branchPageElement.decode (branchPageElement.encode (branchPageElement.mk p k g))
  = branchPageElement.mk p k g.
Proof.
  intros Hp Hk Hg.
  change (branchPageElement.mk (le_value (le_bytes 4 p)) (le_value (le_bytes 4 k))
            (le_value (le_bytes 8 g))
          = branchPageElement.mk p k g).
  now rewrite !le_value_bytes_4, le_value_bytes_8.
Qed.

Lemma length_elem_bytes leaf item d : length (elem_bytes leaf item d) = 16%nat.
Proof. destruct leaf; reflexivity. Qed.

Lemma uint32_small z : 0 <= z < 2 ^ 32 -> uint32 z = z.
Proof. intros Hz. unfold uint32. now apply Z.mod_small. Qed.

Lemma uint16_small z : 0 <= z < 2 ^ 16 -> uint16 z = z.
Proof. intros Hz. unfold uint16. now apply Z.mod_small. Qed.

Lemma elem_off_small (leaf : bool) (i : nat) :
  Z.of_nat i < 65536 ->
  page.elem_off (if leaf then leafPageElementSize else branchPageElementSize)
    (Z.of_nat i) = (16 * i)%nat.
Proof.
  intros Hi. unfold page.elem_off. rewrite uint16_small by lia.
  destruct leaf; unfold leafPageElementSize, branchPageElementSize; lia.
Qed.
End le_facts.

(** ** [write] *)

Section write_facts.
Implicit Types (m : bytes) (items : list inode.t) (i b k : nat).

Lemma write_items_cons leaf i b item rest m :
  Z.of_nat i < 65536 ->
  node.write_items leaf i b (item :: rest) m =
  (m1 ← store m (16 * i) (elem_bytes leaf item (Z.of_nat b - Z.of_nat (16 * i)));
   m2 ← store m1 b (inode.key item);
   m3 ← store m2 (b + length (inode.key item)) (inode.value item);
   node.write_items leaf (Datatypes.S i)
     (b + length (inode.key item) + length (inode.value item)) rest m3).
Proof.
  intros Hi. cbn [node.write_items]. rewrite elem_off_small by trivial.
  destruct leaf; reflexivity.
Qed.

(** [write_items] succeeds when the elements lie before the data and
    the data fits the buffer; it touches the element slots and the data
    range only, and afterwards every element and every key and value
    can be loaded from where it was put. *)
Lemma write_items_spec leaf :
  forall items i b m,
    Z.of_nat (i + length items) <= 65536 ->
    (16 * (i + length items) <= b)%nat ->
    (b + data_len items <= length m)%nat ->
    exists m',
      node.write_items leaf i b items m = Some m' /\
      length m' = length m /\
      (forall a,
         (a < 16 * i \/ 16 * (i + length items) <= a < b
          \/ b + data_len items <= a)%nat ->
         m' !! a = m !! a) /\
      (forall k item,
         items !! k = Some item ->
         load m' (16 * (i + k)) 16
           = Some (elem_bytes leaf item
                     (Z.of_nat (b + data_len (take k items))
                      - Z.of_nat (16 * (i + k)))) /\
         load m' (b + data_len (take k items)) (length (inode.key item))
           = Some (inode.key item) /\
         load m' (b + data_len (take k items) + length (inode.key item))
              (length (inode.value item))
           = Some (inode.value item)).
Proof.
  induction items as [|item rest IH]; intros i b m Hi Hb Hm.
  - exists m. split; [reflexivity|]. split; [reflexivity|]. split; [auto|].
    intros k item Hk. discriminate Hk.
  - simpl length in *. simpl data_len in *.
    rewrite write_items_cons by lia.
    set (elem := elem_bytes leaf item (Z.of_nat b - Z.of_nat (16 * i))).
    assert (Helem : length elem = 16%nat) by apply length_elem_bytes.
    destruct (store m (16 * i) elem) as [m1|] eqn:E1.
    2:{ rewrite store_Some in E1 by lia. discriminate E1. }
    pose proof (store_length _ _ _ _ E1) as L1.
    cbn [mbind option_bind].
    destruct (store m1 b (inode.key item)) as [m2|] eqn:E2.
    2:{ rewrite store_Some in E2 by lia. discriminate E2. }
    pose proof (store_length _ _ _ _ E2) as L2.
    cbn [mbind option_bind].
    destruct (store m2 (b + length (inode.key item)) (inode.value item)) as [m3|] eqn:E3.
    2:{ rewrite store_Some in E3 by lia. discriminate E3. }
    pose proof (store_length _ _ _ _ E3) as L3.
    cbn [mbind option_bind].
    destruct (IH (Datatypes.S i)
                (b + length (inode.key item) + length (inode.value item))%nat m3)
      as (m' & Hw & L' & Hframe & Hitems); try lia.
    exists m'. split; [exact Hw|]. split; [lia|].
    assert (Hm3 : forall a,
              (a < 16 * i \/ 16 * i + 16 <= a < b
               \/ b + length (inode.key item) + length (inode.value item) <= a)%nat ->
              m3 !! a = m !! a).
    { intros a Ha.
      rewrite (lookup_store _ _ _ _ a E3). case_decide; [lia|].
      rewrite (lookup_store _ _ _ _ a E2). case_decide; [lia|].
      rewrite (lookup_store _ _ _ _ a E1). case_decide; [lia|reflexivity]. }
    split.
    + intros a Ha. rewrite Hframe by lia. apply Hm3. lia.
    + intros k it Hk. destruct k as [|k].
      * simpl in Hk. inversion Hk; subst it. clear Hk.
        simpl take. simpl data_len. rewrite !Nat.add_0_r.
        assert (Hkeep : forall off len,
                  (off + len <= 16 * i + 16 \/
                   (16 * (Datatypes.S i + length rest) <= off /\
                    off + len <= b + length (inode.key item) + length (inode.value item)))%nat ->
                  load m' off len = load m3 off len).
        { intros off len Hr. apply load_ext; [lia|].
          intros a Ha. apply Hframe. lia. }
        split; [|split].
        -- rewrite Hkeep by lia.
           rewrite (load_store_other _ _ _ _ _ _ E3) by lia.
           rewrite (load_store_other _ _ _ _ _ _ E2) by lia.
           pose proof (load_store_same _ _ _ _ E1) as Hl.
           rewrite Helem in Hl. exact Hl.
        -- rewrite Hkeep by lia.
           rewrite (load_store_other _ _ _ _ _ _ E3) by lia.
           apply (load_store_same _ _ _ _ E2).
        -- rewrite Hkeep by lia.
           apply (load_store_same _ _ _ _ E3).
      * simpl in Hk. destruct (Hitems k it Hk) as (He & Hkey & Hval).
        simpl take. simpl data_len.
        replace (b + (length (inode.key item) + length (inode.value item)
                      + data_len (take k rest)))%nat
          with (b + length (inode.key item) + length (inode.value item)
                + data_len (take k rest))%nat by lia.
        replace (i + Datatypes.S k)%nat with (Datatypes.S i + k)%nat by lia.
        auto.
Qed.

Lemma size_data_len (n : node.t) :
  node.size n
  = pageHeaderSize + node.pageElementSize n * Z.of_nat (length (node.inodes n))
    + Z.of_nat (data_len (node.inodes n)).
Proof.
  unfold node.size. generalize pageHeaderSize as acc.
  generalize (node.pageElementSize n) as e. intros e.
  induction (node.inodes n) as [|item rest IH]; intros acc.
  - simpl. lia.
  - cbn [fold_left]. rewrite IH. simpl length. simpl data_len. unfold blen. lia.
Qed.

Lemma data_len_take_le items k : (data_len (take k items) <= data_len items)%nat.
Proof.
  revert k. induction items as [|item rest IH]; intros [|k]; simpl; try lia.
  specialize (IH k). lia.
Qed.

Lemma data_len_take_item items k item :
  items !! k = Some item ->
  (data_len (take k items) + length (inode.key item) + length (inode.value item)
   <= data_len items)%nat.
Proof.
  revert k. induction items as [|it rest IH]; intros [|k] Hk; simpl in *; try discriminate.
  - inversion Hk; subst. lia.
  - specialize (IH k Hk). lia.
Qed.
End write_facts.

(** ** [read] after [write] *)

Section roundtrip_facts.
Implicit Types (m : bytes) (l : list inode.t) (k : nat) (p : page.t).

Lemma is_leaf_after_write (f : Z) (leaf : bool) :
  (leaf = false -> Z.land f leafPageFlag = 0) ->
  negb (Z.land (Z.lor f (if leaf then leafPageFlag else branchPageFlag)) leafPageFlag =? 0)
  = leaf.
Proof.
  intros Hf. rewrite Z.land_lor_distr_l. destruct leaf.
  - change (Z.land leafPageFlag leafPageFlag) with 2.
    destruct (Z.eqb_spec (Z.lor (Z.land f leafPageFlag) 2) 0) as [E|E]; [|reflexivity].
    apply Z.lor_eq_0_iff in E. destruct E as [_ E]. discriminate E.
  - change (Z.land branchPageFlag leafPageFlag) with 0.
    rewrite Z.lor_0_r, Hf by reflexivity. reflexivity.
Qed.

(** What [read] finds at index [k] of a buffer in which element [k] and
    its key and value sit where [write] puts them. *)
Lemma read_inode_written leaf p k item bk :
  Z.of_nat k < 65536 ->
  storable leaf item ->
  (16 * k <= bk)%nat ->
  Z.of_nat (bk + length (inode.key item) + length (inode.value item)) < 2 ^ 32 ->
  load (page.ptr p) (16 * k) 16
    = Some (elem_bytes leaf item (Z.of_nat bk - Z.of_nat (16 * k))) ->
  load (page.ptr p) bk (length (inode.key item)) = Some (inode.key item) ->
  load (page.ptr p) (bk + length (inode.key item)) (length (inode.value item))
    = Some (inode.value item) ->
  node.read_inode leaf p k = Some item.
Proof.
  intros Hk Hst Hbk Hfit He Hkey Hval.
  assert (Hd : uint32 (Z.of_nat bk - Z.of_nat (16 * k)) = Z.of_nat (bk - 16 * k)).
  { rewrite uint32_small by lia. lia. }
  assert (Hks : uint32 (blen (inode.key item)) = Z.of_nat (length (inode.key item))).
  { unfold blen. apply uint32_small. lia. }
  assert (Hvs : uint32 (blen (inode.value item)) = Z.of_nat (length (inode.value item))).
  { unfold blen. apply uint32_small. lia. }
  pose proof (elem_off_small true k Hk) as Hoff_l.
  pose proof (elem_off_small false k Hk) as Hoff_b.
  cbv iota in Hoff_l, Hoff_b.
  unfold node.read_inode. destruct leaf.
  - destruct Hst as [Hfl Hpg].
    assert (Hel : page.leafPageElement p (Z.of_nat k)
                  = Some (leafPageElement.mk (inode.flags item) (Z.of_nat (bk - 16 * k))
                            (Z.of_nat (length (inode.key item)))
                            (Z.of_nat (length (inode.value item))))).
    { unfold page.leafPageElement. rewrite Hoff_l.
      change (Z.to_nat leafPageElementSize) with 16%nat. rewrite He.
      unfold elem_bytes. cbn [fmap option_fmap option_map].
      rewrite leaf_decode_encode; try (unfold uint32; apply Z.mod_pos_bound; lia); [|exact Hfl].
      now rewrite Hd, Hks, Hvs. }
    unfold page.leaf_key, page.leaf_value. rewrite Hel. cbn [mbind option_bind].
    cbn [leafPageElement.pos leafPageElement.ksize leafPageElement.vsize leafPageElement.flags].
    rewrite Hoff_l, !Nat2Z.id.
    replace (16 * k + (bk - 16 * k))%nat with bk by lia.
    rewrite Hkey, Hval. cbn [mbind option_bind].
    destruct item as [fl pg ky vl]. simpl in Hpg. now subst pg.
  - destruct Hst as (Hfl & Hpg & Hvl).
    assert (Hel : page.branchPageElement p (Z.of_nat k)
                  = Some (branchPageElement.mk (Z.of_nat (bk - 16 * k))
                            (Z.of_nat (length (inode.key item))) (inode.pgid item))).
    { unfold page.branchPageElement. rewrite Hoff_b.
      change (Z.to_nat branchPageElementSize) with 16%nat. rewrite He.
      unfold elem_bytes. cbn [fmap option_fmap option_map].
      rewrite branch_decode_encode; try (unfold uint32; apply Z.mod_pos_bound; lia); [|exact Hpg].
      now rewrite Hd, Hks. }
    unfold page.branch_key. rewrite Hel. cbn [mbind option_bind].
    cbn [branchPageElement.pos branchPageElement.ksize branchPageElement.pgid].
    rewrite Hoff_b, !Nat2Z.id.
    replace (16 * k + (bk - 16 * k))%nat with bk by lia.
    rewrite Hkey. cbn [mbind option_bind].
    destruct item as [fl pg ky vl]. simpl in Hfl, Hvl. now subst fl vl.
Qed.
End roundtrip_facts.

(** C3, as stated, fails: a leaf element has no field for a page id, so
    a leaf inode with page id 7, written to a fresh page that it fits,
    is read back with page id 0. *)
Lemma write_read_stated_counterexample :
  ~ (forall (n : node.t) (p : page.t),
       node.size n <= pageHeaderSize + blen (page.ptr p) ->
       exists p',
         node.write n p = Some p' /\
         forall n0, exists n',
           node.read p' n0 = Some n' /\
           node.inodes n' = node.inodes n /\ node.isLeaf n' = node.isLeaf n).
Proof.
  intros H.
  destruct (H pgid_leaf (fresh_page 5 80)) as (p' & Hw & Hr).
  - vm_compute. discriminate.
  - vm_compute in Hw. inversion Hw; subst p'. clear Hw.
    destruct (Hr empty_node) as (n' & Hn' & Hi & _).
    vm_compute in Hn'. inversion Hn'; subst n'. vm_compute in Hi. discriminate Hi.
Qed.

(** C3, amended.  A node with fewer than 65536 inodes, each of which a
    page element of its kind can hold (on a leaf: page id 0 and 32-bit
    flags; on a branch: flags 0, no value and a 64-bit page id), of a
    serialized size below 2^32, written with [write] to a page buffer
    that it fits and, for a branch, that has no leaf flag set beforehand,
    is read back from that page by [read] with the same inode sequence
    (flags, keys, values and page ids, in order) and the same leaf
    flag. *)
Theorem write_read_roundtrip (n : node.t) (p : page.t) :
  Z.of_nat (length (node.inodes n)) < 65536 ->
  Forall (storable (node.isLeaf n)) (node.inodes n) ->
  node.size n < 2 ^ 32 ->
  node.size n <= pageHeaderSize + blen (page.ptr p) ->
  (node.isLeaf n = false -> Z.land (page.flags p) leafPageFlag = 0) ->
  exists p',
    node.write n p = Some p' /\
    forall n0, exists n',
      node.read p' n0 = Some n' /\
      node.inodes n' = node.inodes n /\ node.isLeaf n' = node.isLeaf n.
Proof.
  intros Hcount Hst Hcap Hsize Hflags.
  rewrite size_data_len in Hsize, Hcap. unfold blen in Hsize.
  assert (HE : node.pageElementSize n = 16) by (unfold node.pageElementSize; now destruct (node.isLeaf n)).
  rewrite HE in Hsize, Hcap. unfold pageHeaderSize in Hsize, Hcap.
  set (l := node.inodes n) in *.
  destruct (write_items_spec (node.isLeaf n) l 0%nat (16 * length l)%nat (page.ptr p))
    as (m' & Hw & Hlen & _ & Hitems); try lia.
  unfold node.write. rewrite HE. fold l.
  change (Z.to_nat 16) with 16%nat. rewrite Hw. cbn [mbind option_bind].
  eexists. split; [reflexivity|].
  intros n0. unfold node.read, page.is_leaf.
  cbn [page.flags page.count page.ptr page.id].
  rewrite is_leaf_after_write by exact Hflags.
  rewrite uint16_small by lia. rewrite Nat2Z.id.
  set (p' := page.mk _ _ _ _ m').
  assert (Hmap : mapM (node.read_inode (node.isLeaf n) p') (seq 0 (length l)) = Some l).
  { apply mapM_Some_2. apply Forall2_same_length_lookup_2.
    - now rewrite length_seq.
    - intros k x item Hx Hitem.
      assert (Hkl : (k < length l)%nat) by (eapply lookup_lt_Some; eauto).
      rewrite lookup_seq_lt in Hx by trivial. inversion Hx; subst x. clear Hx.
      destruct (Hitems k item Hitem) as (He & Hkey & Hval).
      pose proof (data_len_take_item l k item Hitem) as Hdl.
      rewrite Forall_forall in Hst.
      apply (read_inode_written (node.isLeaf n) p' k item
               (16 * length l + data_len (take k l))%nat); try lia.
      + apply Hst. eapply list_elem_of_lookup_2; eauto.
      + exact He.
      + exact Hkey.
      + exact Hval. }
  rewrite Hmap. cbn [mbind option_bind]. eexists. split; [reflexivity|].
  split; reflexivity.
Qed.

Lemma write_read_roundtrip_witness :
  exists p',
    node.write susy_leaf (fresh_page 5 80) = Some p' /\
    forall n0, exists n',
      node.read p' n0 = Some n' /\
      node.inodes n' = node.inodes susy_leaf /\ node.isLeaf n' = node.isLeaf susy_leaf.
Proof.
  apply (write_read_roundtrip susy_leaf (fresh_page 5 80)).
  - simpl. lia.
  - repeat constructor; simpl; lia.
  - vm_compute. reflexivity.
  - vm_compute. discriminate.
  - intros H. discriminate H.
Defined.

(** [TestNodeReadLeafPage] and [TestNodeWriteLeafPage] of node_test.go. *)
Example read_leaf_page :
  node.read test_leaf_page empty_node
  = Some (node.mk 0 true false (bs "bar") 0 None []
            [ inode.mk 0 0 (bs "bar") (bs "fooz");
              inode.mk 0 0 (bs "helloworld") (bs "bye") ]).
Proof. vm_compute. reflexivity. Qed.

Example write_leaf_page :
  (node.write susy_leaf (fresh_page 0 4080) ≫= fun p => node.read p empty_node)
  = Some (node.mk 0 true false (bs "john") 0 None []
            [ inode.mk 0 0 (bs "john") (bs "johnson");
              inode.mk 0 0 (bs "ricki") (bs "lake");
              inode.mk 0 0 (bs "susy") (bs "que") ]).
Proof. vm_compute. reflexivity. Qed.

(** ** Searching a sorted list of keys *)

Section key_search_facts.
Context {S : Type} (ks : list bytes) (target : bytes).
Context (f : nat -> S -> option (bool * S)) (upd : nat -> S -> S).
Hypothesis f_ok :
  forall h s x, ks !! h = Some x ->
    f h s = Some (negb (Compare x target =? -1), upd h s).
Hypothesis ks_sorted : sorted_keys ks.

Lemma ge_target_true h :
  ge_target ks target h = true <-> exists x, ks !! h = Some x /\ ~ bytes_lt x target.
Proof.
  unfold ge_target, bytes_lt. destruct (ks !! h) as [x|].
  - rewrite negb_true_iff, Z.eqb_neq. split; [eauto|]. now intros (? & [= <-] & ?).
  - split; [discriminate|]. now intros (? & ? & _).
Qed.

Lemma ge_target_mono a c :
  (a <= c)%nat -> (c < length ks)%nat -> ge_target ks target a = true -> ge_target ks target c = true.
Proof.
  intros Hac Hc Ha. apply ge_target_true in Ha. destruct Ha as (x & Hx & Hge).
  destruct (lookup_lt_is_Some_2 ks c Hc) as [y Hy].
  apply ge_target_true. exists y. split; [exact Hy|]. intros Hlt. apply Hge.
  eapply bytes_le_lt_trans; [|exact Hlt].
  eapply (sorted_keys_lookup ks a c); eauto.
Qed.

(** The binary search over sorted keys returns their lower bound. *)
Lemma Search_lower_bound s :
  exists s', Search (length ks) f s = Some (lower_bound ks target, s').
Proof.
  destruct (Search_least (length ks) f (ge_target ks target) upd) with (s := s)
    as (r & s' & Hr & Hrn & Hlo & Hhi).
  - intros h s0 Hh. destruct (lookup_lt_is_Some_2 ks h Hh) as [x Hx].
    rewrite (f_ok h s0 x Hx). unfold ge_target. now rewrite Hx.
  - intros a c Hac Hc. now apply ge_target_mono.
  - exists s'. rewrite Hr. f_equal. f_equal. symmetry. apply lower_bound_unique.
    + exact Hrn.
    + intros a x Ha Hx. specialize (Hlo a Ha). unfold ge_target in Hlo.
      rewrite Hx in Hlo. apply negb_false_iff in Hlo. now apply Z.eqb_eq in Hlo.
    + intros x Hx.
      assert (Hrl : (r < length ks)%nat) by (eapply lookup_lt_Some; eauto).
      specialize (Hhi Hrl). apply ge_target_true in Hhi.
      destruct Hhi as (x' & Hx' & Hge). congruence.
Qed.
End key_search_facts.

(** The captured [exact] of the branch search. *)
Section exact_facts.
Context (n : nat) (f : nat -> bool -> option (bool * bool)).
Context (pred q : nat -> bool).
Hypothesis f_ok :
  forall h s, (h < n)%nat -> f h s = Some (pred h, if q h then true else s).

Lemma Search_loop_exact fuel :
  forall i j s,
    (i <= j)%nat -> (j <= n)%nat -> (j - i <= fuel)%nat ->
    exists r s',
      Search_loop fuel f i j s = Some (r, s') /\
      (i <= r <= j)%nat /\
      (s = true -> s' = true) /\
      (s' = true -> s = true \/ exists h, (h < n)%nat /\ q h = true) /\
      ((r < j)%nat -> q r = true -> s' = true).
Proof.
  induction fuel as [|fuel IH]; intros i j s Hij Hjn Hfuel.
  - assert (i = j) by lia. subst j. exists i, s.
    rewrite Search_loop_done by lia. repeat split; auto; lia.
  - destruct (i <? j)%nat eqn:Elt.
    + apply Nat.ltb_lt in Elt. rewrite Search_loop_step by trivial.
      assert (Hh : (i <= (i + j) / 2 < j)%nat).
      { pose proof (Nat.div_mod_eq (i + j) 2) as Hd.
        pose proof (Nat.mod_upper_bound (i + j) 2). lia. }
      set (h := ((i + j) / 2)%nat) in *. clearbody h.
      rewrite f_ok by lia.
      destruct (pred h) eqn:Eh.
      * destruct (IH i h (if q h then true else s))
          as (r & s' & Hr & Hb & Hup & Hdown & Hat); try lia.
        exists r, s'. split; [exact Hr|]. split; [lia|]. split; [|split].
        -- intros ->. apply Hup. now destruct (q h).
        -- intros Hs'. destruct (Hdown Hs') as [Hq|Hex]; [|now right].
           destruct (q h) eqn:Eq; [right; exists h; split; [lia|exact Eq]|now left].
        -- intros Hrj Hqr. destruct (decide (r = h)) as [->|Hne].
           ++ apply Hup. now rewrite Hqr.
           ++ apply Hat; [lia|exact Hqr].
      * destruct (IH (h + 1)%nat j (if q h then true else s))
          as (r & s' & Hr & Hb & Hup & Hdown & Hat); try lia.
        exists r, s'. split; [exact Hr|]. split; [lia|]. split; [|split].
        -- intros ->. apply Hup. now destruct (q h).
        -- intros Hs'. destruct (Hdown Hs') as [Hq|Hex]; [|now right].
           destruct (q h) eqn:Eq; [right; exists h; split; [lia|exact Eq]|now left].
        -- exact Hat.
    + apply Nat.ltb_ge in Elt. assert (i = j) by lia. subst j.
      exists i, s. rewrite Search_loop_done by lia. repeat split; auto; lia.
Qed.
End exact_facts.

(** ** The keys of a page *)

Section page_key_facts.
Lemma mapM_seq_lookup {A} (g : nat -> option A) (n : nat) (l : list A) :
  mapM g (seq 0 n) = Some l ->
  length l = n /\ forall i x, l !! i = Some x -> g i = Some x.
Proof.
  intros H. apply mapM_Some_1 in H.
  pose proof (Forall2_length _ _ _ H) as Hlen. rewrite length_seq in Hlen.
  split; [lia|]. intros i x Hx.
  assert (Hi : (i < n)%nat) by (apply lookup_lt_Some in Hx; lia).
  apply (Forall2_lookup_lr _ _ _ i i x H); [|exact Hx].
  now apply lookup_seq_lt.
Qed.

Lemma flags_assert_leaf (p : page.t) :
  page.is_leaf p = true ->
  (Z.land (page.flags p) (Z.lor branchPageFlag leafPageFlag) =? 0) = false.
Proof.
  unfold page.is_leaf. intros H. apply negb_true_iff, Z.eqb_neq in H.
  apply Z.eqb_neq. intros E. apply H.
  change leafPageFlag with (Z.land (Z.lor branchPageFlag leafPageFlag) leafPageFlag).
  rewrite Z.land_assoc, E. reflexivity.
Qed.

Lemma flags_assert_branch (p : page.t) :
  page.is_branch p = true ->
  (Z.land (page.flags p) (Z.lor branchPageFlag leafPageFlag) =? 0) = false.
Proof.
  unfold page.is_branch. intros H. apply negb_true_iff, Z.eqb_neq in H.
  apply Z.eqb_neq. intros E. apply H.
  change branchPageFlag with (Z.land (Z.lor branchPageFlag leafPageFlag) branchPageFlag) at 1.
  rewrite Z.land_assoc, E. reflexivity.
Qed.

Lemma set_top_index_snoc (s : list Cursor.elemRef) (p : page.t) (i0 idx : Z) :
  Cursor.set_top_index idx (s ++ [Cursor.mkRef p i0]) = Some (s ++ [Cursor.mkRef p idx]).
Proof.
  unfold Cursor.set_top_index. rewrite length_app. simpl length.
  replace (length s + 1 - 1)%nat with (length s) by lia.
  rewrite lookup_app_r by lia. rewrite Nat.sub_diag. simpl.
  f_equal. rewrite insert_app_r_alt by lia. now rewrite Nat.sub_diag.
Qed.
End page_key_facts.

(** ** The searches of the cursor *)

Section cursor_facts.
Implicit Types (p : page.t) (ks : list bytes) (target : bytes) (c : Cursor.t).

Lemma leaf_search p ks target :
  page.leaf_keys p = Some ks -> sorted_keys ks ->
  Search (Z.to_nat (page.count p)) (Cursor.leaf_probe p target) tt
  = Some (lower_bound ks target, tt).
Proof.
  intros Hks Hs. apply mapM_seq_lookup in Hks. destruct Hks as [Hlen Hkey].
  destruct (Search_lower_bound ks target (Cursor.leaf_probe p target) (fun _ u => u))
    with (s := tt) as ([] & Hr).
  - intros h s x Hx. unfold Cursor.leaf_probe. now rewrite (Hkey h x Hx).
  - exact Hs.
  - now rewrite <- Hlen.
Qed.

Lemma branch_search p ks target :
  page.branch_keys p = Some ks -> sorted_keys ks ->
  Search (Z.to_nat (page.count p)) (Cursor.branch_probe p target) false
  = Some (lower_bound ks target, exact_at ks target).
Proof.
  intros Hks Hs. apply mapM_seq_lookup in Hks. destruct Hks as [Hlen Hkey].
  set (q := fun h => match ks !! h with
                     | Some x => Compare x target =? 0
                     | None => false
                     end).
  assert (Hok : forall h s x, ks !! h = Some x ->
            Cursor.branch_probe p target h s
            = Some (negb (Compare x target =? -1), if q h then true else s)).
  { intros h s x Hx. unfold Cursor.branch_probe, q.
    now rewrite (Hkey h x Hx), Hx. }
  destruct (Search_lower_bound ks target (Cursor.branch_probe p target)
              (fun h s => if q h then true else s) Hok Hs false) as (s' & Hr).
  rewrite <- Hlen. rewrite Hr. f_equal. f_equal.
  destruct (Search_loop_exact (length ks) (Cursor.branch_probe p target)
              (ge_target ks target) q) with (fuel := length ks) (i := 0%nat)
              (j := length ks) (s := false)
    as (r & s2 & Hr2 & _ & _ & Hdown & Hat); try lia.
  { intros h s Hh. destruct (lookup_lt_is_Some_2 ks h Hh) as [x Hx].
    rewrite (Hok h s x Hx). unfold ge_target. now rewrite Hx. }
  unfold Search in Hr. rewrite Hr in Hr2. inversion Hr2; subst r s2. clear Hr2.
  unfold exact_at.
  assert (Hfound : s' = true -> ks !! lower_bound ks target = Some target).
  { intros Hs'. destruct (Hdown Hs') as [Hf|(h & Hh & Hq)]; [discriminate|].
    unfold q in Hq. destruct (ks !! h) as [x|] eqn:Ex; [|discriminate].
    apply Z.eqb_eq, Compare_eq in Hq. subst x.
    apply lower_bound_present; [exact Hs|]. eapply list_elem_of_lookup_2; eauto. }
  destruct (ks !! lower_bound ks target) as [k|] eqn:Ek.
  - destruct (Equal k target) eqn:Ee.
    + apply Equal_eq in Ee. subst k. apply Hat.
      * eapply lookup_lt_Some; eauto.
      * unfold q. rewrite Ek. apply Z.eqb_eq. apply Compare_refl.
    + destruct s'; [|reflexivity].
      specialize (Hfound eq_refl). inversion Hfound; subst k.
      apply Equal_false in Ee. contradiction.
  - destruct s'; [|reflexivity]. specialize (Hfound eq_refl). discriminate.
Qed.

Lemma spec_branch_index_lt ks target :
  ks <> [] -> (spec_branch_index ks target < length ks)%nat.
Proof.
  intros Hne. unfold spec_branch_index.
  pose proof (lower_bound_le ks target) as Hle.
  assert (Hlen : (0 < length ks)%nat) by (destruct ks; [contradiction|simpl; lia]).
  destruct (ks !! lower_bound ks target) as [k|] eqn:Ek.
  - apply lookup_lt_Some in Ek.
    destruct (negb (Equal k target) && (0 <? lower_bound ks target)%nat); lia.
  - simpl negb. destruct (0 <? lower_bound ks target)%nat eqn:E0; simpl andb; cbv iota.
    + apply Nat.ltb_lt in E0. lia.
    + apply Nat.ltb_ge in E0. lia.
Qed.

(** With duplicate-free sorted keys, the index of the specification is
    the rightmost key [<= target], if the page has one. *)
Lemma spec_branch_index_rightmost ks target :
  strictly_sorted_keys ks ->
  (exists j k, ks !! j = Some k /\ bytes_le k target) ->
  rightmost_le ks target (spec_branch_index ks target).
Proof.
  intros Hss (j & kj & Hj & Hle).
  pose proof (strictly_sorted_sorted ks Hss) as Hs.
  unfold spec_branch_index.
  set (lb := lower_bound ks target).
  assert (Habsent : forall a x, (lb <= a)%nat -> ks !! a = Some x -> x <> target ->
                     bytes_lt target x).
  { intros a x Ha Hx Hne.
    pose proof (lower_bound_after ks target a x Hs Ha Hx) as Hge.
    apply bytes_le_lt_or_eq in Hge. destruct Hge as [Hlt|Heq]; [exact Hlt|congruence]. }
  destruct (ks !! lb) as [k|] eqn:Ek.
  - destruct (Equal k target) eqn:Ee; simpl negb; simpl andb; cbv iota.
    + apply Equal_eq in Ee. subst k. split.
      * exists target. split; [exact Ek|apply bytes_le_refl].
      * intros a x Ha Hx.
        apply (StronglySorted_lookup bytes_lt ks lb a target x Hss Ha Ek Hx).
    + apply Equal_false in Ee.
      assert (Hnot : target ∉ ks).
      { intros Hin. pose proof (lower_bound_present ks target Hs Hin) as Hp.
        fold lb in Hp. congruence. }
      destruct (0 <? lb)%nat eqn:E0; cbv iota.
      * apply Nat.ltb_lt in E0.
        destruct (lookup_lt_is_Some_2 ks (lb - 1)) as [x Hx].
        { apply lookup_lt_Some in Ek. lia. }
        split.
        -- exists x. split; [exact Hx|]. apply bytes_lt_le.
           apply (lower_bound_before ks target (lb - 1) x); [fold lb; lia|exact Hx].
        -- intros a y Ha Hy. apply (Habsent a y); [lia|exact Hy|].
           intros ->. apply Hnot. eapply list_elem_of_lookup_2; eauto.
      * apply Nat.ltb_ge in E0. exfalso.
        assert (Hlt : bytes_lt target kj).
        { apply (Habsent j kj); [lia|exact Hj|].
          intros ->. apply Hnot. eapply list_elem_of_lookup_2; eauto. }
        apply (bytes_lt_irrefl target). eapply bytes_lt_le_trans; eauto.
  - (* every key is below the target: the last one is chosen *)
    apply lookup_ge_None in Ek. pose proof (lookup_lt_Some _ _ _ Hj) as Hjl.
    pose proof (lower_bound_le ks target) as Hlb. fold lb in Hlb.
    simpl negb. simpl andb.
    assert (E0 : (0 <? lb)%nat = true) by (apply Nat.ltb_lt; lia).
    rewrite E0.
    destruct (lookup_lt_is_Some_2 ks (lb - 1)) as [x Hx]; [lia|].
    split.
    + exists x. split; [exact Hx|]. apply bytes_lt_le.
      apply (lower_bound_before ks target (lb - 1) x); [fold lb; lia|exact Hx].
    + intros a y Ha Hy. apply lookup_lt_Some in Hy. lia.
Qed.
End cursor_facts.

(** ** [search] and [Seek] *)

Section seek_facts.
Implicit Types (p : page.t) (ks : list bytes) (target : bytes) (c : Cursor.t).

Lemma search_unfold fuel target p c :
  Cursor.search (Datatypes.S fuel) target p c =
  if Z.land (page.flags p) (Z.lor branchPageFlag leafPageFlag) =? 0
  then Panic
  else
    let c1 := Cursor.with_stack (Cursor.stack c ++ [Cursor.mkRef p 0]) c in
    if page.is_leaf p then
      match Cursor.nsearch target p c1 with
      | Some c2 => Done c2
      | None => Panic
      end
    else
      match Search (Z.to_nat (page.count p)) (Cursor.branch_probe p target) false with
      | None => Panic
      | Some (index, exact) =>
          let index :=
            if negb exact && (0 <? index)%nat then (index - 1)%nat else index in
          match Cursor.set_top_index (uint16 (Z.of_nat index)) (Cursor.stack c1) with
          | None => Panic
          | Some s =>
              match page.branch_pgid p (Z.of_nat index)
                      ≫= fun pg => Cursor.pages c !! pg with
              | None => Panic
              | Some child => Cursor.search fuel target child (Cursor.with_stack s c1)
              end
          end
      end.
Proof. reflexivity. Qed.

(** On a well-formed tree and with more fuel than its height, [search]
    returns, and what it pushes is the stack of the specification. *)
Lemma search_spec target :
  forall h fuel p c,
    btree (Cursor.pages c) h p -> (h < fuel)%nat ->
    exists stk leafp ks,
      Cursor.search fuel target p c
        = Done (Cursor.with_stack (Cursor.stack c ++ stk) c) /\
      descent (Cursor.pages c) target p stk /\
      Forall (on_rightmost_le target) stk /\
      last stk = Some (Cursor.mkRef leafp (Z.of_nat (lower_bound ks target))) /\
      btree (Cursor.pages c) 0 leafp /\
      page.leaf_keys leafp = Some ks.
Proof.
  induction h as [|h IH]; intros fuel p c Hbt Hfuel;
    (destruct fuel as [|fuel]; [lia|]); rewrite search_unfold.
  - destruct Hbt as (Hleaf & Hcount & ks & Hks & Hss & Hvals).
    rewrite (flags_assert_leaf p Hleaf). cbv zeta. rewrite Hleaf.
    unfold Cursor.nsearch.
    rewrite (leaf_search p ks target Hks (strictly_sorted_sorted ks Hss)).
    cbn [mbind option_bind]. cbn [Cursor.stack Cursor.with_stack].
    rewrite set_top_index_snoc. cbn [mbind option_bind].
    pose proof (lower_bound_le ks target) as Hlb.
    pose proof (mapM_seq_lookup _ _ _ Hks) as [Hlen _].
    rewrite uint16_small by lia.
    exists [Cursor.mkRef p (Z.of_nat (lower_bound ks target))], p, ks.
    split; [reflexivity|]. split; [now apply descent_leaf|].
    split.
    { constructor; [|constructor]. intros Hnl. simpl in Hnl. congruence. }
    split; [reflexivity|]. split; [|exact Hks].
    simpl. eauto 10.
  - destruct Hbt as (Hleaf & Hbranch & Hcount & ks & Hks & Hss & Hkids).
    rewrite (flags_assert_branch p Hbranch). cbv zeta. rewrite Hleaf.
    rewrite (branch_search p ks target Hks (strictly_sorted_sorted ks Hss)).
    pose proof (mapM_seq_lookup _ _ _ Hks) as [Hlen _].
    assert (Hne : ks <> []).
    { intros ->. simpl in Hlen. lia. }
    change (if negb (exact_at ks target) && (0 <? lower_bound ks target)%nat
            then (lower_bound ks target - 1)%nat else lower_bound ks target)
      with (spec_branch_index ks target).
    pose proof (spec_branch_index_lt ks target Hne) as Hidx.
    cbn [Cursor.stack Cursor.with_stack].
    rewrite set_top_index_snoc. rewrite uint16_small by lia.
    destruct (Hkids _ Hidx) as (pg & child & Hpg & Hchild & Hbtc).
    rewrite Hpg. cbn [mbind option_bind]. cbn [Cursor.pages]. rewrite Hchild.
    set (c1 := Cursor.with_stack _ _).
    destruct (IH fuel child c1) as (stk & leafp & lks & Hs & Hd & Hr & Hlast & Hbl & Hlk).
    { exact Hbtc. }
    { lia. }
    exists (Cursor.mkRef p (Z.of_nat (spec_branch_index ks target)) :: stk), leafp, lks.
    split.
    { rewrite Hs. unfold c1. cbn [Cursor.stack Cursor.with_stack Cursor.pages Cursor.root].
      now rewrite <- app_assoc. }
    split; [eapply descent_branch; eauto|].
    split.
    { constructor; [|exact Hr]. intros _ ks' Hks' Hex. simpl in Hks'.
      assert (ks' = ks) by congruence. subst ks'.
      simpl Cursor.ref_index. rewrite Nat2Z.id.
      now apply spec_branch_index_rightmost. }
    split; [|split; [exact Hbl|exact Hlk]].
    destruct stk as [|r0 stk']; [discriminate Hlast|exact Hlast].
Qed.
End seek_facts.

(** C9.  On a B+tree of pages with sorted, duplicate-free keys, [Seek]
    returns (given more fuel than the tree is high) and leaves on the
    stack the frames that the specification describes: at each branch
    page the lower bound of the target, decremented when the exact key
    was not found and the index is positive, which is the rightmost
    element whose key is [<=] the target whenever the page has one; at
    the leaf the lower bound.  It returns (nil, nil) exactly when that
    leaf index equals the element count of the leaf, and otherwise the
    key and value at that index. *)
Theorem Seek_descends (c : Cursor.t) (target : bytes) (h fuel : nat) (rootp : page.t) :
  Cursor.pages c !! Cursor.root c = Some rootp ->
  btree (Cursor.pages c) h rootp ->
  (h < fuel)%nat ->
  exists stk leafp ks res,
    Cursor.Seek fuel target c = Done (res, Cursor.with_stack stk c) /\
    descent (Cursor.pages c) target rootp stk /\
    Forall (on_rightmost_le target) stk /\
    last stk = Some (Cursor.mkRef leafp (Z.of_nat (lower_bound ks target))) /\
    page.is_leaf leafp = true /\
    page.leaf_keys leafp = Some ks /\
    Z.of_nat (length ks) = page.count leafp /\
    (res = None <-> Z.of_nat (lower_bound ks target) = page.count leafp) /\
    ((lower_bound ks target < length ks)%nat ->
       exists k v,
         ks !! lower_bound ks target = Some k /\
         page.leaf_value leafp (Z.of_nat (lower_bound ks target)) = Some v /\
         res = Some (k, v)).
Proof.
  intros Hroot Hbt Hfuel. unfold Cursor.Seek. rewrite Hroot.
  destruct (search_spec target h fuel rootp (Cursor.with_stack [] c))
    as (stk & leafp & ks & Hs & Hd & Hr & Hlast & Hbl & Hlk); [exact Hbt|exact Hfuel|].
  cbn [Cursor.stack Cursor.with_stack Cursor.pages Cursor.root app] in Hs, Hd, Hbl.
  rewrite Hs. cbn [Cursor.stack Cursor.with_stack].
  assert (Htop : stk !! (length stk - 1)%nat
                 = Some (Cursor.mkRef leafp (Z.of_nat (lower_bound ks target)))).
  { rewrite <- Hlast. rewrite last_lookup. f_equal. lia. }
  rewrite Htop. cbn [Cursor.ref_index Cursor.ref_page].
  destruct Hbl as (Hleaf & Hcount & ks' & Hks' & Hss & Hvals).
  assert (ks' = ks) by congruence. subst ks'.
  pose proof (mapM_seq_lookup _ _ _ Hlk) as [Hlen Hkeys].
  pose proof (lower_bound_le ks target) as Hlb.
  assert (Hcnt : Z.of_nat (length ks) = page.count leafp) by lia.
  destruct (Z.eqb_spec (Z.of_nat (lower_bound ks target)) (page.count leafp)) as [E|E].
  - exists stk, leafp, ks, None.
    repeat split; auto. intros Hlt. lia.
  - assert (Hlt : (lower_bound ks target < length ks)%nat) by lia.
    destruct (lookup_lt_is_Some_2 ks _ Hlt) as [k Hk].
    destruct (Hvals _ Hlt) as [v Hv].
    rewrite (Hkeys _ _ Hk), Hv.
    exists stk, leafp, ks, (Some (k, v)).
    split; [reflexivity|]. split; [exact Hd|]. split; [exact Hr|].
    split; [exact Hlast|]. split; [exact Hleaf|]. split; [exact Hlk|].
    split; [exact Hcnt|]. split.
    + split; [discriminate|]. intros; contradiction.
    + intros _. exists k, v. auto.
Qed.

Lemma Seek_descends_witness :
  exists stk leafp ks res,
    Cursor.Seek 2 (bs "c") tree_cursor = Done (res, Cursor.with_stack stk tree_cursor) /\
    descent (Cursor.pages tree_cursor) (bs "c") tree_root stk /\
    Forall (on_rightmost_le (bs "c")) stk /\
    last stk = Some (Cursor.mkRef leafp (Z.of_nat (lower_bound ks (bs "c")))) /\
    page.is_leaf leafp = true /\
    page.leaf_keys leafp = Some ks /\
    Z.of_nat (length ks) = page.count leafp /\
    (res = None <-> Z.of_nat (lower_bound ks (bs "c")) = page.count leafp) /\
    ((lower_bound ks (bs "c") < length ks)%nat ->
       exists k v,
         ks !! lower_bound ks (bs "c") = Some k /\
         page.leaf_value leafp (Z.of_nat (lower_bound ks (bs "c"))) = Some v /\
         res = Some (k, v)).
Proof.
  apply (Seek_descends tree_cursor (bs "c") 1 2 tree_root).
  - reflexivity.
  - simpl btree. split; [reflexivity|]. split; [reflexivity|].
    split; [simpl; lia|]. exists [bs "a"; bs "c"].
    split; [reflexivity|]. split.
    { repeat constructor. }
    intros i Hi. simpl in Hi.
    destruct i as [|[|i]]; [| |lia].
    + exists 4, tree_leaf4. split; [reflexivity|]. split; [reflexivity|].
      split; [reflexivity|]. split; [simpl; lia|]. exists [bs "a"; bs "b"].
      split; [reflexivity|]. split; [repeat constructor|].
      intros j Hj. simpl in Hj. destruct j as [|[|j]]; [| |lia]; vm_compute; eauto.
    + exists 5, tree_leaf5. split; [reflexivity|]. split; [reflexivity|].
      split; [reflexivity|]. split; [simpl; lia|]. exists [bs "c"; bs "d"].
      split; [reflexivity|]. split; [repeat constructor|].
      intros j Hj. simpl in Hj. destruct j as [|[|j]]; [| |lia]; vm_compute; eauto.
  - lia.
Defined.

(** * Further properties of the node operations *)

Section node_more_facts.
Implicit Types (l : list inode.t) (k : bytes) (n : node.t).

Lemma lower_bound_idx_le l k : (lower_bound (map inode.key l) k <= length l)%nat.
Proof. rewrite <- (length_map inode.key l). apply lower_bound_le. Qed.

(** What [del] does on a sorted node, by cases on the presence of the
    key. *)
Lemma del_spec n k :
  sorted_by_key (node.inodes n) ->
  let l := node.inodes n in
  let idx := lower_bound (map inode.key l) k in
  (has_key k l ->
     (exists old, l !! idx = Some old /\ inode.key old = k) /\
     node.del k n
     = Some (node.with_inodes (take idx l ++ drop (idx + 1) l) (marked_unbalanced n))) /\
  (~ has_key k l -> node.del k n = Some n).
Proof.
  intros Hs l idx. unfold node.del. fold l. rewrite (put_search l k Hs). fold idx.
  pose proof (lower_bound_idx_le l k) as Hidx. fold idx in Hidx.
  split.
  - intros Hk.
    assert (Hat : map inode.key l !! idx = Some k).
    { apply lower_bound_present; [exact Hs|]. now apply has_key_elem. }
    rewrite list_lookup_fmap in Hat.
    destruct (l !! idx) as [old|] eqn:Eold; [|discriminate].
    simpl in Hat. inversion Hat as [Hold].
    split; [eauto|].
    assert (Hlt : (idx < length l)%nat) by (eapply lookup_lt_Some; eauto).
    assert (H1 : (length l <=? idx)%nat = false) by (apply Nat.leb_gt; lia).
    rewrite H1.
    assert (He : Equal (inode.key old) k = true) by (now apply Equal_eq).
    rewrite Hold in He |- *. rewrite He. reflexivity.
  - intros Hk. destruct (length l <=? idx)%nat eqn:E1; [reflexivity|].
    destruct (l !! idx) as [item|] eqn:Eitem.
    + assert (He : Equal (inode.key item) k = false).
      { apply Equal_false. intros Heq. apply Hk. exists item.
        split; [eapply list_elem_of_lookup_2; eauto|exact Heq]. }
      now rewrite He.
    + apply Nat.leb_gt in E1. apply lookup_ge_None in Eitem. lia.
Qed.

Lemma lower_bound_insert (ks : list bytes) k :
  lower_bound (take (lower_bound ks k) ks ++ k :: drop (lower_bound ks k) ks) k
  = lower_bound ks k.
Proof.
  set (idx := lower_bound ks k).
  pose proof (lower_bound_le ks k) as Hidx. fold idx in Hidx.
  assert (Ht : length (take idx ks) = idx) by (rewrite length_take; lia).
  apply lower_bound_unique.
  - rewrite length_app, Ht. simpl. lia.
  - intros a x Ha Hx. rewrite lookup_app_l in Hx by lia.
    rewrite lookup_take_lt in Hx by lia.
    eapply lower_bound_before; eauto.
  - intros x Hx. rewrite lookup_app_r in Hx by lia.
    rewrite Ht, Nat.sub_diag in Hx. simpl in Hx. inversion Hx; subst x.
    apply bytes_lt_irrefl.
Qed.

Lemma map_key_insert l idx new :
  map inode.key (take idx l ++ new :: drop idx l)
  = take idx (map inode.key l) ++ inode.key new :: drop idx (map inode.key l).
Proof.
  rewrite map_app. simpl.
  change (map inode.key (take idx l)) with (inode.key <$> take idx l).
  change (map inode.key (drop idx l)) with (inode.key <$> drop idx l).
  now rewrite fmap_take, fmap_drop.
Qed.

Lemma map_key_overwrite l idx old new :
  l !! idx = Some old -> inode.key new = inode.key old ->
  map inode.key (<[idx := new]> l) = map inode.key l.
Proof.
  intros Hold Hk.
  change (inode.key <$> <[idx := new]> l = inode.key <$> l).
  rewrite list_fmap_insert. apply list_insert_id.
  rewrite list_lookup_fmap, Hold. simpl. congruence.
Qed.

Lemma elem_of_overwrite l idx old new item :
  l !! idx = Some old ->
  item ∈ <[idx := new]> l ->
  item = new \/ item ∈ l.
Proof.
  intros Hold Hin. apply list_elem_of_lookup_1 in Hin. destruct Hin as [j Hj].
  apply list_lookup_insert_Some in Hj. destruct Hj as [(_ & <- & _)|[_ Hj]]; [now left|].
  right. eapply list_elem_of_lookup_2; eauto.
Qed.

Lemma elem_of_overwrite_other l idx old new item :
  l !! idx = Some old -> item ∈ l -> item <> old ->
  item ∈ <[idx := new]> l.
Proof.
  intros Hold Hin Hne. apply list_elem_of_lookup_1 in Hin. destruct Hin as [j Hj].
  apply (list_elem_of_lookup_2 _ j). rewrite list_lookup_insert_ne; [exact Hj|].
  intros ->. congruence.
Qed.

Lemma elem_of_insert_mid l idx new item :
  item ∈ take idx l ++ new :: drop idx l <-> item = new \/ item ∈ l.
Proof.
  rewrite elem_of_app, elem_of_cons.
  assert (H : item ∈ l <-> item ∈ take idx l \/ item ∈ drop idx l).
  { rewrite <- elem_of_app. now rewrite take_drop. }
  tauto.
Qed.

Lemma strictly_sorted_insert l k new :
  strictly_sorted_by_key l -> ~ has_key k l -> inode.key new = k ->
  strictly_sorted_by_key (take (lower_bound (map inode.key l) k) l
                          ++ new :: drop (lower_bound (map inode.key l) k) l).
Proof.
  unfold strictly_sorted_by_key, strictly_sorted_keys. intros Hss Hno Hnew.
  pose proof (strictly_sorted_sorted _ Hss) as Hs.
  rewrite map_key_insert, Hnew.
  set (ks := map inode.key l) in *. set (idx := lower_bound ks k).
  assert (Hks : StronglySorted bytes_lt (take idx ks ++ drop idx ks))
    by (now rewrite take_drop).
  apply StronglySorted_app in Hks. destruct Hks as (Hcross & Htake & Hdrop).
  assert (Hnotin : k ∉ ks) by (intros Hin; apply Hno; now apply has_key_elem).
  assert (Hafter : forall y, y ∈ drop idx ks -> bytes_lt k y).
  { intros y Hy. apply list_elem_of_lookup_1 in Hy. destruct Hy as [a Ha].
    rewrite lookup_drop in Ha.
    assert (Hle : bytes_le k y).
    { eapply (lower_bound_after ks k); [exact Hs| |exact Ha]. fold idx. lia. }
    apply bytes_le_lt_or_eq in Hle. destruct Hle as [Hlt|Heq]; [exact Hlt|].
    subst y. exfalso. apply Hnotin. eapply list_elem_of_lookup_2; eauto. }
  assert (Hbefore : forall x, x ∈ take idx ks -> bytes_lt x k).
  { intros x Hx. apply elem_of_take in Hx. destruct Hx as (a & Ha & Hlt).
    eapply lower_bound_before; eauto. }
  apply StronglySorted_app. split; [|split; [exact Htake|]].
  - intros x y Hx Hy. apply elem_of_cons in Hy. destruct Hy as [->|Hy]; auto.
  - apply StronglySorted_cons. split; [|exact Hdrop].
    apply Forall_forall. exact Hafter.
Qed.

Lemma StronglySorted_delete {A} (R : relation A) (l : list A) idx :
  StronglySorted R l -> StronglySorted R (take idx l ++ drop (idx + 1) l).
Proof.
  intros Hs.
  assert (Hks : StronglySorted R (take idx l ++ drop idx l)) by (now rewrite take_drop).
  apply StronglySorted_app in Hks. destruct Hks as (Hcross & Htake & Hdrop).
  assert (Hsub : forall y, y ∈ drop (idx + 1) l -> y ∈ drop idx l).
  { intros y Hy. apply list_elem_of_lookup_1 in Hy. destruct Hy as [a Ha].
    rewrite lookup_drop in Ha. apply (list_elem_of_lookup_2 _ (1 + a)).
    rewrite lookup_drop. rewrite <- Ha. f_equal. lia. }
  apply StronglySorted_app. split; [|split; [exact Htake|]].
  - intros x y Hx Hy. auto.
  - rewrite <- (drop_drop l 1 idx).
    destruct (drop idx l) as [|z rest]; [constructor|].
    simpl. apply StronglySorted_cons in Hdrop. tauto.
Qed.

Lemma map_key_delete l idx :
  map inode.key (take idx l ++ drop (idx + 1) l)
  = take idx (map inode.key l) ++ drop (idx + 1) (map inode.key l).
Proof.
  rewrite map_app.
  change (map inode.key (take idx l)) with (inode.key <$> take idx l).
  change (map inode.key (drop (idx + 1) l)) with (inode.key <$> drop (idx + 1) l).
  now rewrite fmap_take, fmap_drop.
Qed.

Lemma has_key_new l idx k new :
  inode.key new = k -> has_key k (take idx l ++ new :: drop idx l).
Proof.
  intros Hk. exists new. split; [|exact Hk].
  apply elem_of_app. right. left.
Qed.

(** Where [put] leaves the new inode: at the lower bound of the key,
    which is still the lower bound afterwards. *)
Lemma put_at n k v pgid flags :
  sorted_by_key (node.inodes n) ->
  exists l',
    node.put k k v pgid flags n = Some (node.with_inodes l' n) /\
    l' !! lower_bound (map inode.key (node.inodes n)) k = Some (inode.mk flags pgid k v) /\
    sorted_by_key l' /\
    lower_bound (map inode.key l') k = lower_bound (map inode.key (node.inodes n)) k.
Proof.
  intros Hs. destruct (put_spec n k k v pgid flags Hs) as [Hpresent Habsent].
  set (l := node.inodes n) in *. set (idx := lower_bound (map inode.key l) k) in *.
  set (new := inode.mk flags pgid k v) in *.
  pose proof (lower_bound_idx_le l k) as Hidx. fold idx in Hidx.
  destruct (has_key_dec k l) as [Hk|Hk].
  - destruct (Hpresent Hk) as [(old & Hold & Hkey) Hput].
    exists (<[idx := new]> l). split; [exact Hput|].
    assert (Hkeys : map inode.key (<[idx := new]> l) = map inode.key l).
    { apply (map_key_overwrite l idx old new Hold). simpl. congruence. }
    split; [|split].
    + apply list_lookup_insert_eq. eapply lookup_lt_Some; eauto.
    + unfold sorted_by_key. now rewrite Hkeys.
    + now rewrite Hkeys.
  - exists (take idx l ++ new :: drop idx l). split; [exact (Habsent Hk)|].
    split; [|split].
    + rewrite lookup_app_r by (rewrite length_take; lia).
      rewrite length_take. replace (idx - idx `min` length l)%nat with 0%nat by lia.
      reflexivity.
    + unfold idx. now apply sorted_insert.
    + rewrite map_key_insert. simpl inode.key. apply lower_bound_insert.
Qed.
End node_more_facts.

Section node_more_lemmas.
Implicit Types (l : list inode.t) (k : bytes) (n : node.t).

Lemma with_inodes_twice l1 l2 n :
  node.with_inodes l2 (node.with_inodes l1 n) = node.with_inodes l2 n.
Proof. reflexivity. Qed.

Lemma data_len_app l1 l2 : data_len (l1 ++ l2) = (data_len l1 + data_len l2)%nat.
Proof. induction l1 as [|item l1 IH]; simpl; [reflexivity|]. rewrite IH. lia. Qed.

Lemma size_with_inodes l n :
  node.size (node.with_inodes l n)
  = pageHeaderSize + node.pageElementSize n * Z.of_nat (length l) + Z.of_nat (data_len l).
Proof. rewrite size_data_len. reflexivity. Qed.
End node_more_lemmas.

(** X1.  After [put(k, k, v, pgid, flags)] on a node sorted by key, the
    slot at the sorted position of [k] holds exactly the new inode, every
    inode with another key is in the node exactly when it was before, and
    strictly ascending keys stay strictly ascending (so [k] has one
    inode). *)
Theorem put_lookup_others (n : node.t) (k v : bytes) (pgid flags : Z) :
  sorted_by_key (node.inodes n) ->
  exists l',
    node.put k k v pgid flags n = Some (node.with_inodes l' n) /\
    l' !! lower_bound (map inode.key (node.inodes n)) k
      = Some (inode.mk flags pgid k v) /\
    (forall item, inode.key item <> k -> (item ∈ l' <-> item ∈ node.inodes n)) /\
    (strictly_sorted_by_key (node.inodes n) -> strictly_sorted_by_key l').
Proof.
  intros Hs. destruct (put_spec n k k v pgid flags Hs) as [Hpresent Habsent].
  set (l := node.inodes n) in *. set (idx := lower_bound (map inode.key l) k) in *.
  set (new := inode.mk flags pgid k v) in *.
  pose proof (lower_bound_idx_le l k) as Hidx. fold idx in Hidx.
  destruct (has_key_dec k l) as [Hk|Hk].
  - destruct (Hpresent Hk) as [(old & Hold & Hkey) Hput].
    exists (<[idx := new]> l). split; [exact Hput|]. split; [|split].
    + apply list_lookup_insert_eq. eapply lookup_lt_Some; eauto.
    + intros item Hne. split.
      * intros Hin. destruct (elem_of_overwrite l idx old new item Hold Hin) as [->|H]; [|exact H].
        contradiction.
      * intros Hin. eapply elem_of_overwrite_other; eauto. intros ->. contradiction.
    + unfold strictly_sorted_by_key. intros Hss.
      rewrite (map_key_overwrite l idx old new Hold); [exact Hss|]. simpl. congruence.
  - exists (take idx l ++ new :: drop idx l). split; [exact (Habsent Hk)|]. split; [|split].
    + rewrite lookup_app_r by (rewrite length_take; lia).
      rewrite length_take. replace (idx - idx `min` length l)%nat with 0%nat by lia.
      reflexivity.
    + intros item Hne. rewrite elem_of_insert_mid. split; [|tauto].
      intros [->|H]; [contradiction|exact H].
    + intros Hss. now apply strictly_sorted_insert.
Qed.

Lemma put_lookup_others_witness :
  exists l',
    node.put (bs "bar") (bs "bar") (bs "9") 0 0 bar_baz_node
      = Some (node.with_inodes l' bar_baz_node) /\
    l' !! lower_bound (map inode.key (node.inodes bar_baz_node)) (bs "bar")
      = Some (inode.mk 0 0 (bs "bar") (bs "9")) /\
    (forall item, inode.key item <> bs "bar" ->
       (item ∈ l' <-> item ∈ node.inodes bar_baz_node)) /\
    (strictly_sorted_by_key (node.inodes bar_baz_node) -> strictly_sorted_by_key l').
Proof.
  apply (put_lookup_others bar_baz_node (bs "bar") (bs "9") 0 0).
  unfold sorted_by_key, sorted_keys. simpl. repeat constructor; discriminate.
Defined.

(** X2.  On a node sorted by key, two [put]s of the same key in a row
    leave what the second one alone would: the last value wins, and
    putting the same inode twice is the same as putting it once. *)
Theorem put_last_wins (n : node.t) (k v1 v2 : bytes) (p1 p2 f1 f2 : Z) :
  sorted_by_key (node.inodes n) ->
  node.put k k v1 p1 f1 n ≫= node.put k k v2 p2 f2 = node.put k k v2 p2 f2 n.
Proof.
  intros Hs.
  destruct (put_spec n k k v1 p1 f1 Hs) as [Hpresent1 Habsent1].
  destruct (put_spec n k k v2 p2 f2 Hs) as [Hpresent2 Habsent2].
  set (l := node.inodes n) in *. set (idx := lower_bound (map inode.key l) k) in *.
  set (new1 := inode.mk f1 p1 k v1) in *. set (new2 := inode.mk f2 p2 k v2) in *.
  pose proof (lower_bound_idx_le l k) as Hidx. fold idx in Hidx.
  destruct (has_key_dec k l) as [Hk|Hk].
  - destruct (Hpresent1 Hk) as [(old & Hold & Hkey) Hput1].
    destruct (Hpresent2 Hk) as [_ Hput2].
    rewrite Hput1, Hput2. cbn [mbind option_bind].
    set (n1 := node.with_inodes (<[idx := new1]> l) n).
    assert (Hkeys : map inode.key (<[idx := new1]> l) = map inode.key l).
    { apply (map_key_overwrite l idx old new1 Hold). simpl. congruence. }
    assert (Hs1 : sorted_by_key (node.inodes n1)).
    { unfold sorted_by_key. simpl. now rewrite Hkeys. }
    destruct (put_spec n1 k k v2 p2 f2 Hs1) as [Hpresent _].
    simpl node.inodes in Hpresent. rewrite Hkeys in Hpresent. fold idx in Hpresent.
    destruct Hpresent as [_ Hput].
    { exists new1. split; [|reflexivity].
      apply (list_elem_of_lookup_2 _ idx). apply list_lookup_insert_eq.
      eapply lookup_lt_Some; eauto. }
    rewrite Hput. unfold n1. rewrite with_inodes_twice.
    now rewrite list_insert_insert_eq.
  - rewrite (Habsent1 Hk), (Habsent2 Hk). cbn [mbind option_bind].
    set (l1 := take idx l ++ new1 :: drop idx l).
    set (n1 := node.with_inodes l1 n).
    assert (Hkeys : lower_bound (map inode.key l1) k = idx).
    { unfold l1. rewrite map_key_insert. simpl inode.key. apply lower_bound_insert. }
    assert (Hs1 : sorted_by_key (node.inodes n1)).
    { simpl. unfold l1, idx. now apply sorted_insert. }
    destruct (put_spec n1 k k v2 p2 f2 Hs1) as [Hpresent _].
    simpl node.inodes in Hpresent. rewrite Hkeys in Hpresent.
    destruct Hpresent as [_ Hput].
    { unfold l1. now apply has_key_new. }
    rewrite Hput. unfold n1. rewrite with_inodes_twice. f_equal. f_equal.
    unfold l1. rewrite insert_app_r_alt by (rewrite length_take; lia).
    rewrite length_take. replace (idx - idx `min` length l)%nat with 0%nat by lia.
    reflexivity.
Qed.

Lemma put_last_wins_witness :
  node.put (bs "foo") (bs "foo") (bs "0") 0 0 bar_baz_node
    ≫= node.put (bs "foo") (bs "foo") (bs "3") 0 0
  = node.put (bs "foo") (bs "foo") (bs "3") 0 0 bar_baz_node.
Proof.
  apply (put_last_wins bar_baz_node (bs "foo") (bs "0") (bs "3") 0 0 0 0).
  unfold sorted_by_key, sorted_keys. simpl. repeat constructor; discriminate.
Defined.

(** X3.  [del] of a key that a sorted node holds removes the inode at the
    sorted position of the key and nothing else: the node is marked
    unbalanced, has one inode less, stays sorted, keeps every inode with
    another key, and, when the keys were strictly ascending, no longer
    holds the key. *)
Theorem del_removes (n : node.t) (k : bytes) :
  sorted_by_key (node.inodes n) ->
  has_key k (node.inodes n) ->
  exists l',
    node.del k n = Some (node.with_inodes l' (marked_unbalanced n)) /\
    l' = take (lower_bound (map inode.key (node.inodes n)) k) (node.inodes n)
         ++ drop (lower_bound (map inode.key (node.inodes n)) k + 1) (node.inodes n) /\
    Datatypes.S (length l') = length (node.inodes n) /\
    sorted_by_key l' /\
    (forall item, inode.key item <> k -> (item ∈ l' <-> item ∈ node.inodes n)) /\
    (strictly_sorted_by_key (node.inodes n) -> ~ has_key k l').
Proof.
  intros Hs Hk. destruct (del_spec n k Hs) as [Hpresent _].
  set (l := node.inodes n) in *. set (idx := lower_bound (map inode.key l) k) in *.
  destruct (Hpresent Hk) as [(old & Hold & Hkey) Hdel].
  pose proof (lookup_lt_Some _ _ _ Hold) as Hlt.
  exists (take idx l ++ drop (idx + 1) l).
  split; [exact Hdel|]. split; [reflexivity|].
  assert (Hmid : l = take idx l ++ old :: drop (idx + 1) l).
  { replace (idx + 1)%nat with (Datatypes.S idx) by lia.
    symmetry. now apply take_drop_middle. }
  split; [|split; [|split]].
  - rewrite length_app, length_take, length_drop. lia.
  - unfold sorted_by_key, sorted_keys. rewrite map_key_delete.
    now apply StronglySorted_delete.
  - intros item Hne. rewrite Hmid at 3. rewrite !elem_of_app, elem_of_cons.
    split; [tauto|]. intros [H|[->|H]]; [tauto|contradiction|tauto].
  - unfold strictly_sorted_by_key, strictly_sorted_keys. intros Hss (item & Hin & Hik).
    assert (Hold' : map inode.key l !! idx = Some k).
    { rewrite list_lookup_fmap, Hold. simpl. congruence. }
    apply elem_of_app in Hin. destruct Hin as [Hin|Hin].
    + apply elem_of_take in Hin. destruct Hin as (a & Ha & Halt).
      assert (Ha' : map inode.key l !! a = Some k).
      { rewrite list_lookup_fmap, Ha. simpl. congruence. }
      apply (bytes_lt_irrefl k).
      apply (StronglySorted_lookup bytes_lt _ a idx k k Hss Halt Ha' Hold').
    + apply list_elem_of_lookup_1 in Hin. destruct Hin as [a Ha].
      rewrite lookup_drop in Ha.
      assert (Ha' : map inode.key l !! (idx + 1 + a)%nat = Some k).
      { rewrite list_lookup_fmap, Ha. simpl. congruence. }
      apply (bytes_lt_irrefl k).
      apply (StronglySorted_lookup bytes_lt _ idx (idx + 1 + a) k k Hss); [lia|exact Hold'|exact Ha'].
Qed.

Lemma del_removes_witness :
  exists l',
    node.del (bs "bar") bar_baz_node
      = Some (node.with_inodes l' (marked_unbalanced bar_baz_node)) /\
    l' = take (lower_bound (map inode.key (node.inodes bar_baz_node)) (bs "bar"))
           (node.inodes bar_baz_node)
         ++ drop (lower_bound (map inode.key (node.inodes bar_baz_node)) (bs "bar") + 1)
              (node.inodes bar_baz_node) /\
    Datatypes.S (length l') = length (node.inodes bar_baz_node) /\
    sorted_by_key l' /\
    (forall item, inode.key item <> bs "bar" ->
       (item ∈ l' <-> item ∈ node.inodes bar_baz_node)) /\
    (strictly_sorted_by_key (node.inodes bar_baz_node) -> ~ has_key (bs "bar") l').
Proof.
  apply (del_removes bar_baz_node (bs "bar")).
  - unfold sorted_by_key, sorted_keys. simpl. repeat constructor; discriminate.
  - exists (inode.mk 0 0 (bs "bar") (bs "1")). split; [left|reflexivity].
Defined.

(** X4.  [del] of a key that a sorted node does not hold changes
    nothing: the inodes stay and the node is not marked unbalanced. *)
Theorem del_absent (n : node.t) (k : bytes) :
  sorted_by_key (node.inodes n) ->
  ~ has_key k (node.inodes n) ->
  node.del k n = Some n.
Proof.
  intros Hs Hk. destruct (del_spec n k Hs) as [_ Habsent]. exact (Habsent Hk).
Qed.

Lemma del_absent_witness : node.del (bs "foo") bar_baz_node = Some bar_baz_node.
Proof.
  apply (del_absent bar_baz_node (bs "foo")).
  - unfold sorted_by_key, sorted_keys. simpl. repeat constructor; discriminate.
  - intros (item & Hin & Hk).
    repeat (apply elem_of_cons in Hin; destruct Hin as [->|Hin]; [discriminate Hk|]).
    inversion Hin.
Defined.

(** X5.  On a sorted node that does not hold [k], [put] of [k] followed
    by [del] of [k] gives back the inodes the node had; only the
    unbalanced mark is new. *)
Theorem put_del_roundtrip (n : node.t) (k v : bytes) (pgid flags : Z) :
  sorted_by_key (node.inodes n) ->
  ~ has_key k (node.inodes n) ->
  node.put k k v pgid flags n ≫= node.del k = Some (marked_unbalanced n).
Proof.
  intros Hs Hk. destruct (put_spec n k k v pgid flags Hs) as [_ Habsent].
  rewrite (Habsent Hk). cbn [mbind option_bind].
  set (l := node.inodes n) in *. set (idx := lower_bound (map inode.key l) k) in *.
  set (new := inode.mk flags pgid k v) in *.
  pose proof (lower_bound_idx_le l k) as Hidx. fold idx in Hidx.
  set (l1 := take idx l ++ new :: drop idx l).
  set (n1 := node.with_inodes l1 n).
  assert (Hs1 : sorted_by_key (node.inodes n1)).
  { simpl. unfold l1, idx. now apply sorted_insert. }
  destruct (del_spec n1 k Hs1) as [Hpresent _].
  simpl node.inodes in Hpresent.
  assert (Hkeys : lower_bound (map inode.key l1) k = idx).
  { unfold l1. rewrite map_key_insert. simpl inode.key. apply lower_bound_insert. }
  rewrite Hkeys in Hpresent.
  destruct Hpresent as [_ Hdel]; [unfold l1; now apply has_key_new|].
  rewrite Hdel. f_equal.
  assert (Ht : length (take idx l) = idx) by (rewrite length_take; lia).
  assert (Hl1 : take idx l1 ++ drop (idx + 1) l1 = l).
  { unfold l1. rewrite take_app_length' by lia.
    assert (Hd : drop (idx + 1) (take idx l ++ new :: drop idx l) = drop idx l).
    { rewrite drop_app_ge by lia. rewrite Ht.
      replace (idx + 1 - idx)%nat with 1%nat by lia. reflexivity. }
    rewrite Hd. apply take_drop. }
  rewrite Hl1. destruct n. reflexivity.
Qed.

Lemma put_del_roundtrip_witness :
  node.put (bs "foo") (bs "foo") (bs "3") 0 0 bar_baz_node ≫= node.del (bs "foo")
  = Some (marked_unbalanced bar_baz_node).
Proof.
  apply (put_del_roundtrip bar_baz_node (bs "foo") (bs "3") 0 0).
  - unfold sorted_by_key, sorted_keys. simpl. repeat constructor; discriminate.
  - intros (item & Hin & Hk).
    repeat (apply elem_of_cons in Hin; destruct Hin as [->|Hin]; [discriminate Hk|]).
    inversion Hin.
Defined.

(** X6.  After a parent sorted by key has [put] the entry of a child
    under the key [k], [childIndex] of any child that carries the key [k]
    is the index of that entry. *)
Theorem childIndex_put (n child : node.t) (k v : bytes) (pgid flags : Z) :
  sorted_by_key (node.inodes n) ->
  node.key child = k ->
  exists n' idx,
    node.put k k v pgid flags n = Some n' /\
    node.childIndex child n' = Some idx /\
    node.inodes n' !! idx = Some (inode.mk flags pgid k v).
Proof.
  intros Hs Hchild.
  destruct (put_at n k v pgid flags Hs) as (l' & Hput & Hat & Hs' & Hlb).
  exists (node.with_inodes l' n), (lower_bound (map inode.key (node.inodes n)) k).
  split; [exact Hput|].
  unfold node.childIndex. simpl node.inodes. rewrite Hchild.
  rewrite (put_search l' k Hs'), Hlb. split; [reflexivity|exact Hat].
Qed.

Lemma childIndex_put_witness :
  exists n' idx,
    node.put (bs "bar") (bs "bar") (bs "") 7 0 bar_baz_node = Some n' /\
    node.childIndex (node.mk 0 true false (bs "bar") 7 None [] []) n' = Some idx /\
    node.inodes n' !! idx = Some (inode.mk 0 7 (bs "bar") (bs "")).
Proof.
  apply (childIndex_put bar_baz_node (node.mk 0 true false (bs "bar") 7 None [] []) (bs "bar") (bs "") 7 0).
  - unfold sorted_by_key, sorted_keys. simpl. repeat constructor; discriminate.
  - reflexivity.
Defined.

Section size_facts.
Implicit Types (l : list inode.t) (n : node.t).

Lemma data_len_insert l idx new :
  data_len (take idx l ++ new :: drop idx l)
  = (data_len l + length (inode.key new) + length (inode.value new))%nat.
Proof.
  rewrite data_len_app. simpl.
  rewrite <- (take_drop idx l) at 3. rewrite data_len_app. lia.
Qed.

Lemma data_len_overwrite l idx old new :
  l !! idx = Some old ->
  (data_len (<[idx := new]> l) + length (inode.key old) + length (inode.value old)
   = data_len l + length (inode.key new) + length (inode.value new))%nat.
Proof.
  intros Hold. pose proof (lookup_lt_Some _ _ _ Hold) as Hlt.
  rewrite insert_take_drop by exact Hlt.
  rewrite <- (take_drop_middle l idx old Hold) at 3.
  rewrite !data_len_app. simpl. lia.
Qed.
End size_facts.

(** X7.  [put] and [size] account for the same bytes: on a node sorted
    by key, putting an absent key makes the serialized size grow by one
    page element plus the lengths of key and value; putting a present key
    changes the size by the difference of the value lengths and leaves the
    number of inodes. *)
Theorem put_size (n : node.t) (k v : bytes) (pgid flags : Z) :
  sorted_by_key (node.inodes n) ->
  exists n',
    node.put k k v pgid flags n = Some n' /\
    (~ has_key k (node.inodes n) ->
       node.size n' = node.size n + node.pageElementSize n + blen k + blen v /\
       node.numChildren n' = node.numChildren n + 1) /\
    (forall old,
       old ∈ node.inodes n -> inode.key old = k ->
       strictly_sorted_by_key (node.inodes n) ->
       node.size n' = node.size n - blen (inode.value old) + blen v /\
       node.numChildren n' = node.numChildren n).
Proof.
  intros Hs. destruct (put_spec n k k v pgid flags Hs) as [Hpresent Habsent].
  set (l := node.inodes n) in *. set (idx := lower_bound (map inode.key l) k) in *.
  set (new := inode.mk flags pgid k v) in *.
  assert (Hn : node.size n
               = pageHeaderSize + node.pageElementSize n * Z.of_nat (length l)
                 + Z.of_nat (data_len l)) by apply size_data_len.
  destruct (has_key_dec k l) as [Hk|Hk].
  - destruct (Hpresent Hk) as [(old & Hold & Hkey) Hput].
    exists (node.with_inodes (<[idx := new]> l) n). split; [exact Hput|].
    split; [intros Hno; contradiction|].
    intros old' Hin' Hkey' Hss.
    assert (old' = old).
    { apply list_elem_of_lookup_1 in Hin'. destruct Hin' as [j Hj].
      destruct (Nat.lt_trichotomy j idx) as [Hlt|[->|Hgt]]; [exfalso| congruence |exfalso].
      - apply (bytes_lt_irrefl k).
        apply (StronglySorted_lookup bytes_lt (map inode.key l) j idx k k Hss Hlt).
        + rewrite list_lookup_fmap, Hj. simpl. congruence.
        + rewrite list_lookup_fmap, Hold. simpl. congruence.
      - apply (bytes_lt_irrefl k).
        apply (StronglySorted_lookup bytes_lt (map inode.key l) idx j k k Hss Hgt).
        + rewrite list_lookup_fmap, Hold. simpl. congruence.
        + rewrite list_lookup_fmap, Hj. simpl. congruence. }
    subst old'.
    rewrite size_with_inodes, Hn. unfold node.numChildren. simpl node.inodes.
    rewrite length_insert. fold l.
    pose proof (data_len_overwrite l idx old new Hold) as Hd.
    simpl inode.key in Hd. simpl inode.value in Hd. rewrite Hkey in Hd.
    unfold blen. split; [lia|reflexivity].
  - exists (node.with_inodes (take idx l ++ new :: drop idx l) n).
    split; [exact (Habsent Hk)|]. split.
    + intros _. rewrite size_with_inodes, Hn. unfold node.numChildren. simpl node.inodes.
      pose proof (lower_bound_idx_le l k) as Hidx. fold idx in Hidx.
      rewrite data_len_insert. simpl inode.key. simpl inode.value.
      rewrite length_app, length_take. simpl length. rewrite length_drop. fold l.
      unfold blen. split; [nia|lia].
    + intros old Hin Hkey. exfalso. apply Hk. exists old. auto.
Qed.

Lemma put_size_witness :
  exists n',
    node.put (bs "foo") (bs "foo") (bs "3") 0 0 bar_baz_node = Some n' /\
    (~ has_key (bs "foo") (node.inodes bar_baz_node) ->
       node.size n' = node.size bar_baz_node + node.pageElementSize bar_baz_node
                      + blen (bs "foo") + blen (bs "3") /\
       node.numChildren n' = node.numChildren bar_baz_node + 1) /\
    (forall old,
       old ∈ node.inodes bar_baz_node -> inode.key old = bs "foo" ->
       strictly_sorted_by_key (node.inodes bar_baz_node) ->
       node.size n' = node.size bar_baz_node - blen (inode.value old) + blen (bs "3") /\
       node.numChildren n' = node.numChildren bar_baz_node).
Proof.
  apply (put_size bar_baz_node (bs "foo") (bs "3") 0 0).
  unfold sorted_by_key, sorted_keys. simpl. repeat constructor; discriminate.
Defined.

Section removeChild_facts.
Lemma remove_first_absent (target : addr) (l : list addr) :
  target ∉ l -> remove_first target l = l.
Proof.
  induction l as [|c l IH]; intros Hno; simpl; [reflexivity|].
  destruct (decide (c = target)) as [->|Hne].
  - exfalso. apply Hno. left.
  - f_equal. apply IH. intros Hin. apply Hno. now right.
Qed.

Lemma remove_first_at (target : addr) (l : list addr) (i : nat) :
  l !! i = Some target ->
  (forall j, (j < i)%nat -> l !! j <> Some target) ->
  remove_first target l = take i l ++ drop (Datatypes.S i) l.
Proof.
  revert i. induction l as [|c l IH]; intros i Hi Hfirst; [discriminate|].
  simpl. destruct (decide (c = target)) as [->|Hne].
  - destruct i as [|i]; [reflexivity|].
    exfalso. apply (Hfirst 0%nat); [lia|reflexivity].
  - destruct i as [|i]; [simpl in Hi; congruence|].
    simpl. f_equal. apply IH; [exact Hi|].
    intros j Hj. apply (Hfirst (Datatypes.S j)). lia.
Qed.
End removeChild_facts.

(** X8.  [removeChild] cuts the first occurrence of [target] out of the
    children of [n] and nothing else: the children before and after it
    keep their order, a later occurrence stays, the inodes and every other
    node are untouched; when [target] is not a child the state is
    unchanged. *)
Theorem removeChild_first (n target : addr) (st : state) (nn : node.t) :
  heap st !! n = Some nn ->
  exists st',
    removeChild n target st = Some st' /\
    (target ∉ node.children nn -> st' = st) /\
    (forall i,
       node.children nn !! i = Some target ->
       (forall j, (j < i)%nat -> node.children nn !! j <> Some target) ->
       children_at st' n
       = take i (node.children nn) ++ drop (Datatypes.S i) (node.children nn)) /\
    inodes_at st' n = node.inodes nn /\
    parent_at st' n = node.parent nn /\
    (forall a, a <> n -> heap st' !! a = heap st !! a) /\
    stat_Split st' = stat_Split st.
Proof.
  intros Hn. unfold removeChild. rewrite Hn. cbn [mbind option_bind].
  eexists. split; [reflexivity|].
  assert (Hat : heap (set_node n (node.with_children
                   (remove_first target (node.children nn)) nn) st) !! n
                = Some (node.with_children (remove_first target (node.children nn)) nn)).
  { eapply set_lookup_same; eauto. }
  split; [|split; [|split; [|split; [|split]]]].
  - intros Hno. rewrite remove_first_absent by exact Hno.
    unfold set_node. destruct st as [h s]. simpl in *. f_equal.
    apply list_insert_id. rewrite Hn. destruct nn; reflexivity.
  - intros i Hi Hfirst. unfold children_at. rewrite Hat. simpl.
    now apply remove_first_at.
  - unfold inodes_at. now rewrite Hat.
  - unfold parent_at. now rewrite Hat.
  - intros a Ha. now apply set_lookup_other.
  - reflexivity.
Qed.

Lemma removeChild_first_witness :
  exists st',
    removeChild 0 2 (mkState [node.mk 0 false false [] 0 None [1; 2; 3; 2]%nat []] 0)
      = Some st' /\
    (2%nat ∉ [1; 2; 3; 2]%nat ->
       st' = mkState [node.mk 0 false false [] 0 None [1; 2; 3; 2]%nat []] 0) /\
    (forall i,
       [1; 2; 3; 2]%nat !! i = Some 2%nat ->
       (forall j, (j < i)%nat -> [1; 2; 3; 2]%nat !! j <> Some 2%nat) ->
       children_at st' 0 = take i [1; 2; 3; 2]%nat ++ drop (Datatypes.S i) [1; 2; 3; 2]%nat) /\
    inodes_at st' 0 = [] /\
    parent_at st' 0 = None /\
    (forall a, a <> 0%nat ->
       heap st' !! a
       = heap (mkState [node.mk 0 false false [] 0 None [1; 2; 3; 2]%nat []] 0) !! a) /\
    stat_Split st' = 0.
Proof.
  apply (removeChild_first 0 2
           (mkState [node.mk 0 false false [] 0 None [1; 2; 3; 2]%nat []] 0)
           (node.mk 0 false false [] 0 None [1; 2; 3; 2]%nat [])).
  reflexivity.
Defined.

(** * Further properties of [split] *)

Section split_group_facts.
(** Every group of the walk has at least [minKeysPerPage] inodes, and
    the last one has more unless no cut was made. *)
Lemma spec_walk_min E threshold total rest :
  forall i running current,
    (2 <= length current + length rest)%nat ->
    Z.of_nat (length rest) + i = total ->
    Forall (fun g : list inode.t => (2 <= length g)%nat)
      (spec_walk Z.ltb E threshold total i running current rest).
Proof.
  induction rest as [|item rest IH]; intros i running current Hlen Htot.
  - simpl in *. constructor; [lia|constructor].
  - simpl spec_walk.
    destruct ((minKeysPerPage <=? Z.of_nat (length current))
              && (i <? total - minKeysPerPage)
              && (threshold <? running + (E + blen (inode.key item) + blen (inode.value item))))
      eqn:Hcond.
    + apply andb_true_iff in Hcond. destruct Hcond as [Hcond _].
      apply andb_true_iff in Hcond. destruct Hcond as [Hc1 Hc2].
      apply Z.leb_le in Hc1. apply Z.ltb_lt in Hc2.
      unfold minKeysPerPage in *. simpl length in Htot.
      constructor; [lia|].
      apply IH; simpl length; lia.
    + apply IH; [rewrite length_app; simpl length in *; lia|simpl length in Htot; lia].
Qed.

Lemma spec_walk_nonempty within E threshold total rest :
  forall i running current,
    spec_walk within E threshold total i running current rest <> [].
Proof.
  induction rest as [|item rest IH]; intros i running current; simpl; [discriminate|].
  destruct (_ && _ && _); [discriminate|apply IH].
Qed.

Lemma spec_walk_last E threshold total rest :
  forall i running current g,
    Z.of_nat (length rest) + i = total ->
    last (spec_walk Z.ltb E threshold total i running current rest) = Some g ->
    (3 <= length g)%nat \/ g = current ++ rest.
Proof.
  induction rest as [|item rest IH]; intros i running current g Htot Hlast.
  - simpl in Hlast. inversion Hlast. right. now rewrite app_nil_r.
  - simpl spec_walk in Hlast.
    destruct ((minKeysPerPage <=? Z.of_nat (length current))
              && (i <? total - minKeysPerPage)
              && (threshold <? running + (E + blen (inode.key item) + blen (inode.value item))))
      eqn:Hcond.
    + apply andb_true_iff in Hcond. destruct Hcond as [Hcond _].
      apply andb_true_iff in Hcond. destruct Hcond as [_ Hc2].
      apply Z.ltb_lt in Hc2. unfold minKeysPerPage in *. simpl length in Htot.
      rewrite last_cons in Hlast.
      destruct (last (spec_walk Z.ltb E threshold total (i + 1)
                        (pageHeaderSize + (E + blen (inode.key item) + blen (inode.value item)))
                        [item] rest)) as [g'|] eqn:Hl'.
      * inversion Hlast; subst g'.
        assert (Htot' : Z.of_nat (length rest) + (i + 1) = total) by lia.
        destruct (IH _ _ _ _ Htot' Hl') as [H3|Heq]; [now left|].
        left. subst g. simpl length. lia.
      * exfalso. apply last_None in Hl'. revert Hl'. apply spec_walk_nonempty.
    + simpl length in Htot.
      assert (Htot' : Z.of_nat (length rest) + (i + 1) = total) by lia.
      destruct (IH _ _ _ _ Htot' Hlast) as [H3|Heq]; [now left|].
      right. rewrite Heq. now rewrite <- app_assoc.
Qed.
End split_group_facts.

(** X9.  [split] never leaves a node short of keys: when [n] holds at
    least [minKeysPerPage] inodes, so does every returned node, and when
    more than one node is returned the last one holds more than
    [minKeysPerPage]. *)
Theorem split_min_keys (pageSize : Z) (n : addr) (st : state) (nn : node.t) :
  node_in st n nn ->
  minKeysPerPage <= Z.of_nat (length (node.inodes nn)) ->
  exists nodes st',
    split pageSize n st = Some (nodes, st') /\
    (forall a, a ∈ nodes -> minKeysPerPage <= Z.of_nat (length (inodes_at st' a))) /\
    (forall a, (1 < length nodes)%nat -> last nodes = Some a ->
       minKeysPerPage < Z.of_nat (length (inodes_at st' a))).
Proof.
  intros Hin Hmin.
  destruct (split_spec pageSize n st nn Hin)
    as (nodes & st' & more & Hsplit & Hnodes & Hnot & Hmap & _ & _).
  exists nodes, st'. split; [exact Hsplit|].
  assert (Hall : Forall (fun g : list inode.t => (2 <= length g)%nat)
                   (spec_split Z.ltb pageSize nn)).
  { unfold spec_split. destruct (spec_not_split pageSize nn).
    - constructor; [|constructor]. unfold minKeysPerPage in Hmin. lia.
    - apply spec_walk_min; [simpl; unfold minKeysPerPage in Hmin; lia|lia]. }
  rewrite <- Hmap in Hall. split.
  - intros a Ha. rewrite Forall_forall in Hall.
    specialize (Hall (inodes_at st' a)). unfold minKeysPerPage.
    enough (2 <= length (inodes_at st' a))%nat by lia.
    apply Hall. now apply (list_elem_of_fmap_2 (inodes_at st')).
  - intros a Hlen Hlast.
    assert (Hlast' : last (spec_split Z.ltb pageSize nn) = Some (inodes_at st' a)).
    { rewrite <- Hmap. change (map (inodes_at st') nodes) with (inodes_at st' <$> nodes).
      rewrite fmap_last, Hlast. reflexivity. }
    unfold spec_split in Hlast', Hmap.
    destruct (spec_not_split pageSize nn) eqn:Hns.
    + destruct (Hnot eq_refl) as [-> _]. subst nodes. simpl in Hlen. lia.
    + assert (Htot : Z.of_nat (length (node.inodes nn)) + 0
                     = Z.of_nat (length (node.inodes nn))) by lia.
      destruct (spec_walk_last _ _ _ _ _ _ _ _ Htot Hlast') as [H3|Heq].
      * unfold minKeysPerPage. lia.
      * exfalso. simpl in Heq.
        (* the last group is everything, so it is the only group *)
        pose proof (concat_spec_walk Z.ltb (node.pageElementSize nn) (Z.quot pageSize 2)
                      (Z.of_nat (length (node.inodes nn))) (node.inodes nn) 0 pageHeaderSize [])
          as Hc.
        rewrite <- Hmap in Hc. simpl in Hc.
        subst nodes. destruct more as [|m more]; [simpl in Hlen; lia|].
        rewrite Forall_forall in Hall.
        assert (H1 : (2 <= length (inodes_at st' n))%nat).
        { apply Hall. simpl. left. }
        apply (f_equal (@length inode.t)) in Hc.
        simpl in Hc. rewrite length_app in Hc.
        assert (Hge : (length (inodes_at st' a) <= length (concat (map (inodes_at st') (m :: more))))%nat).
        { clear -Hlast. rewrite last_cons in Hlast.
          destruct (last (m :: more)) as [z|] eqn:Hl; [|apply last_None in Hl; discriminate].
          inversion Hlast; subst z. apply last_Some in Hl. destruct Hl as [pre Hl].
          rewrite Hl, map_app, concat_app, length_app. simpl. rewrite length_app. lia. }
        rewrite Heq in Hge. simpl in Hge. lia.
Qed.

Lemma split_min_keys_witness :
  exists nodes st',
    split 100 0 six_state = Some (nodes, st') /\
    (forall a, a ∈ nodes -> minKeysPerPage <= Z.of_nat (length (inodes_at st' a))) /\
    (forall a, (1 < length nodes)%nat -> last nodes = Some a ->
       minKeysPerPage < Z.of_nat (length (inodes_at st' a))).
Proof.
  apply (split_min_keys 100 0 six_state six_node).
  - split; [reflexivity|]. intros p Hp. discriminate Hp.
  - vm_compute. discriminate.
Defined.

Section split_link_facts.
Implicit Types (st : state) (v : split_vars) (n a c p : addr) (x y : node.t).

Lemma parent_at_lookup st a x : heap st !! a = Some x -> parent_at st a = node.parent x.
Proof. intros H. unfold parent_at. now rewrite H. Qed.

Lemma children_at_lookup st a x : heap st !! a = Some x -> children_at st a = node.children x.
Proof. intros H. unfold children_at. now rewrite H. Qed.

Lemma parent_at_Some st a p :
  parent_at st a = Some p -> exists x, heap st !! a = Some x /\ node.parent x = Some p.
Proof.
  unfold parent_at. destruct (heap st !! a) as [x|]; [|discriminate]. simpl. eauto.
Qed.

(** Appending an inode to a node changes no link. *)
Lemma links_set_inodes st a x l :
  heap st !! a = Some x ->
  forall b,
    parent_at (set_node a (node.with_inodes l x) st) b = parent_at st b /\
    children_at (set_node a (node.with_inodes l x) st) b = children_at st b /\
    (is_Some (heap st !! b) -> is_Some (heap (set_node a (node.with_inodes l x) st) !! b)).
Proof.
  intros Hx b. unfold parent_at, children_at. destruct (decide (a = b)) as [<-|Hne].
  - rewrite (set_lookup_same st a x _ Hx), Hx. simpl. auto.
  - rewrite set_lookup_other by exact Hne. auto.
Qed.

(** The cut when [n] has a parent. *)
Lemma split_cut_parent n st v nn p pn :
  heap st !! n = Some nn -> node.parent nn = Some p -> heap st !! p = Some pn ->
  split_cut n st v
  = Some (mkState
            (<[p := node.with_children (node.children pn ++ [length (heap st)]) pn]>
               (heap st ++ [node.mk (node.bucket nn) (node.isLeaf nn) false [] 0
                              (Some p) [] []]))
            (stat_Split st + 1),
          mkVars pageHeaderSize (length (heap st)) (v_nodes v ++ [length (heap st)])).
Proof.
  intros Hn Hp Hpn. unfold split_cut, ensure_parent.
  rewrite Hn. cbn [mbind option_bind]. rewrite Hp. cbn [mbind option_bind].
  rewrite Hn. cbn [mbind option_bind]. rewrite Hp. cbn [mbind option_bind].
  unfold alloc_node. cbn [heap stat_Split].
  rewrite lookup_app_l by (eapply lookup_lt_Some; eauto).
  rewrite Hpn. reflexivity.
Qed.

(** The cut when [n] has no parent: the parent is created at the next
    free address, the sibling right after it. *)
Lemma split_cut_orphan n st v nn :
  heap st !! n = Some nn -> node.parent nn = None ->
  split_cut n st v
  = Some (mkState
            (<[length (heap st) :=
                 node.mk (node.bucket nn) false false [] 0 None
                   [n; Datatypes.S (length (heap st))] []]>
               (<[n := node.with_parent (Some (length (heap st))) nn]>
                  (heap st ++ [node.mk (node.bucket nn) false false [] 0 None [n] []])
                ++ [node.mk (node.bucket nn) (node.isLeaf nn) false [] 0
                      (Some (length (heap st))) [] []]))
            (stat_Split st + 1),
          mkVars pageHeaderSize (Datatypes.S (length (heap st)))
            (v_nodes v ++ [Datatypes.S (length (heap st))])).
Proof.
  intros Hn Hp. unfold split_cut, ensure_parent.
  rewrite Hn. cbn [mbind option_bind]. rewrite Hp.
  unfold alloc_node. cbn [heap stat_Split mbind option_bind set_node].
  pose proof (lookup_lt_Some _ _ _ Hn) as Hlt.
  assert (Hn' : <[n := node.with_parent (Some (length (heap st))) nn]>
                  (heap st ++ [node.mk (node.bucket nn) false false [] 0 None [n] []]) !! n
                = Some (node.with_parent (Some (length (heap st))) nn)).
  { apply list_lookup_insert_eq. rewrite length_app. simpl. lia. }
  rewrite Hn'. cbn [mbind option_bind node.parent node.with_parent].
  rewrite length_insert, length_app. simpl length.
  replace (length (heap st) + 1)%nat with (Datatypes.S (length (heap st))) by lia.
  assert (Hp' : (<[n := node.with_parent (Some (length (heap st))) nn]>
                   (heap st ++ [node.mk (node.bucket nn) false false [] 0 None [n] []])
                 ++ [node.mk (node.bucket
                               (node.with_parent (Some (length (heap st))) nn))
                       (node.isLeaf (node.with_parent (Some (length (heap st))) nn))
                       false [] 0 (Some (length (heap st))) [] []]) !! length (heap st)
                = Some (node.mk (node.bucket nn) false false [] 0 None [n] [])).
  { rewrite lookup_app_l by (rewrite length_insert, length_app; simpl; lia).
    rewrite list_lookup_insert_ne by lia.
    rewrite lookup_app_r by lia. now rewrite Nat.sub_diag. }
  rewrite Hp'. reflexivity.
Qed.

Lemma linked_set_inodes n p base added st a x l :
  heap st !! a = Some x ->
  linked n p base added st ->
  linked n p base added (set_node a (node.with_inodes l x) st).
Proof.
  intros Hx (Hpar & Hch & Hadded & Hp).
  pose proof (links_set_inodes st a x l Hx) as Hl.
  split; [|split; [|split]].
  - rewrite (proj1 (Hl n)). exact Hpar.
  - rewrite (proj1 (proj2 (Hl p))). exact Hch.
  - intros c Hc. rewrite (proj1 (Hl c)). auto.
  - now apply (Hl p).
Qed.

(** What the cut under an existing parent leaves of the links. *)
Lemma cut_parent_frame st p pn cs new s :
  heap st !! p = Some pn ->
  let st1 := mkState (<[p := node.with_children cs pn]> (heap st ++ [new])) s in
  (forall b, is_Some (heap st !! b) ->
     parent_at st1 b = parent_at st b /\ is_Some (heap st1 !! b)) /\
  children_at st1 p = cs /\
  parent_at st1 (length (heap st)) = node.parent new.
Proof.
  intros Hpn st1. pose proof (lookup_lt_Some _ _ _ Hpn) as Hlt.
  assert (Hp1 : heap st1 !! p = Some (node.with_children cs pn)).
  { unfold st1. simpl. apply list_lookup_insert_eq. rewrite length_app. simpl. lia. }
  split; [|split].
  - intros b [y Hy]. destruct (decide (p = b)) as [<-|Hne].
    + unfold parent_at. rewrite Hp1, Hpn. simpl. eauto.
    + unfold parent_at, st1. simpl. rewrite list_lookup_insert_ne by exact Hne.
      rewrite lookup_app_l by (eapply lookup_lt_Some; eauto). rewrite Hy. eauto.
  - unfold children_at. now rewrite Hp1.
  - unfold parent_at, st1. simpl. rewrite list_lookup_insert_ne by lia.
    rewrite lookup_app_r by lia. now rewrite Nat.sub_diag.
Qed.

(** Once [n] has a parent, the loop of [split] hangs every node it
    creates under that parent, in the order of creation. *)
Lemma split_loop_linked pageSize n total rest :
  forall i st v st' v' p base added,
    linked n p base added st ->
    split_loop pageSize n total i rest st v = Some (st', v') ->
    exists more,
      v_nodes v' = v_nodes v ++ more /\
      linked n p base (added ++ more) st' /\
      (forall b, is_Some (heap st !! b) -> parent_at st' b = parent_at st b).
Proof.
  induction rest as [|item rest IH]; intros i st v st' v' p base added Hlk Hloop.
  - rewrite split_loop_nil in Hloop. inversion Hloop; subst st' v'.
    exists []. rewrite !app_nil_r. auto.
  - rewrite split_loop_cons in Hloop.
    destruct (heap st !! n) as [nn|] eqn:Hn; [|discriminate].
    destruct (heap st !! v_current v) as [cur|] eqn:Hcur; [|discriminate].
    cbn [mbind option_bind] in Hloop. cbv zeta in Hloop.
    destruct Hlk as (Hpar & Hch & Hadded & [pn Hpn]).
    assert (Hnp : node.parent nn = Some p).
    { rewrite (parent_at_lookup _ _ _ Hn) in Hpar. exact Hpar. }
    destruct ((minKeysPerPage <=? Z.of_nat (length (node.inodes cur)))
              && (i <? total - minKeysPerPage)
              && (Z.quot pageSize 2
                  <? v_size v + (node.pageElementSize nn + blen (inode.key item)
                                 + blen (inode.value item)))).
    + rewrite (split_cut_parent n st v nn p pn Hn Hnp Hpn) in Hloop.
      cbn [mbind option_bind v_current v_size v_nodes] in Hloop.
      set (new := node.mk _ _ _ _ _ _ _ _) in Hloop.
      set (cs := (node.children pn ++ [length (heap st)])) in Hloop.
      destruct (cut_parent_frame st p pn cs new (stat_Split st + 1) Hpn)
        as (Hframe & Hcs & Hnew).
      set (st1 := mkState _ _) in *.
      destruct (heap st1 !! length (heap st)) as [cur1|] eqn:Hcur1; [|discriminate].
      cbn [mbind option_bind] in Hloop.
      assert (Hlk1 : linked n p base (added ++ [length (heap st)]) st1).
      { split; [|split; [|split]].
        - rewrite (proj1 (Hframe n ltac:(eauto))). exact Hpar.
        - rewrite Hcs. unfold cs.
          rewrite (children_at_lookup _ _ _ Hpn) in Hch. rewrite Hch.
          now rewrite app_assoc.
        - intros c Hc. apply elem_of_app in Hc. destruct Hc as [Hc|Hc].
          + specialize (Hadded c Hc). destruct (parent_at_Some _ _ _ Hadded) as (x & Hx & _).
            rewrite (proj1 (Hframe c ltac:(eauto))). exact Hadded.
          + apply list_elem_of_singleton in Hc. subst c. rewrite Hnew. reflexivity.
        - apply (Hframe p). eauto. }
      apply (linked_set_inodes _ _ _ _ _ _ _ (node.inodes cur1 ++ [item]) Hcur1) in Hlk1.
      destruct (IH _ _ _ _ _ _ _ _ Hlk1 Hloop) as (more & Hv & Hlk' & Hfr').
      exists (length (heap st) :: more). simpl v_nodes in Hv.
      split; [rewrite Hv, <- app_assoc; reflexivity|].
      split; [rewrite <- app_assoc in Hlk'; exact Hlk'|].
      intros b Hb. destruct (Hframe b Hb) as [Hb1 Hb2].
      rewrite Hfr'.
      * rewrite (proj1 (links_set_inodes st1 _ cur1 _ Hcur1 b)). exact Hb1.
      * now apply (links_set_inodes st1 _ cur1 _ Hcur1 b).
    + cbn [mbind option_bind] in Hloop. rewrite Hcur in Hloop.
      cbn [mbind option_bind] in Hloop.
      assert (Hlk0 : linked n p base added st) by (repeat split; eauto).
      apply (linked_set_inodes _ _ _ _ _ _ _ (node.inodes cur ++ [item]) Hcur) in Hlk0.
      destruct (IH _ _ _ _ _ _ _ _ Hlk0 Hloop) as (more & Hv & Hlk' & Hfr').
      exists more. split; [exact Hv|]. split; [exact Hlk'|].
      intros b Hb. rewrite Hfr'.
      * apply (links_set_inodes st _ cur _ Hcur b).
      * now apply (links_set_inodes st _ cur _ Hcur b).
Qed.

(** While [n] has no parent, the first cut creates one at the next free
    address, with [n] as its first child. *)
Lemma split_loop_orphan pageSize n total rest :
  forall i st v st' v' nn,
    heap st !! n = Some nn -> node.parent nn = None ->
    split_loop pageSize n total i rest st v = Some (st', v') ->
    exists more,
      v_nodes v' = v_nodes v ++ more /\
      (more = [] \/
       (linked n (length (heap st)) [n] more st' /\
        parent_at st' (length (heap st)) = None)).
Proof.
  induction rest as [|item rest IH]; intros i st v st' v' nn Hn Hnp Hloop.
  - rewrite split_loop_nil in Hloop. inversion Hloop; subst st' v'.
    exists []. rewrite app_nil_r. auto.
  - rewrite split_loop_cons in Hloop. rewrite Hn in Hloop.
    destruct (heap st !! v_current v) as [cur|] eqn:Hcur; [|discriminate].
    cbn [mbind option_bind] in Hloop. cbv zeta in Hloop.
    pose proof (lookup_lt_Some _ _ _ Hn) as Hlt.
    destruct ((minKeysPerPage <=? Z.of_nat (length (node.inodes cur)))
              && (i <? total - minKeysPerPage)
              && (Z.quot pageSize 2
                  <? v_size v + (node.pageElementSize nn + blen (inode.key item)
                                 + blen (inode.value item)))).
    + rewrite (split_cut_orphan n st v nn Hn Hnp) in Hloop.
      cbn [mbind option_bind v_current v_size v_nodes] in Hloop.
      set (p := length (heap st)) in *.
      set (par := node.mk (node.bucket nn) false false [] 0 None [n] []) in Hloop.
      set (par' := node.mk (node.bucket nn) false false [] 0 None [n; Datatypes.S p] []) in Hloop.
      set (new := node.mk (node.bucket nn) (node.isLeaf nn) false [] 0 (Some p) [] []) in Hloop.
      set (h1 := <[p := par']> (<[n := node.with_parent (Some p) nn]> (heap st ++ [par]) ++ [new]))
        in Hloop.
      set (st1 := mkState h1 (stat_Split st + 1)) in Hloop.
      assert (Hlen0 : length (<[n := node.with_parent (Some p) nn]> (heap st ++ [par]))
                      = Datatypes.S p).
      { rewrite length_insert, length_app. simpl. lia. }
      assert (Hp1 : heap st1 !! p = Some par').
      { unfold st1, h1. simpl. apply list_lookup_insert_eq. rewrite length_app, Hlen0. lia. }
      assert (Hn1 : heap st1 !! n = Some (node.with_parent (Some p) nn)).
      { unfold st1, h1. simpl. rewrite list_lookup_insert_ne by lia.
        rewrite lookup_app_l by lia.
        apply list_lookup_insert_eq. rewrite length_app. simpl. lia. }
      assert (Hc1 : heap st1 !! Datatypes.S p = Some new).
      { unfold st1, h1. simpl. rewrite list_lookup_insert_ne by lia.
        rewrite lookup_app_r by lia. rewrite Hlen0. now rewrite Nat.sub_diag. }
      rewrite Hc1 in Hloop. cbn [mbind option_bind] in Hloop.
      assert (Hlk1 : linked n p [n] [Datatypes.S p] st1).
      { split; [|split; [|split]].
        - now rewrite (parent_at_lookup _ _ _ Hn1).
        - now rewrite (children_at_lookup _ _ _ Hp1).
        - intros c Hc. apply list_elem_of_singleton in Hc. subst c.
          now rewrite (parent_at_lookup _ _ _ Hc1).
        - eauto. }
      apply (linked_set_inodes _ _ _ _ _ _ _ (node.inodes new ++ [item]) Hc1) in Hlk1.
      destruct (split_loop_linked _ _ _ _ _ _ _ _ _ _ _ _ Hlk1 Hloop) as (more & Hv & Hlk' & Hfr').
      exists (Datatypes.S p :: more). simpl v_nodes in Hv.
      split; [rewrite Hv, <- app_assoc; reflexivity|].
      right. split; [exact Hlk'|].
      rewrite Hfr'.
      * rewrite (proj1 (links_set_inodes st1 _ new _ Hc1 p)).
        now rewrite (parent_at_lookup _ _ _ Hp1).
      * apply (links_set_inodes st1 _ new _ Hc1 p). eauto.
    + cbn [mbind option_bind] in Hloop. rewrite Hcur in Hloop.
      cbn [mbind option_bind] in Hloop.
      set (st2 := set_node (v_current v) (node.with_inodes (node.inodes cur ++ [item]) cur) st)
        in Hloop.
      assert (Hlen : length (heap st2) = length (heap st)).
      { unfold st2, set_node. simpl. apply length_insert. }
      assert (Hn2 : exists nn2, heap st2 !! n = Some nn2 /\ node.parent nn2 = None).
      { destruct (decide (v_current v = n)) as [Heq|Hne].
        - exists (node.with_inodes (node.inodes cur ++ [item]) cur). split.
          + unfold st2. rewrite Heq. rewrite Heq in Hcur. eapply set_lookup_same; eauto.
          + simpl. rewrite Heq in Hcur. congruence.
        - exists nn. split; [|exact Hnp]. unfold st2. now rewrite set_lookup_other. }
      destruct Hn2 as (nn2 & Hn2 & Hnp2).
      destruct (IH _ _ _ _ _ _ Hn2 Hnp2 Hloop) as (more & Hv & Hor).
      exists more. split; [exact Hv|]. rewrite Hlen in Hor. exact Hor.
Qed.
End split_link_facts.

(** X10.  The nodes that [split] creates are siblings of [n]: when more
    than one node is returned, [n] and every new node have the same
    parent, the new nodes are appended to the children of that parent in
    the order in which they are returned, and the Split statistic has
    grown by their number.  The parent is the one [n] had, or else a new
    parentless node whose children start with [n], which then is the
    [root] of every returned node. *)
Theorem split_links (pageSize : Z) (n : addr) (st : state) (nn : node.t) :
  node_in st n nn ->
  exists more st',
    split pageSize n st = Some (n :: more, st') /\
    stat_Split st' = stat_Split st + Z.of_nat (length more) /\
    (more <> [] ->
     let p := default (length (heap st)) (node.parent nn) in
     parent_at st' n = Some p /\
     (forall c, c ∈ more -> parent_at st' c = Some p) /\
     children_at st' p
       = match node.parent nn with Some _ => children_at st p | None => [n] end ++ more /\
     (node.parent nn = None ->
      heap st !! p = None /\
      forall a, a ∈ n :: more -> root 2 a st' = Done p)).
Proof.
  intros Hin.
  destruct (split_spec pageSize n st nn Hin)
    as (nodes & st' & more & Hsplit & Hnodes & Hnot & _ & _ & Hstat).
  subst nodes. exists more, st'. split; [exact Hsplit|]. split; [exact Hstat|].
  intros Hmore. destruct Hin as [Hn Hp].
  unfold split in Hsplit. rewrite Hn in Hsplit. cbn [mbind option_bind] in Hsplit.
  rewrite spec_not_split_code in Hsplit.
  destruct (spec_not_split pageSize nn) eqn:Hns.
  { destruct (Hnot eq_refl) as [-> _]. contradiction. }
  cbv zeta in Hsplit.
  set (st0 := set_node n (node.with_inodes [] nn) st) in Hsplit.
  destruct (split_loop pageSize n (Z.of_nat (length (node.inodes nn))) 0
              (node.inodes nn) st0 (mkVars pageHeaderSize n [n]))
    as [[st1 v1]|] eqn:Hloop; [|discriminate].
  cbn [mbind option_bind] in Hsplit. inversion Hsplit as [[Hv Hst]]. subst st1.
  assert (Hn0 : heap st0 !! n = Some (node.with_inodes [] nn)).
  { unfold st0. eapply set_lookup_same; eauto. }
  pose proof (links_set_inodes st n nn [] Hn) as Hl0. fold st0 in Hl0.
  assert (Hlen0 : length (heap st0) = length (heap st)).
  { unfold st0, set_node. simpl. apply length_insert. }
  destruct (node.parent nn) as [p0|] eqn:Hpar; simpl default.
  - destruct (Hp p0 eq_refl) as [pn Hpn].
    assert (Hlk0 : linked n p0 (children_at st p0) [] st0).
    { split; [|split; [|split]].
      - rewrite (proj1 (Hl0 n)). rewrite (parent_at_lookup _ _ _ Hn). exact Hpar.
      - rewrite (proj1 (proj2 (Hl0 p0))). now rewrite app_nil_r.
      - intros c Hc. inversion Hc.
      - apply (Hl0 p0). eauto. }
    destruct (split_loop_linked _ _ _ _ _ _ _ _ _ _ _ _ Hlk0 Hloop) as (more' & Hv' & Hlk' & _).
    simpl v_nodes in Hv'. rewrite Hv in Hv'. inversion Hv'; subst more'.
    destruct Hlk' as (H1 & H2 & H3 & _). simpl app in *.
    split; [exact H1|]. split; [exact H3|]. split; [exact H2|]. discriminate.
  - destruct (split_loop_orphan _ _ _ _ _ _ _ _ _ _ Hn0 Hpar Hloop) as (more' & Hv' & Hor).
    simpl v_nodes in Hv'. rewrite Hv in Hv'. inversion Hv'; subst more'.
    destruct Hor as [->|[(H1 & H2 & H3 & H4) H5]]; [contradiction|].
    rewrite Hlen0 in *.
    split; [exact H1|]. split; [exact H3|]. split; [exact H2|].
    intros _. split; [apply lookup_ge_None; lia|].
    assert (Hroot : forall a, parent_at st' a = Some (length (heap st)) ->
                      root 2 a st' = Done (length (heap st))).
    { intros a Ha. destruct (parent_at_Some _ _ _ Ha) as (x & Hx & Hxp).
      destruct H4 as [y Hy]. rewrite (parent_at_lookup _ _ _ Hy) in H5.
      simpl. rewrite Hx, Hxp, Hy, H5. reflexivity. }
    intros a Ha. try rewrite Hv in Ha.
    apply elem_of_cons in Ha. destruct Ha as [->|Ha]; auto.
Qed.

Lemma split_links_witness :
  exists more st',
    split 100 0 six_state = Some (0%nat :: more, st') /\
    stat_Split st' = stat_Split six_state + Z.of_nat (length more) /\
    (more <> [] ->
     let p := default (length (heap six_state)) (node.parent six_node) in
     parent_at st' 0 = Some p /\
     (forall c, c ∈ more -> parent_at st' c = Some p) /\
     children_at st' p
       = match node.parent six_node with
         | Some _ => children_at six_state p
         | None => [0%nat]
         end ++ more /\
     (node.parent six_node = None ->
      heap six_state !! p = None /\
      forall a, a ∈ 0%nat :: more -> root 2 a st' = Done p)).
Proof.
  apply (split_links 100 0 six_state six_node).
  split; [reflexivity|]. intros p Hp. discriminate Hp.
Defined.

Section split_fill_facts.
Lemma data_len_snoc (l : list inode.t) (item : inode.t) :
  data_len (l ++ [item])
  = (data_len l + length (inode.key item) + length (inode.value item))%nat.
Proof. induction l as [|x l IH]; simpl; [lia|]. rewrite IH. lia. Qed.

Lemma removelast_fmap_elem {A B} (f : A -> B) (l : list A) (a : A) :
  a ∈ removelast l -> f a ∈ removelast (map f l).
Proof.
  induction l as [|x l IH]; intros Ha; [inversion Ha|].
  destruct l as [|y l]; [inversion Ha|].
  change (removelast (x :: y :: l)) with (x :: removelast (y :: l)) in Ha.
  change (removelast (map f (x :: y :: l))) with (f x :: removelast (map f (y :: l))).
  apply elem_of_cons in Ha. destruct Ha as [->|Ha]; [left|right; auto].
Qed.

(** Every group of the walk but the last was closed by a cut, and a
    cut closes a group only when it holds [minKeysPerPage] inodes and
    cannot take the next one, or when it has stayed within the
    threshold. *)
Lemma spec_walk_fill E threshold total rest :
  forall i running current g,
    running = pageHeaderSize + E * Z.of_nat (length current)
              + Z.of_nat (data_len current) ->
    (i <= total - minKeysPerPage ->
     (length current <= 2)%nat \/ running <= threshold) ->
    g ∈ removelast (spec_walk Z.ltb E threshold total i running current rest) ->
    length g = 2%nat \/
    pageHeaderSize + E * Z.of_nat (length g) + Z.of_nat (data_len g) <= threshold.
Proof.
  induction rest as [|item rest IH]; intros i running current g Hrun Hinv Hg.
  - simpl in Hg. inversion Hg.
  - simpl spec_walk in Hg.
    set (e := E + blen (inode.key item) + blen (inode.value item)) in *.
    destruct ((minKeysPerPage <=? Z.of_nat (length current))
              && (i <? total - minKeysPerPage) && (threshold <? running + e)) eqn:Hcond.
    + apply andb_true_iff in Hcond. destruct Hcond as [Hcond _].
      apply andb_true_iff in Hcond. destruct Hcond as [Hc1 Hc2].
      apply Z.leb_le in Hc1. apply Z.ltb_lt in Hc2. unfold minKeysPerPage in *.
      pose proof (spec_walk_nonempty Z.ltb E threshold total rest (i + 1)
                    (pageHeaderSize + e) [item]) as Hne.
      destruct (spec_walk Z.ltb E threshold total (i + 1) (pageHeaderSize + e) [item] rest)
        as [|w ws] eqn:Hw; [contradiction|].
      change (removelast (current :: w :: ws)) with (current :: removelast (w :: ws)) in Hg.
      apply elem_of_cons in Hg. destruct Hg as [->|Hg].
      * destruct (Hinv ltac:(lia)) as [Hl|Hr]; [left; lia|right; lia].
      * rewrite <- Hw in Hg. apply (IH _ _ _ g) in Hg; [exact Hg| |].
        -- unfold e, blen. simpl. lia.
        -- intros _. left. simpl. lia.
    + apply (IH _ _ _ g) in Hg; [exact Hg| |].
      * rewrite length_app, data_len_snoc. simpl length. unfold e, blen. lia.
      * intros Hi. rewrite length_app. simpl length.
        apply andb_false_iff in Hcond. destruct Hcond as [Hcond|Hcond].
        -- apply andb_false_iff in Hcond. destruct Hcond as [Hc|Hc].
           ++ apply Z.leb_gt in Hc. unfold minKeysPerPage in Hc. left. lia.
           ++ apply Z.ltb_ge in Hc. lia.
        -- apply Z.ltb_ge in Hcond. right. lia.
Qed.
End split_fill_facts.

(** X22.  [split] fills to the threshold.  Every node that [split]
    returns, apart from the last, either holds exactly [minKeysPerPage]
    inodes or has a serialized size of at most half the page size. *)
Theorem split_fill (pageSize : Z) (n : addr) (st : state) (nn : node.t) :
  node_in st n nn ->
  exists nodes st',
    split pageSize n st = Some (nodes, st') /\
    forall a x,
      a ∈ removelast nodes -> heap st' !! a = Some x ->
      Z.of_nat (length (node.inodes x)) = minKeysPerPage \/
      node.size x <= Z.quot pageSize 2.
Proof.
  intros Hin.
  destruct (split_spec pageSize n st nn Hin)
    as (nodes & st' & more & Hsplit & Hnodes & Hnot & Hmap & _ & _).
  exists nodes, st'. split; [exact Hsplit|].
  intros a x Ha Hx.
  apply (removelast_fmap_elem (inodes_at st')) in Ha.
  rewrite Hmap in Ha. rewrite (inodes_at_lookup _ _ _ Hx) in Ha.
  unfold spec_split in Ha. destruct (spec_not_split pageSize nn).
  - simpl in Ha. inversion Ha.
  - apply spec_walk_fill in Ha.
    + rewrite size_data_len.
      assert (HE : node.pageElementSize x = node.pageElementSize nn).
      { unfold node.pageElementSize. destruct (node.isLeaf x), (node.isLeaf nn); reflexivity. }
      rewrite HE.
      unfold minKeysPerPage. destruct Ha as [Ha|Ha]; [left; lia|right; exact Ha].
    + simpl. lia.
    + intros _. left. simpl. lia.
Qed.

Lemma split_fill_witness :
  exists nodes st',
    split 100 0 six_state = Some (nodes, st') /\
    forall a x,
      a ∈ removelast nodes -> heap st' !! a = Some x ->
      Z.of_nat (length (node.inodes x)) = minKeysPerPage \/
      node.size x <= Z.quot 100 2.
Proof.
  apply (split_fill 100 0 six_state six_node).
  split; [reflexivity|]. intros p Hp. discriminate Hp.
Defined.

(** * Further properties of [write] and [read] *)

Section write_more_facts.
Implicit Types (m : bytes) (l : list inode.t) (k : nat) (p : page.t) (n : node.t).

Lemma pageElementSize_16 n : node.pageElementSize n = 16.
Proof. unfold node.pageElementSize. now destruct (node.isLeaf n). Qed.

(** [write] as a whole: the header fields it sets, the bytes it leaves
    alone and what can be loaded from the buffer afterwards. *)
Lemma write_spec n p :
  Z.of_nat (length (node.inodes n)) < 65536 ->
  node.size n <= pageHeaderSize + blen (page.ptr p) ->
  exists m',
    node.write n p
    = Some (page.mk (page.id p)
              (Z.lor (page.flags p)
                 (if node.isLeaf n then leafPageFlag else branchPageFlag))
              (Z.of_nat (length (node.inodes n))) (page.overflow p) m') /\
    length m' = length (page.ptr p) /\
    (forall a, node.size n - pageHeaderSize <= Z.of_nat a -> m' !! a = page.ptr p !! a) /\
    (forall k item,
       node.inodes n !! k = Some item ->
       load m' (16 * k) 16
         = Some (elem_bytes (node.isLeaf n) item
                   (Z.of_nat (16 * length (node.inodes n) + data_len (take k (node.inodes n)))
                    - Z.of_nat (16 * k))) /\
       load m' (16 * length (node.inodes n) + data_len (take k (node.inodes n)))
         (length (inode.key item)) = Some (inode.key item) /\
       load m' (16 * length (node.inodes n) + data_len (take k (node.inodes n))
                + length (inode.key item)) (length (inode.value item))
         = Some (inode.value item)).
Proof.
  intros Hcount Hsize.
  rewrite size_data_len in Hsize |- *. unfold blen in Hsize.
  rewrite (pageElementSize_16 n) in Hsize |- *. unfold pageHeaderSize in Hsize |- *.
  set (l := node.inodes n) in *.
  destruct (write_items_spec (node.isLeaf n) l 0%nat (16 * length l)%nat (page.ptr p))
    as (m' & Hw & Hlen & Hframe & Hitems); try lia.
  exists m'. unfold node.write. rewrite (pageElementSize_16 n). fold l.
  change (Z.to_nat 16) with 16%nat. rewrite Hw. cbn [mbind option_bind].
  rewrite uint16_small by lia.
  split; [reflexivity|]. split; [exact Hlen|]. split.
  - intros a Ha. apply Hframe. lia.
  - intros k item Hk. apply (Hitems k item Hk).
Qed.

Lemma le_value_range (s : bytes) : 0 <= le_value s < 256 ^ Z.of_nat (length s).
Proof.
  induction s as [|c s IH].
  - simpl. lia.
  - cbn [le_value length]. rewrite Nat2Z.inj_succ, Z.pow_succ_r by lia.
    assert (Hc : 0 <= byte_val c < 256).
    { unfold byte_val. pose proof (N_ascii_bounded c) as Hb. lia. }
    nia.
Qed.

Lemma le_value_take k (s : bytes) : 0 <= le_value (take k s) < 256 ^ Z.of_nat k.
Proof.
  pose proof (le_value_range (take k s)) as H.
  assert (Hl : (length (take k s) <= k)%nat) by (rewrite length_take; lia).
  assert (256 ^ Z.of_nat (length (take k s)) <= 256 ^ Z.of_nat k)
    by (apply Z.pow_le_mono_r; lia).
  lia.
Qed.

(** Whatever [read] makes of an element is something an element of
    that kind holds. *)
Lemma read_inode_storable leaf p i item :
  node.read_inode leaf p i = Some item -> storable leaf item.
Proof.
  unfold node.read_inode, storable. destruct leaf.
  - unfold page.leafPageElement.
    destruct (load _ _ _) as [s|]; [|discriminate]. cbn [fmap option_fmap option_map mbind option_bind].
    destruct (page.leaf_key _ _); [|discriminate]. cbn [mbind option_bind].
    destruct (page.leaf_value _ _); [|discriminate]. cbn [mbind option_bind].
    intros H. inversion H; subst item. simpl.
    pose proof (le_value_take 4 s). split; [|reflexivity].
    change (2 ^ 32) with (256 ^ Z.of_nat 4). lia.
  - unfold page.branchPageElement.
    destruct (load _ _ _) as [s|]; [|discriminate]. cbn [fmap option_fmap option_map mbind option_bind].
    destruct (page.branch_key _ _); [|discriminate]. cbn [mbind option_bind].
    intros H. inversion H; subst item. simpl.
    pose proof (le_value_take 8 (drop 8 s)).
    change (2 ^ 64) with (256 ^ Z.of_nat 8). auto.
Qed.
End write_more_facts.

(** X11.  [write] stays inside the serialized size of the node: for a
    node with fewer than 65536 inodes that fits the page buffer, it
    returns, keeps the page id, the overflow count and the length of the
    buffer, sets the count to the number of inodes and the type flag of
    the node on top of the flags the page had, and leaves every byte from
    [size() - pageHeaderSize] on as it was. *)
Theorem write_frame (n : node.t) (p : page.t) :
  Z.of_nat (length (node.inodes n)) < 65536 ->
  node.size n <= pageHeaderSize + blen (page.ptr p) ->
  exists p',
    node.write n p = Some p' /\
    page.id p' = page.id p /\
    page.overflow p' = page.overflow p /\
    page.count p' = Z.of_nat (length (node.inodes n)) /\
    page.flags p'
      = Z.lor (page.flags p) (if node.isLeaf n then leafPageFlag else branchPageFlag) /\
    (node.isLeaf n = true -> page.is_leaf p' = true) /\
    (node.isLeaf n = false -> page.is_branch p' = true) /\
    length (page.ptr p') = length (page.ptr p) /\
    (forall a, node.size n - pageHeaderSize <= Z.of_nat a ->
       page.ptr p' !! a = page.ptr p !! a).
Proof.
  intros Hcount Hsize.
  destruct (write_spec n p Hcount Hsize) as (m' & Hw & Hlen & Hframe & _).
  eexists. split; [exact Hw|]. cbn [page.id page.overflow page.count page.flags page.ptr].
  repeat split; try assumption.
  - intros Hl. rewrite Hl. unfold page.is_leaf. cbn [page.flags].
    rewrite Z.land_lor_distr_l. change (Z.land leafPageFlag leafPageFlag) with 2.
    destruct (Z.eqb_spec (Z.lor (Z.land (page.flags p) leafPageFlag) 2) 0) as [E|E]; [|reflexivity].
    apply Z.lor_eq_0_iff in E. destruct E as [_ E]. discriminate E.
  - intros Hl. rewrite Hl. unfold page.is_branch. cbn [page.flags].
    rewrite Z.land_lor_distr_l. change (Z.land branchPageFlag branchPageFlag) with 1.
    destruct (Z.eqb_spec (Z.lor (Z.land (page.flags p) branchPageFlag) 1) 0) as [E|E]; [|reflexivity].
    apply Z.lor_eq_0_iff in E. destruct E as [_ E]. discriminate E.
Qed.

Lemma write_frame_witness :
  exists p',
    node.write susy_leaf (fresh_page 5 80) = Some p' /\
    page.id p' = page.id (fresh_page 5 80) /\
    page.overflow p' = page.overflow (fresh_page 5 80) /\
    page.count p' = Z.of_nat (length (node.inodes susy_leaf)) /\
    page.flags p'
      = Z.lor (page.flags (fresh_page 5 80))
          (if node.isLeaf susy_leaf then leafPageFlag else branchPageFlag) /\
    (node.isLeaf susy_leaf = true -> page.is_leaf p' = true) /\
    (node.isLeaf susy_leaf = false -> page.is_branch p' = true) /\
    length (page.ptr p') = length (page.ptr (fresh_page 5 80)) /\
    (forall a, node.size susy_leaf - pageHeaderSize <= Z.of_nat a ->
       page.ptr p' !! a = page.ptr (fresh_page 5 80) !! a).
Proof.
  apply (write_frame susy_leaf (fresh_page 5 80)).
  - simpl. lia.
  - vm_compute. discriminate.
Defined.

(** X12.  What [read] makes of a page can be written back and read
    again.  When [read] of a page with fewer than 65536 elements returns,
    the node has the id and the leaf flag of the page, one inode per
    element, the key of its first inode as its key (none when empty), and
    only inodes that a page element of its kind holds; written to any
    buffer that it fits, it is read back with the same inodes, leaf flag
    and key. *)
Theorem read_write_read (p q : page.t) (n0 n1 : node.t) :
  node.read p n0 = Some n1 ->
  page.count p < 65536 ->
  node.size n1 < 2 ^ 32 ->
  node.size n1 <= pageHeaderSize + blen (page.ptr q) ->
  (node.isLeaf n1 = false -> Z.land (page.flags q) leafPageFlag = 0) ->
  node.pgid n1 = page.id p /\
  node.isLeaf n1 = page.is_leaf p /\
  length (node.inodes n1) = Z.to_nat (page.count p) /\
  node.key n1 = default [] (inode.key <$> head (node.inodes n1)) /\
  Forall (storable (node.isLeaf n1)) (node.inodes n1) /\
  exists q',
    node.write n1 q = Some q' /\
    forall n2, exists n3,
      node.read q' n2 = Some n3 /\
      node.inodes n3 = node.inodes n1 /\
      node.isLeaf n3 = node.isLeaf n1 /\
      node.key n3 = node.key n1.
Proof.
  intros Hread Hcount Hcap Hsize Hflags.
  unfold node.read in Hread.
  destruct (mapM (node.read_inode (page.is_leaf p) p) (seq 0 (Z.to_nat (page.count p))))
    as [l|] eqn:Hmap; [|discriminate].
  cbn [mbind option_bind] in Hread. inversion Hread; subst n1. clear Hread.
  cbn [node.pgid node.isLeaf node.inodes node.key] in *.
  pose proof (length_mapM _ _ _ Hmap) as Hlen. rewrite length_seq in Hlen.
  assert (Hst : Forall (storable (page.is_leaf p)) l).
  { apply mapM_Some_1 in Hmap. apply Forall_forall. intros item Hitem.
    apply list_elem_of_lookup_1 in Hitem. destruct Hitem as [k Hk].
    destruct (Forall2_lookup_r _ _ _ _ _ Hmap Hk) as (i & _ & Hi).
    eapply read_inode_storable; eauto. }
  split; [reflexivity|]. split; [reflexivity|]. split; [now rewrite <- Hlen|].
  split; [now destruct l|]. split; [exact Hst|].
  set (n1 := node.mk _ _ _ _ _ _ _ l) in *.
  assert (Hcount1 : Z.of_nat (length (node.inodes n1)) < 65536).
  { simpl. rewrite <- Hlen. lia. }
  destruct (write_spec n1 q Hcount1 Hsize) as (m' & Hw & Hlen' & _ & Hitems).
  eexists. split; [exact Hw|].
  intros n2. unfold node.read, page.is_leaf.
  cbn [page.flags page.count page.ptr page.id].
  change (node.isLeaf n1) with (page.is_leaf p) in *.
  rewrite is_leaf_after_write by exact Hflags.
  rewrite Nat2Z.id. simpl node.inodes in *.
  set (q' := page.mk _ _ _ _ m').
  rewrite size_data_len in Hcap. rewrite (pageElementSize_16 n1) in Hcap.
  simpl node.inodes in Hcap. unfold pageHeaderSize in Hcap.
  assert (Hmap' : mapM (node.read_inode (page.is_leaf p) q') (seq 0 (length l)) = Some l).
  { apply mapM_Some_2. apply Forall2_same_length_lookup_2.
    - now rewrite length_seq.
    - intros k x item Hx Hitem.
      assert (Hkl : (k < length l)%nat) by (eapply lookup_lt_Some; eauto).
      rewrite lookup_seq_lt in Hx by trivial. inversion Hx; subst x. clear Hx.
      destruct (Hitems k item Hitem) as (He & Hkey & Hval).
      pose proof (data_len_take_item l k item Hitem) as Hdl.
      rewrite Forall_forall in Hst.
      apply (read_inode_written (page.is_leaf p) q' k item
               (16 * length l + data_len (take k l))%nat); try lia.
      + apply Hst. eapply list_elem_of_lookup_2; eauto.
      + exact He.
      + exact Hkey.
      + exact Hval. }
  rewrite Hmap'. cbn [mbind option_bind]. eexists. split; [reflexivity|].
  repeat split.
Qed.

Lemma read_write_read_witness :
  node.pgid (node.mk 0 true false (bs "bar") 0 None []
               [ inode.mk 0 0 (bs "bar") (bs "fooz");
                 inode.mk 0 0 (bs "helloworld") (bs "bye") ])
    = page.id test_leaf_page /\
  exists q',
    node.write (node.mk 0 true false (bs "bar") 0 None []
                  [ inode.mk 0 0 (bs "bar") (bs "fooz");
                    inode.mk 0 0 (bs "helloworld") (bs "bye") ])
      (fresh_page 5 80) = Some q' /\
    forall n2, exists n3,
      node.read q' n2 = Some n3 /\
      node.inodes n3
        = [ inode.mk 0 0 (bs "bar") (bs "fooz");
            inode.mk 0 0 (bs "helloworld") (bs "bye") ] /\
      node.isLeaf n3 = true /\
      node.key n3 = bs "bar".
Proof.
  destruct (read_write_read test_leaf_page (fresh_page 5 80) empty_node
              (node.mk 0 true false (bs "bar") 0 None []
                 [ inode.mk 0 0 (bs "bar") (bs "fooz");
                   inode.mk 0 0 (bs "helloworld") (bs "bye") ]))
    as (H1 & _ & _ & _ & _ & H2).
  - vm_compute. reflexivity.
  - vm_compute. reflexivity.
  - vm_compute. reflexivity.
  - vm_compute. discriminate.
  - intros H. discriminate H.
  - split; [exact H1|exact H2].
Defined.

(** * Walking a tree with a cursor *)

Section walk_facts.
Variable pages : gmap Z page.t.
Implicit Types (p child : page.t) (c : Cursor.t) (s pre : list Cursor.elemRef)
  (rest its : list (bytes * bytes)).

Lemma mapM_app_inv {A B} (f : A -> option B) (l1 l2 : list A) (k : list B) :
  mapM f (l1 ++ l2) = Some k ->
  exists k1 k2, mapM f l1 = Some k1 /\ mapM f l2 = Some k2 /\ k = k1 ++ k2.
Proof.
  intros H. apply mapM_Some_1 in H. apply Forall2_app_inv_l in H.
  destruct H as (k1 & k2 & H1 & H2 & ->).
  exists k1, k2. repeat split; now apply mapM_Some_2.
Qed.

Lemma mapM_cons_inv {A B} (f : A -> option B) (x : A) (l : list A) (k : list B) :
  mapM f (x :: l) = Some k ->
  exists y k', f x = Some y /\ mapM f l = Some k' /\ k = y :: k'.
Proof.
  intros H. apply mapM_Some_1 in H. inversion H as [|? y ? k' Hy Hk]; subst.
  exists y, k'. repeat split; [exact Hy|now apply mapM_Some_2].
Qed.

(** The pairs of the subtrees from child [i] on. *)
Lemma mapM_drop_lookup {A B} (f : A -> option B) (l : list A) (k : list B) i x :
  mapM f l = Some k -> l !! i = Some x ->
  exists y later,
    f x = Some y /\ mapM f (drop (Datatypes.S i) l) = Some later /\
    mapM f (drop i l) = Some (y :: later).
Proof.
  intros Hm Hx. rewrite <- (take_drop i l) in Hm.
  apply mapM_app_inv in Hm. destruct Hm as (k1 & k2 & _ & H2 & _).
  rewrite (drop_S l x i Hx) in H2.
  destruct (mapM_cons_inv _ _ _ _ H2) as (y & later & Hy & Hl & ->).
  exists y, later. rewrite (drop_S l x i Hx). auto.
Qed.

Lemma leaf_items_lookup p kvs i k v :
  leaf_items p = Some kvs -> kvs !! i = Some (k, v) ->
  page.leaf_key p (Z.of_nat i) = Some k /\ page.leaf_value p (Z.of_nat i) = Some v.
Proof.
  intros Hl Hi. apply mapM_seq_lookup in Hl. destruct Hl as [_ Hl].
  specialize (Hl i (k, v) Hi). cbv beta in Hl.
  destruct (page.leaf_key p (Z.of_nat i)) as [k'|]; [|discriminate].
  cbn [mbind option_bind] in Hl.
  destruct (page.leaf_value p (Z.of_nat i)) as [v'|]; [|discriminate].
  cbn [mbind option_bind] in Hl. inversion Hl. auto.
Qed.

Lemma leaf_items_length p kvs :
  leaf_items p = Some kvs -> length kvs = Z.to_nat (page.count p).
Proof. intros Hl. apply mapM_seq_lookup in Hl. tauto. Qed.

Lemma branch_children_lookup p cs i child :
  branch_children pages p = Some cs -> cs !! i = Some child ->
  page.branch_pgid p (Z.of_nat i) ≫= (fun pg => pages !! pg) = Some child.
Proof.
  intros Hc Hi. apply mapM_seq_lookup in Hc. destruct Hc as [_ Hc].
  exact (Hc i child Hi).
Qed.

Lemma branch_children_length p cs :
  branch_children pages p = Some cs -> length cs = Z.to_nat (page.count p).
Proof. intros Hl. apply mapM_seq_lookup in Hl. tauto. Qed.

(** A walkable tree has pairs. *)
Lemma walkable_items h :
  forall p, walkable pages h p ->
    exists its, tree_items pages h p = Some its /\ its <> [].
Proof.
  induction h as [|h IH]; intros p [Hcount Hw].
  - destruct Hw as [Hleaf [kvs Hkvs]]. exists kvs. simpl. rewrite Hleaf.
    split; [exact Hkvs|]. pose proof (leaf_items_length p kvs Hkvs) as Hlen.
    intros ->. simpl in Hlen. lia.
  - destruct Hw as (Hleaf & cs & Hcs & Hall).
    pose proof (branch_children_length p cs Hcs) as Hlen.
    assert (Hm : exists l, mapM (tree_items pages h) cs = Some l /\
                           Forall (fun x => x <> []) l).
    { clear Hcs Hlen. induction Hall as [|c0 cs' H0 _ IHcs].
      - exists []. split; [reflexivity|constructor].
      - destruct (IH c0 H0) as (i0 & Hi0 & Hne). destruct IHcs as (l & Hl & Hfa).
        exists (i0 :: l). split; [|constructor; assumption].
        apply mapM_Some_2. constructor; [exact Hi0|]. now apply mapM_Some_1. }
    destruct Hm as (l & Hl & Hfa).
    exists (concat l). simpl. rewrite Hleaf, Hcs. cbn [mbind option_bind].
    rewrite Hl. split; [reflexivity|].
    destruct l as [|i0 l].
    + apply length_mapM in Hl. simpl in Hl. lia.
    + inversion Hfa as [|? ? Hne _]; subst. simpl. intros Happ.
      apply app_eq_nil in Happ. tauto.
Qed.

(** The cursor stands on the first of the remaining pairs. *)
Lemma at_stack_last h :
  forall p s rest, at_stack pages h p s rest ->
    exists leafp i kvs x rest',
      last s = Some (Cursor.mkRef leafp (Z.of_nat i)) /\
      leaf_items leafp = Some kvs /\ kvs !! i = Some x /\
      page.count leafp < 65536 /\ rest = x :: rest'.
Proof.
  induction h as [|h IH]; intros p s rest [Hcount Hat].
  - destruct Hat as (i & kvs & -> & Hleaf & Hkvs & Hi & ->).
    destruct (lookup_lt_is_Some_2 kvs i Hi) as [x Hx].
    exists p, i, kvs, x, (drop (Datatypes.S i) kvs).
    repeat split; try assumption. now apply drop_S.
  - destruct Hat as (i & s' & cs & child & rest' & later & -> & _ & _ & _ & _ & Hch & _ & ->).
    destruct (IH _ _ _ Hch) as (leafp & j & kvs & x & r' & Hlast & Hkvs & Hj & Hc & ->).
    exists leafp, j, kvs, x, (r' ++ concat later).
    repeat split; try assumption.
    rewrite last_cons, Hlast. reflexivity.
Qed.

Lemma top_app pre s (e : Cursor.elemRef) :
  last s = Some e -> (pre ++ s) !! (length (pre ++ s) - 1)%nat = Some e.
Proof.
  intros Hl. destruct s as [|e0 s]; [discriminate|].
  rewrite <- Hl. replace (length (pre ++ e0 :: s) - 1)%nat with (Init.Nat.pred (length (pre ++ e0 :: s))) by lia.
  rewrite <- last_lookup. rewrite last_app. now rewrite Hl.
Qed.

Lemma keyValue_at h p s pre c x rest :
  at_stack pages h p s (x :: rest) ->
  Cursor.keyValue (Cursor.with_stack (pre ++ s) c) = Some (Some x).
Proof.
  intros Hat. destruct (at_stack_last _ _ _ _ Hat)
    as (leafp & i & kvs & y & r' & Hlast & Hkvs & Hi & Hc & Heq).
  inversion Heq; subst y r'.
  unfold Cursor.keyValue. cbn [Cursor.stack Cursor.with_stack].
  rewrite (top_app pre s _ Hlast). cbn [mbind option_bind Cursor.ref_page Cursor.ref_index].
  pose proof (leaf_items_length _ _ Hkvs) as Hlen.
  pose proof (lookup_lt_Some _ _ _ Hi) as Hlt.
  assert (Hcmp : (page.count leafp <=? Z.of_nat i) = false) by (apply Z.leb_gt; lia).
  rewrite Hcmp. destruct x as [k v].
  destruct (leaf_items_lookup _ _ _ _ _ Hkvs Hi) as [Hk Hv].
  now rewrite Hk, Hv.
Qed.
End walk_facts.

Section first_next_facts.
Variable pages : gmap Z page.t.
Implicit Types (p child : page.t) (c : Cursor.t) (s pre : list Cursor.elemRef)
  (rest its : list (bytes * bytes)).

Lemma first_loop_unfold fuel p c :
  Cursor.first_loop (Datatypes.S fuel) p c =
  if page.is_leaf p then Done c
  else
    match Cursor.stack c !! (length (Cursor.stack c) - 1)%nat with
    | None => Panic
    | Some top =>
        match page.branch_pgid p (Cursor.ref_index top)
                ≫= fun pg => Cursor.pages c !! pg with
        | None => Panic
        | Some child =>
            Cursor.first_loop fuel child
              (Cursor.with_stack (Cursor.stack c ++ [Cursor.mkRef child 0]) c)
        end
    end.
Proof. reflexivity. Qed.

Lemma next_loop_unfold i s :
  Cursor.next_loop (Datatypes.S i) s =
  (elem ← s !! i;
   if Cursor.ref_index elem <? uint16 (page.count (Cursor.ref_page elem) - 1)
   then Some (<[i := Cursor.mkRef (Cursor.ref_page elem)
                        (uint16 (Cursor.ref_index elem + 1))]> s)
   else Cursor.next_loop i (take i s)).
Proof. reflexivity. Qed.

Lemma top_snoc pre (e : Cursor.elemRef) :
  (pre ++ [e]) !! (length (pre ++ [e]) - 1)%nat = Some e.
Proof. now apply top_app. Qed.

(** [first], started on the first element of a walkable subtree, ends
    on its first pair. *)
Lemma first_loop_walk h :
  forall child its fuel pre c,
    Cursor.pages c = pages ->
    walkable pages h child -> tree_items pages h child = Some its ->
    (h < fuel)%nat ->
    exists s,
      Cursor.first_loop fuel child
        (Cursor.with_stack (pre ++ [Cursor.mkRef child 0]) c)
      = Done (Cursor.with_stack (pre ++ s) c) /\
      at_stack pages h child s its.
Proof.
  induction h as [|h IH]; intros child its fuel pre c Hpg [Hcount Hw] Hits Hfuel;
    (destruct fuel as [|fuel]; [lia|]); rewrite first_loop_unfold.
  - destruct Hw as [Hleaf _]. rewrite Hleaf.
    exists [Cursor.mkRef child 0]. split; [reflexivity|].
    simpl in Hits. rewrite Hleaf in Hits.
    pose proof (leaf_items_length _ _ Hits) as Hlen.
    split; [lia|]. exists 0%nat, its. repeat split; try assumption. lia.
  - destruct Hw as (Hleaf & cs & Hcs & Hall). rewrite Hleaf.
    cbn [Cursor.stack Cursor.with_stack Cursor.pages]. rewrite top_snoc.
    cbn [Cursor.ref_index]. rewrite Hpg.
    pose proof (branch_children_length pages _ _ Hcs) as Hlen.
    destruct cs as [|c0 cs']; [simpl in Hlen; lia|].
    pose proof (branch_children_lookup pages child (c0 :: cs') 0 c0 Hcs eq_refl) as Hc0.
    change (Z.of_nat 0) with 0 in Hc0. rewrite Hc0.
    simpl in Hits. rewrite Hleaf, Hcs in Hits. cbn [mbind option_bind] in Hits.
    destruct (mapM (tree_items pages h) (c0 :: cs')) as [l|] eqn:Hl; [|discriminate].
    simpl in Hits. inversion Hits; subst its. clear Hits.
    destruct (mapM_cons_inv _ _ _ _ Hl) as (i0 & later & Hi0 & Hlater & ->).
    apply Forall_cons in Hall. destruct Hall as [Hw0 Hall'].
    destruct (IH c0 i0 fuel (pre ++ [Cursor.mkRef child 0])
                (Cursor.with_stack (pre ++ [Cursor.mkRef child 0]) c))
      as (s' & Hs' & Hat'); [exact Hpg|exact Hw0|exact Hi0|lia|].
    cbn [Cursor.with_stack Cursor.pages Cursor.root] in Hs'.
    exists (Cursor.mkRef child 0 :: s'). split.
    + unfold Cursor.with_stack in *. cbn [Cursor.pages Cursor.root Cursor.stack] in *.
      rewrite Hs'. now rewrite <- app_assoc.
    + split; [lia|]. exists 0%nat, s', (c0 :: cs'), c0, i0, later.
      repeat split; try assumption. constructor; assumption.
Qed.

(** One step forward.  Either the cursor stood on the last pair of the
    subtree, and the loop of [Next] goes on with the frames above it;
    or it stops inside the subtree, and [first] then leaves the cursor
    on the next pair. *)
Lemma next_loop_spec h :
  forall p s rest pre,
    at_stack pages h p s rest ->
    exists x rest',
      rest = x :: rest' /\
      ((rest' = [] /\
        Cursor.next_loop (length (pre ++ s)) (pre ++ s)
        = Cursor.next_loop (length pre) pre) \/
       (rest' <> [] /\
        exists s1,
          Cursor.next_loop (length (pre ++ s)) (pre ++ s) = Some (pre ++ s1) /\
          s1 <> [] /\
          forall c fuel,
            Cursor.pages c = pages -> (h < fuel)%nat ->
            exists s2,
              Cursor.first fuel (Cursor.with_stack (pre ++ s1) c)
              = Done (Cursor.with_stack (pre ++ s2) c) /\
              at_stack pages h p s2 rest')).
Proof.
  induction h as [|h IH]; intros p s rest pre [Hcount Hat].
  - destruct Hat as (i & kvs & -> & Hleaf & Hkvs & Hi & ->).
    destruct (lookup_lt_is_Some_2 kvs i Hi) as [x Hx].
    exists x, (drop (Datatypes.S i) kvs). split; [now apply drop_S|].
    pose proof (leaf_items_length _ _ Hkvs) as Hlen.
    rewrite length_app. simpl length.
    replace (length pre + 1)%nat with (Datatypes.S (length pre)) by lia.
    rewrite next_loop_unfold.
    rewrite lookup_app_r by lia. rewrite Nat.sub_diag.
    cbn [lookup list_lookup mbind option_bind Cursor.ref_index Cursor.ref_page].
    rewrite (uint16_small (page.count p - 1)) by lia.
    destruct (Z.ltb_spec (Z.of_nat i) (page.count p - 1)) as [Hlt|Hge].
    + right. split.
      { intros Hd. apply (f_equal length) in Hd. rewrite length_drop in Hd. simpl in Hd. lia. }
      exists [Cursor.mkRef p (Z.of_nat (Datatypes.S i))]. split; [|split; [discriminate|]].
      * f_equal. rewrite insert_app_r_alt by lia. rewrite Nat.sub_diag. simpl.
        rewrite uint16_small by lia. do 3 f_equal. lia.
      * intros c fuel Hpg Hfuel. destruct fuel as [|fuel]; [lia|].
        exists [Cursor.mkRef p (Z.of_nat (Datatypes.S i))].
        unfold Cursor.first. cbn [Cursor.stack Cursor.with_stack].
        rewrite top_snoc. cbn [Cursor.ref_page]. rewrite first_loop_unfold, Hleaf.
        split; [reflexivity|]. split; [exact Hcount|].
        exists (Datatypes.S i), kvs. repeat split; try assumption. lia.
    + left. split.
      { apply drop_ge. lia. }
      now rewrite take_app_length.
  - destruct Hat as (i & s' & cs & child & rest' & later & -> & Hleaf & Hcs & Hall & Hi & Hch & Hlater & ->).
    pose proof (branch_children_length pages _ _ Hcs) as Hlen.
    pose proof (lookup_lt_Some _ _ _ Hi) as Hilt.
    destruct (IH child s' rest' (pre ++ [Cursor.mkRef p (Z.of_nat i)]) Hch)
      as (x & r' & -> & Hcase).
    rewrite <- !app_assoc in Hcase. simpl app in Hcase.
    exists x, (r' ++ concat later). split; [reflexivity|].
    destruct Hcase as [[-> Hnext]|(Hne & s1 & Hnext & Hs1 & Hfirst)].
    + (* the child is exhausted: look at the frame of [p] *)
      rewrite Hnext. rewrite length_app. simpl length.
      replace (length pre + 1)%nat with (Datatypes.S (length pre)) by lia.
      rewrite next_loop_unfold.
      rewrite lookup_app_r by lia. rewrite Nat.sub_diag.
      cbn [lookup list_lookup mbind option_bind Cursor.ref_index Cursor.ref_page].
      rewrite (uint16_small (page.count p - 1)) by lia.
      simpl app.
      destruct (Z.ltb_spec (Z.of_nat i) (page.count p - 1)) as [Hlt|Hge].
      * destruct (lookup_lt_is_Some_2 cs (Datatypes.S i)) as [c1 Hc1]; [lia|].
        rewrite (drop_S cs c1 (Datatypes.S i) Hc1) in Hlater.
        destruct (mapM_cons_inv _ _ _ _ Hlater) as (i1 & later2 & Hi1 & Hlater2 & ->).
        assert (Hw1 : walkable pages h c1).
        { rewrite Forall_forall in Hall. apply Hall. eapply list_elem_of_lookup_2; eauto. }
        destruct (walkable_items pages h c1 Hw1) as (i1' & Hi1' & Hne1).
        assert (i1' = i1) by congruence. subst i1'.
        right. split.
        { simpl. intros Happ. apply app_eq_nil in Happ. tauto. }
        exists [Cursor.mkRef p (Z.of_nat (Datatypes.S i))]. split; [|split; [discriminate|]].
        -- f_equal. rewrite insert_app_r_alt by lia. rewrite Nat.sub_diag. simpl.
           rewrite uint16_small by lia. do 3 f_equal. lia.
        -- intros c fuel Hpg Hfuel. destruct fuel as [|fuel]; [lia|].
           unfold Cursor.first. cbn [Cursor.stack Cursor.with_stack].
           rewrite top_snoc. cbn [Cursor.ref_page]. rewrite first_loop_unfold, Hleaf.
           cbn [Cursor.stack Cursor.with_stack Cursor.pages]. rewrite top_snoc.
           cbn [Cursor.ref_index]. rewrite Hpg.
           rewrite (branch_children_lookup pages p cs (Datatypes.S i) c1 Hcs Hc1).
           destruct (first_loop_walk h c1 i1 fuel
                       (pre ++ [Cursor.mkRef p (Z.of_nat (Datatypes.S i))])
                       (Cursor.with_stack (pre ++ [Cursor.mkRef p (Z.of_nat (Datatypes.S i))]) c))
             as (sc & Hsc & Hatc); [exact Hpg|exact Hw1|exact Hi1|lia|].
           exists (Cursor.mkRef p (Z.of_nat (Datatypes.S i)) :: sc). split.
           ++ unfold Cursor.with_stack in *.
              cbn [Cursor.pages Cursor.root Cursor.stack] in *.
              rewrite Hsc. now rewrite <- app_assoc.
           ++ split; [exact Hcount|].
              exists (Datatypes.S i), sc, cs, c1, i1, later2.
              repeat split; try assumption.
      * left. split.
        { assert (Hd : drop (Datatypes.S i) cs = []) by (apply drop_ge; lia).
          rewrite Hd in Hlater. simpl in Hlater. inversion Hlater. reflexivity. }
        now rewrite take_app_length.
    + right. split.
      { intros Happ. apply app_eq_nil in Happ. tauto. }
      rewrite <- app_assoc in Hnext. simpl app in Hnext.
      exists (Cursor.mkRef p (Z.of_nat i) :: s1). split; [exact Hnext|].
      split; [discriminate|].
      intros c fuel Hpg Hfuel.
      destruct (Hfirst c fuel Hpg ltac:(lia)) as (s2 & Hs2 & Hat2).
      rewrite <- !app_assoc in Hs2. simpl app in Hs2.
      exists (Cursor.mkRef p (Z.of_nat i) :: s2). split; [exact Hs2|].
      split; [exact Hcount|].
      exists i, s2, cs, child, r', later. repeat split; assumption.
Qed.
End first_next_facts.

Section cursor_step_facts.
Implicit Types (c : Cursor.t) (rootp : page.t) (its rest : list (bytes * bytes)).

Lemma First_step c h rootp its fuel :
  Cursor.pages c !! Cursor.root c = Some rootp ->
  walkable (Cursor.pages c) h rootp ->
  tree_items (Cursor.pages c) h rootp = Some its ->
  (h < fuel)%nat ->
  exists s x rest,
    its = x :: rest /\
    Cursor.First fuel c = Done (Some x, Cursor.with_stack s c) /\
    at_stack (Cursor.pages c) h rootp s its.
Proof.
  intros Hroot Hw Hits Hfuel. unfold Cursor.First, Cursor.first. rewrite Hroot.
  cbn [Cursor.stack Cursor.with_stack]. simpl lookup. cbn [Cursor.ref_page].
  destruct (first_loop_walk (Cursor.pages c) h rootp its fuel [] c eq_refl Hw Hits Hfuel)
    as (s & Hs & Hat).
  simpl app in Hs. rewrite Hs.
  destruct (at_stack_last _ _ _ _ _ Hat) as (_ & _ & _ & x & rest & _ & _ & _ & _ & ->).
  pose proof (keyValue_at _ _ _ _ [] c x rest Hat) as Hkv. simpl app in Hkv.
  rewrite Hkv. exists s, x, rest. auto.
Qed.

Lemma First_empty c rootp fuel :
  Cursor.pages c !! Cursor.root c = Some rootp ->
  page.is_leaf rootp = true -> page.count rootp <= 0 -> (0 < fuel)%nat ->
  Cursor.First fuel c = Done (None, Cursor.with_stack [Cursor.mkRef rootp 0] c).
Proof.
  intros Hroot Hleaf Hcount Hfuel. unfold Cursor.First, Cursor.first. rewrite Hroot.
  cbn [Cursor.stack Cursor.with_stack]. simpl lookup. cbn [Cursor.ref_page].
  destruct fuel as [|fuel]; [lia|]. rewrite first_loop_unfold, Hleaf.
  unfold Cursor.keyValue. cbn [Cursor.stack Cursor.with_stack]. simpl lookup.
  cbn [mbind option_bind Cursor.ref_page Cursor.ref_index].
  assert (Hc : (page.count rootp <=? 0) = true) by (apply Z.leb_le; lia).
  now rewrite Hc.
Qed.

Lemma Next_step c h rootp x rest fuel :
  at_stack (Cursor.pages c) h rootp (Cursor.stack c) (x :: rest) ->
  (h < fuel)%nat ->
  exists s,
    Cursor.Next fuel c = Done (head rest, Cursor.with_stack s c) /\
    match rest with
    | [] => s = []
    | _ :: _ => at_stack (Cursor.pages c) h rootp s rest
    end.
Proof.
  intros Hat Hfuel.
  destruct (next_loop_spec (Cursor.pages c) h rootp (Cursor.stack c) (x :: rest) [] Hat)
    as (x' & rest' & Heq & Hcase).
  inversion Heq; subst x' rest'. simpl app in Hcase. simpl length in Hcase at 2.
  unfold Cursor.Next.
  destruct Hcase as [[-> Hnext]|(Hne & s1 & Hnext & Hs1 & Hfirst)].
  - rewrite Hnext. simpl. exists []. auto.
  - rewrite Hnext. cbv zeta.
    assert (Hlen : (length s1 =? 0)%nat = false).
    { apply Nat.eqb_neq. destruct s1; [contradiction|simpl; lia]. }
    rewrite Hlen.
    destruct (Hfirst c fuel eq_refl Hfuel) as (s2 & Hs2 & Hat2). simpl app in Hs2.
    rewrite Hs2.
    destruct rest as [|y rest]; [contradiction|].
    pose proof (keyValue_at _ _ _ _ [] c y rest Hat2) as Hkv. simpl app in Hkv.
    rewrite Hkv. exists s2. auto.
Qed.

Lemma Next_empty c fuel :
  Cursor.stack c = [] -> Cursor.Next fuel c = Done (None, c).
Proof.
  intros Hs. unfold Cursor.Next. rewrite Hs. simpl. destruct c. simpl in Hs. now subst.
Qed.

(** The loop of [ForEach] from a pair on: [fn] sees the remaining pairs
    in order, up to its first error. *)
Lemma ForEach_loop_visit {X} (fn : bytes -> bytes -> X -> option error * X)
    h rootp fuel rest :
  forall x c st n,
    at_stack (Cursor.pages c) h rootp (Cursor.stack c) (x :: rest) ->
    (h < fuel)%nat -> (length rest < n)%nat ->
    ForEach_loop fn n fuel (Some x) c st = Done (visit fn (x :: rest) st).
Proof.
  induction rest as [|y rest IH]; intros [k v] c st n Hat Hfuel Hn;
    (destruct n as [|n]; [simpl in Hn; lia|]);
    cbn [ForEach_loop visit]; (destruct (fn k v st) as [[err|] st']; [reflexivity|]).
  - destruct (Next_step c h rootp (k, v) [] fuel Hat Hfuel) as (s & Hs & ->).
    rewrite Hs. cbn [head]. destruct n; reflexivity.
  - destruct (Next_step c h rootp (k, v) (y :: rest) fuel Hat Hfuel) as (s & Hs & Hat').
    rewrite Hs. cbn [head]. apply IH.
    + exact Hat'.
    + exact Hfuel.
    + simpl in Hn. lia.
Qed.
End cursor_step_facts.

Section example_tree_facts.
Lemma tree_root_walkable : walkable (Cursor.pages tree_cursor) 1 tree_root.
Proof.
  split; [split; vm_compute; reflexivity|].
  split; [vm_compute; reflexivity|].
  exists [tree_leaf4; tree_leaf5]. split; [vm_compute; reflexivity|].
  repeat constructor; try (vm_compute; reflexivity); eexists; vm_compute; reflexivity.
Qed.

Lemma tree_root_items : tree_items (Cursor.pages tree_cursor) 1 tree_root = Some tree_pairs.
Proof. vm_compute. reflexivity. Qed.

Lemma tree_cursor_first_at :
  at_stack (Cursor.pages tree_cursor_first) 1 tree_root
    (Cursor.stack tree_cursor_first) tree_pairs.
Proof.
  split; [vm_compute; reflexivity|].
  exists 0%nat, [Cursor.mkRef tree_leaf4 0], [tree_leaf4; tree_leaf5], tree_leaf4,
    [(bs "a", bs "1"); (bs "b", bs "2")], [[(bs "c", bs "3"); (bs "d", bs "4")]].
  split; [reflexivity|]. split; [vm_compute; reflexivity|].
  split; [vm_compute; reflexivity|]. split.
  { repeat constructor; try (vm_compute; reflexivity); eexists; vm_compute; reflexivity. }
  split; [reflexivity|]. split.
  { split; [vm_compute; reflexivity|].
    exists 0%nat, [(bs "a", bs "1"); (bs "b", bs "2")].
    split; [reflexivity|]. split; [vm_compute; reflexivity|].
    split; [vm_compute; reflexivity|]. split; [simpl; lia|reflexivity]. }
  split; [vm_compute; reflexivity|reflexivity].
Qed.
End example_tree_facts.

(** X13.  [First] finds the first pair of the bucket.  On a tree of
    pages whose leaves all lie at the same depth and in which no page is
    empty, it returns (given more fuel than the tree is high) the first
    pair in the order of the elements, with the cursor standing on it; on
    a root leaf without elements it returns (nil, nil). *)
Theorem First_first (c : Cursor.t) (h fuel : nat) (rootp : page.t)
    (its : list (bytes * bytes)) :
  Cursor.pages c !! Cursor.root c = Some rootp ->
  tree_items (Cursor.pages c) h rootp = Some its ->
  walkable (Cursor.pages c) h rootp \/ (h = 0%nat /\ its = []) ->
  (h < fuel)%nat ->
  exists s,
    Cursor.First fuel c = Done (head its, Cursor.with_stack s c) /\
    (its <> [] -> at_stack (Cursor.pages c) h rootp s its).
Proof.
  intros Hroot Hits [Hw|[-> ->]] Hfuel.
  - destruct (First_step c h rootp its fuel Hroot Hw Hits Hfuel)
      as (s & x & rest & -> & HF & Hat).
    exists s. split; [exact HF|]. intros _. exact Hat.
  - simpl in Hits. destruct (page.is_leaf rootp) eqn:Hleaf; [|discriminate].
    pose proof (leaf_items_length _ _ Hits) as Hlen. simpl in Hlen.
    exists [Cursor.mkRef rootp 0]. split; [|contradiction].
    apply First_empty; [exact Hroot|exact Hleaf|lia|exact Hfuel].
Qed.

Lemma First_first_witness :
  exists s,
    Cursor.First 2 tree_cursor = Done (head tree_pairs, Cursor.with_stack s tree_cursor) /\
    (tree_pairs <> [] -> at_stack (Cursor.pages tree_cursor) 1 tree_root s tree_pairs).
Proof.
  apply (First_first tree_cursor 1 2 tree_root tree_pairs).
  - vm_compute. reflexivity.
  - exact tree_root_items.
  - left. exact tree_root_walkable.
  - lia.
Defined.

(** X14.  [Next] moves the cursor to the following pair.  With the
    cursor standing on a pair of such a tree, [Next] returns the pair
    that follows it in the order of the elements, also when that pair
    lies in the next leaf, and leaves the cursor standing on it; on the
    last pair it returns (nil, nil) with an empty stack, and from then on
    every [Next] returns (nil, nil). *)
Theorem Next_successor (c : Cursor.t) (h fuel : nat) (rootp : page.t)
    (x : bytes * bytes) (rest : list (bytes * bytes)) :
  at_stack (Cursor.pages c) h rootp (Cursor.stack c) (x :: rest) ->
  (h < fuel)%nat ->
  exists s,
    Cursor.Next fuel c = Done (head rest, Cursor.with_stack s c) /\
    match rest with
    | [] =>
        s = [] /\
        Cursor.Next fuel (Cursor.with_stack s c) = Done (None, Cursor.with_stack s c)
    | _ :: _ => at_stack (Cursor.pages c) h rootp s rest
    end.
Proof.
  intros Hat Hfuel.
  destruct (Next_step c h rootp x rest fuel Hat Hfuel) as (s & HN & Hs).
  exists s. split; [exact HN|].
  destruct rest as [|y rest]; [|exact Hs].
  split; [exact Hs|]. subst s. now apply Next_empty.
Qed.

Lemma Next_successor_witness :
  exists s,
    Cursor.Next 2 tree_cursor_first
      = Done (head [(bs "b", bs "2"); (bs "c", bs "3"); (bs "d", bs "4")],
              Cursor.with_stack s tree_cursor_first) /\
    at_stack (Cursor.pages tree_cursor_first) 1 tree_root s
      [(bs "b", bs "2"); (bs "c", bs "3"); (bs "d", bs "4")].
Proof.
  apply (Next_successor tree_cursor_first 1 2 tree_root (bs "a", bs "1")
           [(bs "b", bs "2"); (bs "c", bs "3"); (bs "d", bs "4")]).
  - exact tree_cursor_first_at.
  - lia.
Defined.

(** X15.  [ForEach] calls the function on every pair of the bucket, in
    the order of the elements, and stops at the first error, which it
    returns; without an error it returns nil after the last pair.  The
    bucket has one cursor more in its stats. *)
Theorem ForEach_visits {X : Type} (fn : bytes -> bytes -> X -> option error * X)
    (b : Bucket.t (gmap Z page.t)) (h n fuel : nat) (rootp : page.t)
    (its : list (bytes * bytes)) (st : X) :
  Bucket.db_open _ (Bucket.tx _ b) = true ->
  Bucket.data _ (Bucket.tx _ b) !! Bucket.root _ b = Some rootp ->
  tree_items (Bucket.data _ (Bucket.tx _ b)) h rootp = Some its ->
  walkable (Bucket.data _ (Bucket.tx _ b)) h rootp \/ (h = 0%nat /\ its = []) ->
  (h < fuel)%nat -> (length its <= n)%nat ->
  Bucket_ForEach fn n fuel b st
  = Done (visit fn its st, snd (Bucket_Cursor b)).
Proof.
  intros Hopen Hroot Hits Hw Hfuel Hn.
  unfold Bucket_ForEach. rewrite Hopen. cbn [negb].
  unfold Bucket_Cursor. cbv zeta. cbn [snd].
  set (c := Cursor.mk _ _ []).
  destruct Hw as [Hw|[-> ->]].
  - destruct (First_step c h rootp its fuel Hroot Hw Hits Hfuel)
      as (s & x & rest & -> & HF & Hat).
    rewrite HF.
    rewrite (ForEach_loop_visit fn h rootp fuel rest x (Cursor.with_stack s c) st n).
    + destruct (visit fn (x :: rest) st). reflexivity.
    + exact Hat.
    + exact Hfuel.
    + simpl in Hn. lia.
  - simpl in Hits. destruct (page.is_leaf rootp) eqn:Hleaf; [|discriminate].
    pose proof (leaf_items_length _ _ Hits) as Hlen. simpl in Hlen.
    rewrite (First_empty c rootp fuel Hroot Hleaf) by lia.
    destruct n; reflexivity.
Qed.

Lemma ForEach_visits_witness :
  Bucket_ForEach (collect_until (bs "c")) 4 2 tree_bucket []
  = Done (visit (collect_until (bs "c")) tree_pairs [], snd (Bucket_Cursor tree_bucket)).
Proof.
  apply (ForEach_visits (collect_until (bs "c")) tree_bucket 1 4 2 tree_root tree_pairs []).
  - reflexivity.
  - vm_compute. reflexivity.
  - exact tree_root_items.
  - left. exact tree_root_walkable.
  - lia.
  - simpl. lia.
Defined.

(** * Looking a key up *)

Section ordered_facts.
Variable pages : gmap Z page.t.
Implicit Types (p child leafp : page.t) (ks : list bytes) (target : bytes)
  (its kvs : list (bytes * bytes)) (lo hi : option bytes).

Lemma elem_of_concat {A} (x : A) (ls : list (list A)) :
  x ∈ concat ls <-> exists l, x ∈ l /\ l ∈ ls.
Proof.
  induction ls as [|l0 ls IH]; simpl.
  - split; [intros H; inversion H|intros (l & _ & H); inversion H].
  - rewrite elem_of_app, IH. split.
    + intros [H|(l & H1 & H2)]; [exists l0; split; [exact H|left]|exists l; split; [exact H1|now right]].
    + intros (l & H1 & H2). apply elem_of_cons in H2. destruct H2 as [->|H2]; [now left|].
      right. eauto.
Qed.

Lemma leaf_items_keys p kvs :
  leaf_items p = Some kvs -> page.leaf_keys p = Some (map fst kvs).
Proof.
  intros Hl. pose proof (leaf_items_length p kvs Hl) as Hlen.
  unfold page.leaf_keys. apply mapM_Some_2. apply Forall2_same_length_lookup_2.
  - rewrite length_seq, length_map. lia.
  - intros i x k Hx Hk.
    change (map fst kvs) with (fst <$> kvs) in Hk.
    rewrite list_lookup_fmap in Hk.
    destruct (kvs !! i) as [[k' v]|] eqn:Hi; [|discriminate]. simpl in Hk.
    inversion Hk; subst k'.
    apply lookup_seq in Hx. destruct Hx as [-> _]. simpl.
    apply (leaf_items_lookup p kvs i k v Hl Hi).
Qed.

Lemma above_trans lo k x : above lo k -> bytes_le k x -> above lo x.
Proof.
  destruct lo as [l|]; simpl; [|trivial]. intros H1 H2. eapply bytes_le_trans; eauto.
Qed.

Lemma below_trans hi k x : bytes_lt x k -> below hi k -> below hi x.
Proof.
  destruct hi as [u|]; simpl; [|trivial]. intros H1 H2. eapply Compare_lt_trans; eauto.
Qed.

(** A search tree is a tree in the sense of the cursor. *)
Lemma ordered_btree h :
  forall lo hi p, ordered pages h lo hi p -> btree pages h p.
Proof.
  induction h as [|h IH]; intros lo hi p Ho.
  - destruct Ho as (Hleaf & Hcount & kvs & Hkvs & Hss & _).
    split; [exact Hleaf|]. split; [exact Hcount|].
    exists (map fst kvs). split; [now apply leaf_items_keys|]. split; [exact Hss|].
    intros i Hi. rewrite length_map in Hi.
    destruct (lookup_lt_is_Some_2 kvs i Hi) as [[k v] Hkv].
    exists v. apply (leaf_items_lookup p kvs i k v Hkvs Hkv).
  - destruct Ho as (Hleaf & Hbranch & Hcount & ks & cs & Hks & Hss & Hcs & _ & Hkids).
    split; [exact Hleaf|]. split; [exact Hbranch|]. split; [exact Hcount|].
    exists ks. split; [exact Hks|]. split; [exact Hss|].
    intros i Hi.
    pose proof (mapM_seq_lookup _ _ _ Hks) as [Hlen _].
    pose proof (branch_children_length pages p cs Hcs) as Hlen'.
    destruct (lookup_lt_is_Some_2 cs i) as [child Hchild]; [lia|].
    pose proof (branch_children_lookup pages p cs i child Hcs Hchild) as Hb.
    destruct (page.branch_pgid p (Z.of_nat i)) as [pg|]; [|discriminate].
    cbn [mbind option_bind] in Hb.
    exists pg, child. split; [reflexivity|]. split; [exact Hb|].
    eapply IH. apply Hkids. exact Hchild.
Qed.

(** The pairs of a search tree lie within its bounds. *)
Lemma items_bounded h :
  forall lo hi p its,
    ordered pages h lo hi p -> tree_items pages h p = Some its ->
    Forall (fun kv => above lo (fst kv) /\ below hi (fst kv)) its.
Proof.
  induction h as [|h IH]; intros lo hi p its Ho Hits.
  - destruct Ho as (Hleaf & _ & kvs & Hkvs & _ & Hb).
    simpl in Hits. rewrite Hleaf in Hits. congruence.
  - destruct Ho as (Hleaf & _ & Hcount & ks & cs & Hks & Hss & Hcs & Hkb & Hkids).
    simpl in Hits. rewrite Hleaf, Hcs in Hits. cbn [mbind option_bind] in Hits.
    destruct (mapM (tree_items pages h) cs) as [l|] eqn:Hl; [|discriminate].
    simpl in Hits. inversion Hits; subst its. clear Hits.
    apply Forall_concat. apply Forall_lookup. intros i li Hli.
    apply mapM_Some_1 in Hl.
    destruct (Forall2_lookup_r _ _ _ _ _ Hl Hli) as (child & Hchild & Hci).
    specialize (IH _ _ _ _ (Hkids i child Hchild) Hci).
    eapply Forall_impl; [exact IH|]. intros [k v] [Ha Hb]. simpl in *.
    pose proof (mapM_seq_lookup _ _ _ Hks) as [Hlen _].
    pose proof (branch_children_length pages p cs Hcs) as Hlen'.
    pose proof (lookup_lt_Some _ _ _ Hchild) as Hilt.
    split.
    + destruct i as [|i]; [exact Ha|].
      destruct (lookup_lt_is_Some_2 ks (Datatypes.S i)) as [ki Hki]; [lia|].
      rewrite Hki in Ha. simpl in Ha. eapply above_trans; [|exact Ha].
      apply (Hkb (Datatypes.S i) ki); [lia|exact Hki].
    + destruct (ks !! Datatypes.S i) as [kn|] eqn:Hkn; [|exact Hb].
      simpl in Hb. eapply below_trans; [exact Hb|].
      apply (Hkb (Datatypes.S i) kn); [lia|exact Hkn].
Qed.

(** The index that [search] takes at a branch: its key, if it is not
    the first, is [<=] the target, and every later key is above the
    target. *)
Lemma spec_branch_index_bounds ks target :
  strictly_sorted_keys ks ->
  (forall k, (0 < spec_branch_index ks target)%nat ->
     ks !! spec_branch_index ks target = Some k -> bytes_le k target) /\
  (forall j k, (spec_branch_index ks target < j)%nat ->
     ks !! j = Some k -> bytes_lt target k).
Proof.
  intros Hss. pose proof (strictly_sorted_sorted ks Hss) as Hs.
  unfold spec_branch_index. set (lb := lower_bound ks target).
  assert (Habsent : forall a x, (lb <= a)%nat -> ks !! a = Some x -> x <> target ->
                     bytes_lt target x).
  { intros a x Ha Hx Hne.
    pose proof (lower_bound_after ks target a x Hs Ha Hx) as Hge.
    apply bytes_le_lt_or_eq in Hge. destruct Hge as [Hlt|Heq]; [exact Hlt|congruence]. }
  assert (Hexact : forall a, ks !! a = Some target -> ks !! lb = Some target).
  { intros a Ha. apply lower_bound_present; [exact Hs|].
    eapply list_elem_of_lookup_2; eauto. }
  destruct (match ks !! lb with Some k => Equal k target | None => false end) eqn:Hex.
  - destruct (ks !! lb) as [k|] eqn:Ek; [|discriminate].
    apply Equal_eq in Hex. subst k. simpl negb. simpl andb. cbv iota. split.
    + intros k _ Hk. rewrite Ek in Hk. inversion Hk. apply bytes_le_refl.
    + intros j k Hj Hk.
      apply (StronglySorted_lookup bytes_lt ks lb j target k Hss Hj Ek Hk).
  - assert (Hnot : forall a, ks !! a <> Some target).
    { intros a Ha. rewrite (Hexact a Ha) in Hex. rewrite (proj2 (Equal_eq _ _) eq_refl) in Hex.
      discriminate. }
    simpl negb. rewrite andb_true_l.
    destruct (0 <? lb)%nat eqn:E0.
    + apply Nat.ltb_lt in E0. split.
      * intros k _ Hk. apply bytes_lt_le.
        apply (lower_bound_before ks target (lb - 1) k); [fold lb; lia|exact Hk].
      * intros j k Hj Hk. apply (Habsent j k); [lia|exact Hk|].
        intros ->. now apply (Hnot j).
    + apply Nat.ltb_ge in E0. split.
      * intros k Hlt. lia.
      * intros j k Hj Hk. apply (Habsent j k); [lia|exact Hk|].
        intros ->. now apply (Hnot j).
Qed.

(** The leaf that the descent for [target] ends in holds every pair of
    the tree with the key [target], and only pairs of the tree. *)
Lemma descent_finds target h :
  forall lo hi p its stk top,
    ordered pages h lo hi p -> tree_items pages h p = Some its ->
    descent pages target p stk -> last stk = Some top ->
    above lo target -> below hi target ->
    exists kvs,
      leaf_items (Cursor.ref_page top) = Some kvs /\
      strictly_sorted_keys (map fst kvs) /\
      (forall kv, kv ∈ kvs -> kv ∈ its) /\
      (forall v, (target, v) ∈ its -> (target, v) ∈ kvs).
Proof.
  induction h as [|h IH]; intros lo hi p its stk top Ho Hits Hd Hlast Hlo Hhi.
  - destruct Ho as (Hleaf & _ & kvs & Hkvs & Hss & _).
    simpl in Hits. rewrite Hleaf in Hits.
    assert (its = kvs) by congruence. subst its.
    inversion Hd as [p' ks' Hl' Hks'|p' ks' pg child rest Hl' ]; subst; [|congruence].
    simpl in Hlast. inversion Hlast; subst top. simpl.
    exists kvs. auto.
  - destruct Ho as (Hleaf & _ & Hcount & ks & cs & Hks & Hss & Hcs & Hkb & Hkids).
    simpl in Hits. rewrite Hleaf, Hcs in Hits. cbn [mbind option_bind] in Hits.
    destruct (mapM (tree_items pages h) cs) as [l|] eqn:Hl; [|discriminate].
    simpl in Hits. inversion Hits; subst its. clear Hits.
    inversion Hd as [p' ks' Hl' Hks'|p' ks' pg child rest Hl' Hks' Hpg Hchild Hrest];
      subst; [congruence|].
    assert (ks' = ks) by congruence. subst ks'.
    set (i := spec_branch_index ks target) in *.
    pose proof (mapM_seq_lookup _ _ _ Hks) as [Hlen _].
    pose proof (branch_children_length pages p cs Hcs) as Hlen'.
    assert (Hne : ks <> []) by (intros ->; simpl in Hlen; lia).
    pose proof (spec_branch_index_lt ks target Hne) as Hi. fold i in Hi.
    destruct (lookup_lt_is_Some_2 cs i) as [child' Hchild']; [lia|].
    pose proof (branch_children_lookup pages p cs i child' Hcs Hchild') as Hb.
    rewrite Hpg in Hb. cbn [mbind option_bind] in Hb.
    assert (child' = child) by congruence. subst child'.
    pose proof (mapM_Some_1 _ _ _ Hl) as Hl2.
    destruct (Forall2_lookup_l _ _ _ _ _ Hl2 Hchild') as (li & Hli & Hci).
    destruct (spec_branch_index_bounds ks target Hss) as [Hb1 Hb2]. fold i in Hb1, Hb2.
    assert (Hlast' : last rest = Some top).
    { destruct rest as [|r0 rest']; [inversion Hrest|]. exact Hlast. }
    destruct (IH _ _ child li rest top (Hkids i child Hchild') Hci Hrest Hlast')
      as (kvs & Hkvs & Hsk & Hsub & Hfind).
    { destruct i as [|i'] eqn:Ei; [exact Hlo|].
      destruct (lookup_lt_is_Some_2 ks (Datatypes.S i')) as [ki Hki]; [lia|].
      rewrite Hki. simpl. apply Hb1; [lia|exact Hki]. }
    { destruct (ks !! Datatypes.S i) as [kn|] eqn:Hkn; [|exact Hhi].
      simpl. apply (Hb2 (Datatypes.S i) kn); [lia|exact Hkn]. }
    exists kvs. split; [exact Hkvs|]. split; [exact Hsk|]. split.
    + intros kv Hkv. apply elem_of_concat. exists li.
      split; [now apply Hsub|]. eapply list_elem_of_lookup_2; eauto.
    + intros v Hv. apply Hfind.
      apply elem_of_concat in Hv. destruct Hv as (lj & Hin & Hlj).
      apply list_elem_of_lookup_1 in Hlj. destruct Hlj as [j Hj].
      destruct (Forall2_lookup_r _ _ _ _ _ Hl2 Hj) as (cj & Hcj & Hij).
      pose proof (items_bounded h _ _ cj lj (Hkids j cj Hcj) Hij) as Hbd.
      rewrite Forall_forall in Hbd. destruct (Hbd _ Hin) as [Ha Hbl]. simpl in Ha, Hbl.
      pose proof (lookup_lt_Some _ _ _ Hcj) as Hjlt.
      destruct (Nat.lt_trichotomy j i) as [Hlt|[Heq|Hgt]].
      * exfalso.
        destruct (lookup_lt_is_Some_2 ks (Datatypes.S j)) as [kn Hkn]; [lia|].
        rewrite Hkn in Hbl. simpl in Hbl.
        destruct (lookup_lt_is_Some_2 ks i) as [ki Hki]; [lia|].
        assert (Hle : bytes_le ki target) by (apply Hb1; [lia|exact Hki]).
        assert (Hle2 : bytes_le kn ki).
        { destruct (decide (Datatypes.S j = i)) as [E|E].
          - rewrite E in Hkn. assert (kn = ki) by congruence. subst. apply bytes_le_refl.
          - apply bytes_lt_le.
            apply (StronglySorted_lookup bytes_lt ks (Datatypes.S j) i kn ki Hss);
              [lia|exact Hkn|exact Hki]. }
        apply (bytes_lt_irrefl target).
        eapply bytes_lt_le_trans; [exact Hbl|]. eapply bytes_le_trans; eauto.
      * subst j. assert (lj = li) by congruence. now subst lj.
      * exfalso. destruct j as [|j']; [lia|].
        destruct (lookup_lt_is_Some_2 ks (Datatypes.S j')) as [kj Hkj]; [lia|].
        rewrite Hkj in Ha. simpl in Ha.
        apply (bytes_lt_irrefl target).
        eapply bytes_lt_le_trans; [|exact Ha].
        apply (Hb2 (Datatypes.S j') kj); [lia|exact Hkj].
Qed.
End ordered_facts.

Section seek_ordered_facts.
Implicit Types (c : Cursor.t) (rootp leafp : page.t) (target : bytes)
  (its kvs : list (bytes * bytes)).

(** [Seek] on a search tree: the pair it returns is a pair of the tree
    whose key is not below the target, and it is the pair of the target
    when the tree has one. *)
Lemma Seek_ordered c target h fuel rootp its :
  Cursor.pages c !! Cursor.root c = Some rootp ->
  ordered (Cursor.pages c) h None None rootp ->
  tree_items (Cursor.pages c) h rootp = Some its ->
  (h < fuel)%nat ->
  exists res stk,
    Cursor.Seek fuel target c = Done (res, Cursor.with_stack stk c) /\
    (forall k v, res = Some (k, v) -> bytes_le target k /\ (k, v) ∈ its) /\
    (forall v, (target, v) ∈ its -> res = Some (target, v)).
Proof.
  intros Hroot Ho Hits Hfuel. unfold Cursor.Seek. rewrite Hroot.
  pose proof (ordered_btree (Cursor.pages c) h None None rootp Ho) as Hbt.
  destruct (search_spec target h fuel rootp (Cursor.with_stack [] c))
    as (stk & leafp & ks & Hs & Hd & _ & Hlast & Hbl & Hlk); [exact Hbt|exact Hfuel|].
  cbn [Cursor.stack Cursor.with_stack Cursor.pages Cursor.root app] in Hs, Hd, Hbl.
  rewrite Hs. cbn [Cursor.stack Cursor.with_stack].
  assert (Htop : stk !! (length stk - 1)%nat
                 = Some (Cursor.mkRef leafp (Z.of_nat (lower_bound ks target)))).
  { rewrite <- Hlast. rewrite last_lookup. f_equal. lia. }
  rewrite Htop. cbn [Cursor.ref_index Cursor.ref_page].
  destruct (descent_finds (Cursor.pages c) target h None None rootp its stk _
              Ho Hits Hd Hlast I I) as (kvs & Hkvs & Hss & Hsub & Hfind).
  cbn [Cursor.ref_page] in Hkvs.
  pose proof (leaf_items_keys leafp kvs Hkvs) as Hks'.
  assert (ks = map fst kvs) by congruence. subst ks.
  pose proof (leaf_items_length leafp kvs Hkvs) as Hlen.
  destruct Hbl as (_ & Hcount & _).
  pose proof (strictly_sorted_sorted _ Hss) as Hsorted.
  pose proof (lower_bound_le (map fst kvs) target) as Hlb. rewrite length_map in Hlb.
  set (lb := lower_bound (map fst kvs) target) in *.
  assert (Hpresent : forall v, (target, v) ∈ kvs -> kvs !! lb = Some (target, v)).
  { intros v Hv. apply list_elem_of_lookup_1 in Hv. destruct Hv as [j Hj].
    assert (Hkj : map fst kvs !! j = Some target).
    { change (map fst kvs) with (fst <$> kvs). now rewrite list_lookup_fmap, Hj. }
    assert (Hkl : map fst kvs !! lb = Some target).
    { apply lower_bound_present; [exact Hsorted|]. eapply list_elem_of_lookup_2; eauto. }
    destruct (Nat.lt_trichotomy j lb) as [Hlt|[->|Hgt]]; [exfalso|exact Hj|exfalso].
    - apply (bytes_lt_irrefl target).
      apply (StronglySorted_lookup bytes_lt _ j lb target target Hss Hlt Hkj Hkl).
    - apply (bytes_lt_irrefl target).
      apply (StronglySorted_lookup bytes_lt _ lb j target target Hss Hgt Hkl Hkj). }
  destruct (Z.eqb_spec (Z.of_nat lb) (page.count leafp)) as [E|E].
  - exists None, stk. split; [reflexivity|]. split; [discriminate|].
    intros v Hv. specialize (Hpresent v (Hfind v Hv)).
    apply lookup_lt_Some in Hpresent. lia.
  - assert (Hlt : (lb < length kvs)%nat) by lia.
    destruct (lookup_lt_is_Some_2 kvs lb Hlt) as [[k v] Hkv].
    destruct (leaf_items_lookup leafp kvs lb k v Hkvs Hkv) as [Hk Hv].
    rewrite Hk, Hv. exists (Some (k, v)), stk. split; [reflexivity|]. split.
    + intros k' v' Heq. inversion Heq; subst k' v'. split.
      * apply (lower_bound_after (map fst kvs) target lb k Hsorted); [fold lb; lia|].
        change (map fst kvs) with (fst <$> kvs). now rewrite list_lookup_fmap, Hkv.
      * apply Hsub. eapply list_elem_of_lookup_2; eauto.
    + intros v' Hv'. specialize (Hpresent v' (Hfind v' Hv')). congruence.
Qed.

Lemma tree_root_ordered : ordered (Cursor.pages tree_cursor) 1 None None tree_root.
Proof.
  split; [vm_compute; reflexivity|]. split; [vm_compute; reflexivity|].
  split; [split; vm_compute; reflexivity|].
  exists [bs "a"; bs "c"], [tree_leaf4; tree_leaf5].
  split; [vm_compute; reflexivity|]. split.
  { repeat constructor. }
  split; [vm_compute; reflexivity|]. split.
  { intros i k _ _. split; exact I. }
  intros [|[|i]] child Hchild; simpl in Hchild; inversion Hchild; subst child.
  - split; [vm_compute; reflexivity|]. split; [split; vm_compute; congruence|].
    exists [(bs "a", bs "1"); (bs "b", bs "2")]. split; [vm_compute; reflexivity|].
    split; repeat constructor.
  - split; [vm_compute; reflexivity|]. split; [split; vm_compute; congruence|].
    exists [(bs "c", bs "3"); (bs "d", bs "4")]. split; [vm_compute; reflexivity|].
    split; repeat constructor; vm_compute; congruence.
Qed.
End seek_ordered_facts.

(** X16.  [Seek] finds the target in a search tree.  On a tree of pages
    in which the keys of every page ascend strictly and the keys of a
    branch separate the keys of its subtrees, [Seek] returns (given more
    fuel than the tree is high); a pair it returns is a pair of the tree
    and its key is not below the target; and when the tree holds the
    target, it returns the target with its value. *)
Theorem Seek_finds (c : Cursor.t) (target : bytes) (h fuel : nat) (rootp : page.t)
    (its : list (bytes * bytes)) :
  Cursor.pages c !! Cursor.root c = Some rootp ->
  ordered (Cursor.pages c) h None None rootp ->
  tree_items (Cursor.pages c) h rootp = Some its ->
  (h < fuel)%nat ->
  exists res stk,
    Cursor.Seek fuel target c = Done (res, Cursor.with_stack stk c) /\
    (forall k v, res = Some (k, v) -> bytes_le target k /\ (k, v) ∈ its) /\
    (forall v, (target, v) ∈ its -> res = Some (target, v)).
Proof. apply Seek_ordered. Qed.

Lemma Seek_finds_witness :
  exists res stk,
    Cursor.Seek 2 (bs "d") tree_cursor = Done (res, Cursor.with_stack stk tree_cursor) /\
    (forall k v, res = Some (k, v) -> bytes_le (bs "d") k /\ (k, v) ∈ tree_pairs) /\
    (forall v, (bs "d", v) ∈ tree_pairs -> res = Some (bs "d", v)).
Proof.
  apply (Seek_finds tree_cursor (bs "d") 1 2 tree_root tree_pairs).
  - vm_compute. reflexivity.
  - exact tree_root_ordered.
  - vm_compute. reflexivity.
  - lia.
Defined.

(** X17.  [Get] is the lookup of the bucket.  In an open transaction, on
    such a search tree, [Get] returns the value that the tree holds for
    the key, and nil when the tree does not hold the key; the bucket has
    one cursor more in its stats and is otherwise unchanged. *)
Theorem Get_lookup (b : Bucket.t (gmap Z page.t)) (key : bytes) (h fuel : nat)
    (rootp : page.t) (its : list (bytes * bytes)) :
  Bucket.db_open _ (Bucket.tx _ b) = true ->
  Bucket.data _ (Bucket.tx _ b) !! Bucket.root _ b = Some rootp ->
  ordered (Bucket.data _ (Bucket.tx _ b)) h None None rootp ->
  tree_items (Bucket.data _ (Bucket.tx _ b)) h rootp = Some its ->
  (h < fuel)%nat ->
  exists r,
    Bucket_Get fuel key b = Done (r, snd (Bucket_Cursor b)) /\
    (forall v, (key, v) ∈ its -> r = Some v) /\
    ((forall v, (key, v) ∉ its) -> r = None).
Proof.
  intros Hopen Hroot Ho Hits Hfuel.
  unfold Bucket_Get. rewrite Hopen. cbn [negb].
  unfold Bucket_Cursor. cbv zeta. cbn [snd].
  set (c := Cursor.mk _ _ []).
  destruct (Seek_ordered c key h fuel rootp its Hroot Ho Hits Hfuel)
    as (res & stk & HS & Hres & Hfind).
  rewrite HS. destruct res as [[k v]|]; cbn [from_option fst snd fmap option_fmap option_map].
  - destruct (Equal key k) eqn:E; cbn [negb].
    + apply Equal_eq in E. subst k. eexists. split; [reflexivity|]. split.
      * intros v' Hv'. specialize (Hfind v' Hv'). congruence.
      * intros Hno. exfalso. apply (Hno v). now apply (Hres key v).
    + apply Equal_false in E. eexists. split; [reflexivity|]. split; [|reflexivity].
      intros v' Hv'. specialize (Hfind v' Hv'). congruence.
  - destruct (Equal key []) eqn:E; cbn [negb];
      (eexists; split; [reflexivity|]; split; [|reflexivity]);
      intros v' Hv'; specialize (Hfind v' Hv'); discriminate.
Qed.

Lemma Get_lookup_witness :
  exists r,
    Bucket_Get 2 (bs "c") tree_bucket = Done (r, snd (Bucket_Cursor tree_bucket)) /\
    (forall v, (bs "c", v) ∈ tree_pairs -> r = Some v) /\
    ((forall v, (bs "c", v) ∉ tree_pairs) -> r = None).
Proof.
  apply (Get_lookup tree_bucket (bs "c") 1 2 tree_root tree_pairs).
  - reflexivity.
  - vm_compute. reflexivity.
  - exact tree_root_ordered.
  - vm_compute. reflexivity.
  - lia.
Defined.

(** * The order of the traversal *)

Section traversal_order_facts.
Variable pages : gmap Z page.t.
Implicit Types (p child : page.t) (ks : list bytes)
  (its kvs rest : list (bytes * bytes)) (lo hi : option bytes).

Lemma strictly_sorted_concat (l : list (list (bytes * bytes))) :
  Forall (fun li => strictly_sorted_keys (map fst li)) l ->
  (forall i j li lj x y,
     (i < j)%nat -> l !! i = Some li -> l !! j = Some lj ->
     x ∈ li -> y ∈ lj -> bytes_lt (fst x) (fst y)) ->
  strictly_sorted_keys (map fst (concat l)).
Proof.
  induction l as [|l0 l IH]; intros Hall Hcross; simpl; [constructor|].
  apply Forall_cons in Hall. destruct Hall as [H0 Hall].
  rewrite map_app. apply StronglySorted_app. split; [|split; [exact H0|]].
  - intros k1 k2 Hk1 Hk2.
    apply (list_elem_of_fmap_1 fst) in Hk1. destruct Hk1 as (x & -> & Hx).
    apply (list_elem_of_fmap_1 fst) in Hk2. destruct Hk2 as (y & -> & Hy).
    apply elem_of_concat in Hy. destruct Hy as (lj & Hy & Hlj).
    apply list_elem_of_lookup_1 in Hlj. destruct Hlj as [j Hj].
    apply (Hcross 0%nat (Datatypes.S j) l0 lj x y); [lia|reflexivity|exact Hj|exact Hx|exact Hy].
  - apply IH; [exact Hall|].
    intros i j li lj x y Hij Hi Hj. apply (Hcross (Datatypes.S i) (Datatypes.S j)); [lia|exact Hi|exact Hj].
Qed.

(** The pairs of a search tree, from left to right, ascend strictly
    by key. *)
Lemma items_sorted h :
  forall lo hi p its,
    ordered pages h lo hi p -> tree_items pages h p = Some its ->
    strictly_sorted_keys (map fst its).
Proof.
  induction h as [|h IH]; intros lo hi p its Ho Hits.
  - destruct Ho as (Hleaf & _ & kvs & Hkvs & Hss & _).
    simpl in Hits. rewrite Hleaf in Hits. congruence.
  - pose proof Ho as (Hleaf & _ & Hcount & ks & cs & Hks & Hss & Hcs & Hkb & Hkids).
    simpl in Hits. rewrite Hleaf, Hcs in Hits. cbn [mbind option_bind] in Hits.
    destruct (mapM (tree_items pages h) cs) as [l|] eqn:Hl; [|discriminate].
    simpl in Hits. inversion Hits; subst its. clear Hits.
    apply mapM_Some_1 in Hl.
    pose proof (mapM_seq_lookup _ _ _ Hks) as [Hlen _].
    pose proof (branch_children_length pages p cs Hcs) as Hlen'.
    apply strictly_sorted_concat.
    + apply Forall_lookup. intros i li Hli.
      destruct (Forall2_lookup_r _ _ _ _ _ Hl Hli) as (child & Hchild & Hci).
      eapply IH; [apply (Hkids i child Hchild)|exact Hci].
    + intros i j li lj x y Hij Hli Hlj Hx Hy.
      destruct (Forall2_lookup_r _ _ _ _ _ Hl Hli) as (ci & Hci & Hii).
      destruct (Forall2_lookup_r _ _ _ _ _ Hl Hlj) as (cj & Hcj & Hij').
      pose proof (items_bounded pages h _ _ ci li (Hkids i ci Hci) Hii) as Hbi.
      pose proof (items_bounded pages h _ _ cj lj (Hkids j cj Hcj) Hij') as Hbj.
      rewrite Forall_forall in Hbi, Hbj.
      destruct (Hbi x Hx) as [_ Hxhi]. destruct (Hbj y Hy) as [Hylo _].
      pose proof (lookup_lt_Some _ _ _ Hcj) as Hjlt.
      destruct (lookup_lt_is_Some_2 ks (Datatypes.S i)) as [kn Hkn]; [lia|].
      rewrite Hkn in Hxhi. simpl in Hxhi.
      destruct j as [|j']; [lia|].
      destruct (lookup_lt_is_Some_2 ks (Datatypes.S j')) as [kj Hkj]; [lia|].
      rewrite Hkj in Hylo. simpl in Hylo.
      assert (Hle : bytes_le kn kj).
      { destruct (decide (i = j')) as [E|E].
        - subst j'. assert (kn = kj) by congruence. subst. apply bytes_le_refl.
        - apply bytes_lt_le.
          apply (StronglySorted_lookup bytes_lt ks (Datatypes.S i) (Datatypes.S j') kn kj Hss);
            [lia|exact Hkn|exact Hkj]. }
      eapply bytes_lt_le_trans; [exact Hxhi|]. eapply bytes_le_trans; eauto.
Qed.

(** What lies from the cursor on is the end of the pairs of the tree. *)
Lemma at_stack_suffix h :
  forall p s rest its,
    at_stack pages h p s rest -> tree_items pages h p = Some its ->
    exists before, its = before ++ rest.
Proof.
  induction h as [|h IH]; intros p s rest its [_ Hat] Hits.
  - destruct Hat as (i & kvs & _ & Hleaf & Hkvs & _ & ->).
    simpl in Hits. rewrite Hleaf in Hits. assert (its = kvs) by congruence. subst.
    exists (take i kvs). now rewrite take_drop.
  - destruct Hat as (i & s' & cs & child & rest' & later & _ & Hleaf & Hcs & _ & Hi & Hch & Hlater & ->).
    simpl in Hits. rewrite Hleaf, Hcs in Hits. cbn [mbind option_bind] in Hits.
    destruct (mapM (tree_items pages h) cs) as [l|] eqn:Hl; [|discriminate].
    simpl in Hits. inversion Hits; subst its. clear Hits.
    rewrite <- (take_drop i cs) in Hl.
    apply mapM_app_inv in Hl. destruct Hl as (k1 & k2 & _ & H2 & ->).
    rewrite (drop_S cs child i Hi) in H2.
    destruct (mapM_cons_inv _ _ _ _ H2) as (li & later' & Hli & Hl' & ->).
    assert (later' = later) by congruence. subst later'.
    destruct (IH _ _ _ _ Hch Hli) as (before & ->).
    exists (concat k1 ++ before). rewrite concat_app. simpl.
    now rewrite <- !app_assoc.
Qed.
End traversal_order_facts.

(** X18.  The traversal is in key order.  On a search tree without empty
    pages, [Next] moves the cursor to a pair with a strictly greater key,
    or reports the end: the pairs come out in strictly ascending order of
    their keys, and none is returned twice. *)
Theorem Next_ascending (c : Cursor.t) (h fuel : nat) (rootp : page.t)
    (its rest : list (bytes * bytes)) (x : bytes * bytes) :
  ordered (Cursor.pages c) h None None rootp ->
  tree_items (Cursor.pages c) h rootp = Some its ->
  at_stack (Cursor.pages c) h rootp (Cursor.stack c) (x :: rest) ->
  (h < fuel)%nat ->
  exists r c',
    Cursor.Next fuel c = Done (r, c') /\
    (forall k v, r = Some (k, v) -> bytes_lt (fst x) k /\ (k, v) ∈ its) /\
    (r = None -> rest = []).
Proof.
  intros Ho Hits Hat Hfuel.
  destruct (Next_step c h rootp x rest fuel Hat Hfuel) as (s & HN & _).
  exists (head rest), (Cursor.with_stack s c). split; [exact HN|].
  pose proof (items_sorted (Cursor.pages c) h None None rootp its Ho Hits) as Hsorted.
  destruct (at_stack_suffix (Cursor.pages c) h rootp _ _ its Hat Hits) as (before & ->).
  split.
  - intros k v Hr. destruct rest as [|y rest]; [discriminate|].
    simpl in Hr. inversion Hr; subst y. split.
    + rewrite map_app in Hsorted. apply StronglySorted_app_1_r in Hsorted.
      simpl in Hsorted. apply StronglySorted_cons in Hsorted. destruct Hsorted as [Hfa _].
      apply Forall_cons in Hfa. exact (proj1 Hfa).
    + apply elem_of_app. right. right. left.
  - intros Hr. destruct rest; [reflexivity|discriminate].
Qed.

Lemma Next_ascending_witness :
  exists r c',
    Cursor.Next 2 tree_cursor_first = Done (r, c') /\
    (forall k v, r = Some (k, v) -> bytes_lt (fst (bs "a", bs "1")) k /\ (k, v) ∈ tree_pairs) /\
    (r = None -> [(bs "b", bs "2"); (bs "c", bs "3"); (bs "d", bs "4")] = []).
Proof.
  apply (Next_ascending tree_cursor_first 1 2 tree_root tree_pairs
           [(bs "b", bs "2"); (bs "c", bs "3"); (bs "d", bs "4")] (bs "a", bs "1")).
  - exact tree_root_ordered.
  - vm_compute. reflexivity.
  - exact tree_cursor_first_at.
  - lia.
Defined.

(** * Further properties of the database and the bucket *)

Section mmapSize_facts.
(** The rounding of [mmapSize] gives the least multiple of the page
    size that is not below the grown size. *)
Lemma mmapSize_rounds (db : DB.t) (size : Z) :
  0 < DB.pageSize db ->
  DB.minMmapSize <= size ->
  size + DB.maxMmapStep + DB.pageSize db < 2 ^ 63 ->
  exists r,
    DB.mmapSize db size = Some r /\
    (let grown := if size <? DB.maxMmapStep then size * 2 else size + DB.maxMmapStep in
     grown <= r < grown + DB.pageSize db /\ r mod DB.pageSize db = 0).
Proof.
  intros Hp Hmin Hrange. unfold DB.mmapSize.
  assert (Hminv : DB.minMmapSize = 4194304) by reflexivity.
  assert (Hmax : DB.maxMmapStep = 1073741824) by reflexivity.
  assert (E1 : (size <? DB.minMmapSize) = false) by (apply Z.ltb_ge; lia).
  rewrite E1.
  set (grown := if size <? DB.maxMmapStep then size * 2 else size + DB.maxMmapStep).
  assert (Hg : DB.minMmapSize <= grown /\ grown + DB.pageSize db <= 2 ^ 63).
  { unfold grown. destruct (size <? DB.maxMmapStep) eqn:E2.
    - apply Z.ltb_lt in E2. lia.
    - apply Z.ltb_ge in E2. lia. }
  assert (Hw : (if size <? DB.maxMmapStep then int_wrap (size * 2)
                else int_wrap (size + DB.maxMmapStep)) = grown).
  { unfold grown. destruct (size <? DB.maxMmapStep); apply int_wrap_small; lia. }
  rewrite Hw. clearbody grown.
  assert (Hp0 : (DB.pageSize db =? 0) = false) by (apply Z.eqb_neq; lia).
  rewrite Hp0.
  rewrite Z.rem_mod_nonneg by lia. rewrite Z.quot_div_nonneg by lia.
  pose proof (Z.div_mod grown (DB.pageSize db) ltac:(lia)) as Hdm.
  pose proof (Z.mod_pos_bound grown (DB.pageSize db) Hp) as Hmb.
  assert (Hq : 0 <= grown / DB.pageSize db) by (apply Z.div_pos; lia).
  destruct (grown mod DB.pageSize db =? 0) eqn:E3; simpl negb; cbv iota.
  - apply Z.eqb_eq in E3. exists grown. split; [reflexivity|]. split; [lia|exact E3].
  - apply Z.eqb_neq in E3.
    set (q := grown / DB.pageSize db) in *.
    assert (Hq2 : q <= grown) by nia.
    rewrite (int_wrap_small q) by lia.
    rewrite (int_wrap_small (q + 1)) by lia.
    rewrite (int_wrap_small ((q + 1) * DB.pageSize db)) by nia.
    exists ((q + 1) * DB.pageSize db).
    split; [reflexivity|]. split; [nia|]. apply Z.mod_mul. lia.
Qed.
End mmapSize_facts.

(** X19.  [mmapSize] is monotone: for a positive page size, a larger
    database never gets a smaller mapping (within the range in which
    [int] does not overflow). *)
Theorem mmapSize_monotone (db : DB.t) (size1 size2 : Z) :
  0 < DB.pageSize db ->
  size1 <= size2 ->
  size2 + DB.maxMmapStep + DB.pageSize db < 2 ^ 63 ->
  exists r1 r2,
    DB.mmapSize db size1 = Some r1 /\
    DB.mmapSize db size2 = Some r2 /\
    r1 <= r2.
Proof.
  intros Hp Hle Hrange.
  assert (Hminv : DB.minMmapSize = 4194304) by reflexivity.
  assert (Hmax : DB.maxMmapStep = 1073741824) by reflexivity.
  destruct (Z.lt_ge_cases size2 DB.minMmapSize) as [H2|H2].
  - exists DB.minMmapSize, DB.minMmapSize. unfold DB.mmapSize.
    assert (E1 : (size1 <? DB.minMmapSize) = true) by (apply Z.ltb_lt; lia).
    assert (E2 : (size2 <? DB.minMmapSize) = true) by (apply Z.ltb_lt; lia).
    rewrite E1, E2. repeat split; lia.
  - destruct (mmapSize_rounds db size2 Hp H2 Hrange) as (r2 & Hr2 & Hb2 & Hm2).
    destruct (Z.lt_ge_cases size1 DB.minMmapSize) as [H1|H1].
    + exists DB.minMmapSize, r2. unfold DB.mmapSize at 1.
      assert (E1 : (size1 <? DB.minMmapSize) = true) by (apply Z.ltb_lt; lia).
      rewrite E1. split; [reflexivity|]. split; [exact Hr2|].
      destruct (size2 <? DB.maxMmapStep); lia.
    + destruct (mmapSize_rounds db size1 Hp H1 ltac:(lia)) as (r1 & Hr1 & Hb1 & Hm1).
      exists r1, r2. split; [exact Hr1|]. split; [exact Hr2|].
      set (g1 := if size1 <? DB.maxMmapStep then size1 * 2 else size1 + DB.maxMmapStep) in *.
      set (g2 := if size2 <? DB.maxMmapStep then size2 * 2 else size2 + DB.maxMmapStep) in *.
      assert (Hg : g1 <= g2).
      { unfold g1, g2.
        destruct (Z.ltb_spec size1 DB.maxMmapStep); destruct (Z.ltb_spec size2 DB.maxMmapStep); lia. }
      clearbody g1 g2.
      apply Z.mod_divide in Hm1; [|lia]. apply Z.mod_divide in Hm2; [|lia].
      destruct Hm1 as [k1 ->]. destruct Hm2 as [k2 ->].
      assert (k1 <= k2); [|nia].
      destruct (Z.le_gt_cases k1 k2) as [|Hgt]; [assumption|]. nia.
Qed.

Lemma mmapSize_monotone_witness :
  exists r1 r2,
    DB.mmapSize (DB.mk 4096 (meta_of 0 0) (meta_of 1 0)) 1073741823 = Some r1 /\
    DB.mmapSize (DB.mk 4096 (meta_of 0 0) (meta_of 1 0)) 1073741824 = Some r2 /\
    r1 <= r2.
Proof.
  apply (mmapSize_monotone (DB.mk 4096 (meta_of 0 0) (meta_of 1 0)) 1073741823 1073741824).
  - simpl. lia.
  - lia.
  - vm_compute. reflexivity.
Defined.

Section sequence_facts.
Variable tree : Type.
Variable maxInt : Z.
Implicit Types (b : Bucket.t tree).

Lemma NextSequence_times_S k b :
  NextSequence_times tree maxInt (Datatypes.S k) b =
  let '(r, e, b1) := Bucket.NextSequence tree maxInt b in
  let '(l, b2) := NextSequence_times tree maxInt k b1 in
  ((r, e) :: l, b2).
Proof. reflexivity. Qed.
End sequence_facts.

(** X20.  Calls of [NextSequence] in a row count up without gaps.  In
    an open writable transaction, with the stored sequence [s] between 0
    and [maxInt] (below 2^63), the [i]-th of [k] calls returns [s + i]
    while that does not exceed [maxInt]; from then on every call returns
    [ErrSequenceOverflow], and the stored sequence stays at [maxInt]. *)
Theorem NextSequence_run (tree : Type) (maxInt : Z) (k : nat) (b : Bucket.t tree) :
  Bucket.db_open tree (Bucket.tx tree b) = true ->
  Bucket.Writable tree b = true ->
  0 <= Bucket.sequence tree b <= maxInt ->
  maxInt < 2 ^ 63 ->
  NextSequence_times tree maxInt k b
  = (map (fun i : nat =>
            if Bucket.sequence tree b + Z.of_nat i <=? maxInt
            then (Bucket.sequence tree b + Z.of_nat i, None)
            else (0, Some ErrSequenceOverflow))
       (seq 1 k),
     Bucket.with_sequence tree (Z.min (Bucket.sequence tree b + Z.of_nat k) maxInt) b).
Proof.
  revert b. induction k as [|k IH]; intros b Hopen Hw Hs Hmax.
  - simpl. rewrite Z.add_0_r, Z.min_l by lia. destruct b; reflexivity.
  - rewrite NextSequence_times_S. unfold Bucket.NextSequence.
    rewrite Hopen, Hw. cbn [negb]. rewrite (uint64_small maxInt) by lia.
    destruct (Z.eqb_spec (Bucket.sequence tree b) maxInt) as [E|E].
    + rewrite (IH b Hopen Hw Hs Hmax). cbn [seq map].
      assert (E1 : (Bucket.sequence tree b + Z.of_nat 1 <=? maxInt) = false)
        by (apply Z.leb_gt; lia).
      rewrite E1. f_equal.
      * f_equal. rewrite <- (seq_shift k 1), map_map. apply map_ext_in. intros i Hi.
        apply in_seq in Hi.
        assert (E2 : (Bucket.sequence tree b + Z.of_nat i <=? maxInt) = false)
          by (apply Z.leb_gt; lia).
        assert (E3 : (Bucket.sequence tree b + Z.of_nat (Datatypes.S i) <=? maxInt) = false)
          by (apply Z.leb_gt; lia).
        now rewrite E2, E3.
      * f_equal. lia.
    + set (b1 := Bucket.with_sequence tree (uint64 (Bucket.sequence tree b + 1)) b).
      assert (Hs1 : Bucket.sequence tree b1 = Bucket.sequence tree b + 1).
      { unfold b1. simpl. apply uint64_small. lia. }
      rewrite (IH b1); [|exact Hopen|exact Hw|lia|exact Hmax].
      cbn [seq map].
      assert (E1 : (Bucket.sequence tree b + Z.of_nat 1 <=? maxInt) = true)
        by (apply Z.leb_le; lia).
      rewrite E1. rewrite Hs1. f_equal.
      * f_equal.
        { f_equal. rewrite uint64_small by lia. rewrite int_wrap_small by lia. lia. }
        rewrite <- (seq_shift k 1), map_map. apply map_ext_in. intros i Hi.
        replace (Bucket.sequence tree b + 1 + Z.of_nat i)
          with (Bucket.sequence tree b + Z.of_nat (Datatypes.S i)) by lia.
        reflexivity.
      * unfold b1, Bucket.with_sequence. simpl. f_equal. lia.
Qed.

Lemma NextSequence_run_witness :
  NextSequence_times unit 43 3 (writable_bucket 41)
  = (map (fun i : nat =>
            if Bucket.sequence unit (writable_bucket 41) + Z.of_nat i <=? 43
            then (Bucket.sequence unit (writable_bucket 41) + Z.of_nat i, None)
            else (0, Some ErrSequenceOverflow))
       (seq 1 3),
     Bucket.with_sequence unit
       (Z.min (Bucket.sequence unit (writable_bucket 41) + Z.of_nat 3) 43)
       (writable_bucket 41)).
Proof.
  apply (NextSequence_run unit 43 3 (writable_bucket 41)).
  - reflexivity.
  - reflexivity.
  - simpl. lia.
  - lia.
Defined.



(** * A scan from a key *)

Section seek_scan_facts.
Variable pages : gmap Z page.t.
Implicit Types (p child : page.t) (ks : list bytes) (target : bytes)
  (its kvs rest : list (bytes * bytes)) (lo hi : option bytes).

(** When the descent for [target] ends on an element, the cursor
    stands on a pair of the tree, and every pair before it has a key
    below the target. *)
Lemma descent_at_stack target h :
  forall lo hi p its stk top,
    ordered pages h lo hi p -> walkable pages h p ->
    tree_items pages h p = Some its ->
    descent pages target p stk -> last stk = Some top ->
    Cursor.ref_index top < page.count (Cursor.ref_page top) ->
    exists before rest,
      its = before ++ rest /\
      at_stack pages h p stk rest /\
      Forall (fun kv => bytes_lt (fst kv) target) before.
Proof.
  induction h as [|h IH]; intros lo hi p its stk top Ho Hw Hits Hd Hlast Htop.
  - destruct Ho as (Hleaf & Hcount & kvs & Hkvs & Hss & _).
    simpl in Hits. rewrite Hleaf in Hits.
    assert (its = kvs) by congruence. subst its.
    inversion Hd as [p' ks' Hl' Hks'|p' ks' pg child rest Hl' ]; subst; [|congruence].
    pose proof (leaf_items_keys p kvs Hkvs) as Hk.
    assert (ks' = map fst kvs) by congruence. subst ks'.
    simpl in Hlast. inversion Hlast; subst top. simpl in Htop.
    pose proof (leaf_items_length p kvs Hkvs) as Hlen.
    set (lb := lower_bound (map fst kvs) target) in *.
    exists (take lb kvs), (drop lb kvs). split; [now rewrite take_drop|]. split.
    + split; [lia|]. exists lb, kvs. repeat split; try assumption. lia.
    + apply Forall_forall. intros x Hx. apply elem_of_take in Hx.
      destruct Hx as (a & Ha & Halt).
      apply (lower_bound_before (map fst kvs) target a (fst x)); [exact Halt|].
      change (map fst kvs) with (fst <$> kvs). now rewrite list_lookup_fmap, Ha.
  - destruct Ho as (Hleaf & _ & Hcount & ks & cs & Hks & Hss & Hcs & Hkb & Hkids).
    destruct Hw as (_ & _ & cs' & Hcs' & Hall).
    assert (cs' = cs) by congruence. subst cs'.
    simpl in Hits. rewrite Hleaf, Hcs in Hits. cbn [mbind option_bind] in Hits.
    destruct (mapM (tree_items pages h) cs) as [l|] eqn:Hl; [|discriminate].
    simpl in Hits. inversion Hits; subst its. clear Hits.
    inversion Hd as [p' ks' Hl' Hks'|p' ks' pg child rest Hl' Hks' Hpg Hchild Hrest];
      subst; [congruence|].
    assert (ks' = ks) by congruence. subst ks'.
    set (i := spec_branch_index ks target) in *.
    pose proof (mapM_seq_lookup _ _ _ Hks) as [Hlen _].
    pose proof (branch_children_length pages p cs Hcs) as Hlen'.
    assert (Hne : ks <> []) by (intros ->; simpl in Hlen; lia).
    pose proof (spec_branch_index_lt ks target Hne) as Hi. fold i in Hi.
    destruct (lookup_lt_is_Some_2 cs i) as [child' Hchild']; [lia|].
    pose proof (branch_children_lookup pages p cs i child' Hcs Hchild') as Hb.
    rewrite Hpg in Hb. cbn [mbind option_bind] in Hb.
    assert (child' = child) by congruence. subst child'.
    destruct (spec_branch_index_bounds ks target Hss) as [Hb1 _]. fold i in Hb1.
    assert (Hlast' : last rest = Some top).
    { destruct rest as [|r0 rest']; [inversion Hrest|]. exact Hlast. }
    pose proof Hl as Hl0.
    rewrite <- (take_drop i cs) in Hl.
    apply mapM_app_inv in Hl. destruct Hl as (l1 & l2 & Hl1 & Hl2 & ->).
    rewrite (drop_S cs child i Hchild') in Hl2.
    destruct (mapM_cons_inv _ _ _ _ Hl2) as (li & later & Hli & Hlater & ->).
    assert (Hwc : walkable pages h child).
    { rewrite Forall_forall in Hall. apply Hall. eapply list_elem_of_lookup_2; eauto. }
    destruct (IH _ _ child li rest top (Hkids i child Hchild') Hwc Hli Hrest Hlast' Htop)
      as (b' & r' & -> & Hat & Hfb).
    exists (concat l1 ++ b'), (r' ++ concat later). split.
    { rewrite concat_app. simpl. now rewrite <- !app_assoc. }
    split.
    + split; [lia|]. exists i, rest, cs, child, r', later. repeat split; assumption.
    + apply Forall_app. split; [|exact Hfb].
      apply Forall_forall. intros x Hx.
      apply elem_of_concat in Hx. destruct Hx as (lj & Hin & Hlj).
      apply list_elem_of_lookup_1 in Hlj. destruct Hlj as [j Hj].
      apply mapM_Some_1 in Hl1.
      destruct (Forall2_lookup_r _ _ _ _ _ Hl1 Hj) as (cj & Hcj & Hij).
      pose proof (lookup_lt_Some _ _ _ Hcj) as Hjlt. rewrite length_take in Hjlt.
      rewrite lookup_take_lt in Hcj by lia.
      pose proof (items_bounded pages h _ _ cj lj (Hkids j cj Hcj) Hij) as Hbd.
      rewrite Forall_forall in Hbd. destruct (Hbd _ Hin) as [_ Hbl]. simpl in Hbl.
      destruct (lookup_lt_is_Some_2 ks (Datatypes.S j)) as [kn Hkn]; [lia|].
      rewrite Hkn in Hbl. simpl in Hbl.
      destruct (lookup_lt_is_Some_2 ks i) as [ki Hki]; [lia|].
      assert (Hle : bytes_le ki target) by (apply Hb1; [lia|exact Hki]).
      assert (Hle2 : bytes_le kn ki).
      { destruct (decide (Datatypes.S j = i)) as [E|E].
        - rewrite E in Hkn. assert (kn = ki) by congruence. subst. apply bytes_le_refl.
        - apply bytes_lt_le.
          apply (StronglySorted_lookup bytes_lt ks (Datatypes.S j) i kn ki Hss);
            [lia|exact Hkn|exact Hki]. }
      eapply bytes_lt_le_trans; [exact Hbl|]. eapply bytes_le_trans; eauto.
Qed.
End seek_scan_facts.

(** X23.  A scan from a key.  On a search tree without empty pages, a
    pair that [Seek] returns is the first pair of the tree whose key is
    not below the target: every pair before it has a smaller key.  The
    cursor stands on it, so that [Next] goes on with the pair after
    it. *)
Theorem Seek_then_Next (c : Cursor.t) (target : bytes) (h fuel : nat) (rootp : page.t)
    (its : list (bytes * bytes)) :
  Cursor.pages c !! Cursor.root c = Some rootp ->
  ordered (Cursor.pages c) h None None rootp ->
  walkable (Cursor.pages c) h rootp ->
  tree_items (Cursor.pages c) h rootp = Some its ->
  (h < fuel)%nat ->
  exists res stk,
    Cursor.Seek fuel target c = Done (res, Cursor.with_stack stk c) /\
    forall k v,
      res = Some (k, v) ->
      exists before rest s,
        its = before ++ (k, v) :: rest /\
        Forall (fun kv => bytes_lt (fst kv) target) before /\
        bytes_le target k /\
        Cursor.Next fuel (Cursor.with_stack stk c)
        = Done (head rest, Cursor.with_stack s c).
Proof.
  intros Hroot Ho Hw Hits Hfuel. unfold Cursor.Seek. rewrite Hroot.
  pose proof (ordered_btree (Cursor.pages c) h None None rootp Ho) as Hbt.
  destruct (search_spec target h fuel rootp (Cursor.with_stack [] c))
    as (stk & leafp & ks & Hs & Hd & _ & Hlast & Hbl & Hlk); [exact Hbt|exact Hfuel|].
  cbn [Cursor.stack Cursor.with_stack Cursor.pages Cursor.root app] in Hs, Hd, Hbl.
  rewrite Hs. cbn [Cursor.stack Cursor.with_stack].
  assert (Htop : stk !! (length stk - 1)%nat
                 = Some (Cursor.mkRef leafp (Z.of_nat (lower_bound ks target)))).
  { rewrite <- Hlast. rewrite last_lookup. f_equal. lia. }
  rewrite Htop. cbn [Cursor.ref_index Cursor.ref_page].
  destruct Hbl as (_ & Hcount & ks' & Hks' & Hss & _).
  assert (ks' = ks) by congruence. subst ks'.
  pose proof (mapM_seq_lookup _ _ _ Hlk) as [Hlen _].
  pose proof (lower_bound_le ks target) as Hlb.
  destruct (Z.eqb_spec (Z.of_nat (lower_bound ks target)) (page.count leafp)) as [E|E].
  { exists None, stk. split; [reflexivity|]. discriminate. }
  destruct (descent_at_stack (Cursor.pages c) target h None None rootp its stk _
              Ho Hw Hits Hd Hlast) as (before & rest & -> & Hat & Hfb).
  { simpl. lia. }
  destruct (at_stack_last _ _ _ _ _ Hat)
    as (leafp' & i & kvs & x & rest' & Hlast2 & Hkvs & Hi & _ & ->).
  rewrite Hlast in Hlast2. inversion Hlast2 as [[Hp Hidx]]. subst leafp'.
  apply Nat2Z.inj in Hidx. rewrite <- Hidx in Hi.
  destruct x as [k v].
  destruct (leaf_items_lookup leafp kvs _ k v Hkvs Hi) as [Hk Hv].
  rewrite Hk, Hv. exists (Some (k, v)), stk. split; [reflexivity|].
  intros k' v' Heq. inversion Heq; subst k' v'.
  destruct (Next_step (Cursor.with_stack stk c) h rootp (k, v) rest' fuel Hat Hfuel)
    as (s & HN & _).
  exists before, rest', s. split; [reflexivity|]. split; [exact Hfb|]. split; [|exact HN].
  pose proof (leaf_items_keys leafp kvs Hkvs) as Hk2.
  assert (ks = map fst kvs) by congruence. subst ks.
  set (lb := lower_bound (map fst kvs) target) in *.
  apply (lower_bound_after (map fst kvs) target lb k);
    [now apply strictly_sorted_sorted|fold lb; lia|].
  assert (Hgoal : (fst <$> kvs) !! lb = Some k) by (now rewrite list_lookup_fmap, Hi).
  exact Hgoal.
Qed.

Lemma Seek_then_Next_witness :
  exists res stk,
    Cursor.Seek 2 (bs "b") tree_cursor = Done (res, Cursor.with_stack stk tree_cursor) /\
    forall k v,
      res = Some (k, v) ->
      exists before rest s,
        tree_pairs = before ++ (k, v) :: rest /\
        Forall (fun kv => bytes_lt (fst kv) (bs "b")) before /\
        bytes_le (bs "b") k /\
        Cursor.Next 2 (Cursor.with_stack stk tree_cursor)
        = Done (head rest, Cursor.with_stack s tree_cursor).
Proof.
  apply (Seek_then_Next tree_cursor (bs "b") 1 2 tree_root tree_pairs).
  - vm_compute. reflexivity.
  - exact tree_root_ordered.
  - exact tree_root_walkable.
  - exact tree_root_items.
  - lia.
Defined.
